(** * zrepl: buffer pool, stream multiplexer, PDU conversion, pruner and
      logging outlets

    A shallow embedding of these parts of zrepl:
    - [rpc/dataconn/base2bufpool]: the power-of-two buffer pool;
    - [rpc/dataconn/stream]: [WriteStream] and [ReadStream];
    - [cmd/replication/pdu_extras.go]: wire/in-memory conversion of
      filesystem versions;
    - [daemon/pruner]: the pruner factory and its state machine;
    - [daemon/logging]: the outlets built from the configuration.

    Go values are modelled as follows.  [uint] is a 64-bit word held in [Z]
    with the wrap-around written out, [uint32] a 32-bit word held in [Z],
    a byte slice is a [list byte], a Go string is a [string], a Go [error]
    is an [option error] ([None] is [nil]).  A function that can panic
    returns in [go]. *)

From Stdlib Require Import ZArith List Lia Bool String Ascii.
From Stdlib Require Import Strings.Byte DecimalString.
Import ListNotations.
Open Scope Z_scope.

(** ** Go runtime *)

(** The outcome of running a Go function: it returns, it panics, or the
    model ran out of fuel before the function returned.  A panic carries the
    text of its value; for a panic of the runtime this is the text that
    names its kind, without the numbers that the runtime adds. *)
Inductive go (A : Type) : Type :=
| Ret (a : A)
| Panic (msg : string)
| OutOfFuel.
Arguments Ret {A} a.
Arguments Panic {A} msg.
Arguments OutOfFuel {A}.

Definition bind {A B : Type} (m : go A) (k : A -> go B) : go B :=
  match m with
  | Ret a => k a
  | Panic msg => Panic msg
  | OutOfFuel => OutOfFuel
  end.

Declare Scope go_scope.
Delimit Scope go_scope with go.
Notation "x <- m ;; k" := (bind m (fun x => k))
  (at level 61, m at next level, right associativity) : go_scope.
Notation "' pat <- m ;; k" := (bind m (fun x => match x with pat => k end))
  (at level 61, pat pattern, m at next level, right associativity) : go_scope.
Open Scope go_scope.

(** Machine integers: [uint] and [int] are 64 bits wide, [uint32] is 32. *)
Definition wrap_uint (z : Z) : Z := z mod 2 ^ 64.
Definition wrap_int (z : Z) : Z := (z + 2 ^ 63) mod 2 ^ 64 - 2 ^ 63.
Definition wrap_uint32 (z : Z) : Z := z mod 2 ^ 32.

(** [1 << s] evaluated at type [uint], respectively [int]. *)
Definition shl1_uint (s : Z) : Z := wrap_uint (Z.shiftl 1 s).
Definition shl1_int (s : Z) : Z := wrap_int (Z.shiftl 1 s).

(** [len(s)] as a Go [int]. *)
Definition len {A : Type} (s : list A) : Z := Z.of_nat (List.length s).

(** The runtime's bound on the size of one allocation, [maxAlloc]: on the
    platforms where [uint] has 64 bits the heap has 48 address bits. *)
Definition maxAlloc : Z := 2 ^ 48.

(** [make([]byte, n)]: a zeroed slice.  The runtime panics for a negative
    length and for a length above [maxAlloc]; below that bound the model
    takes the memory to be there. *)
Definition make_bytes (n : Z) : go (list byte) :=
  if (n <? 0) || (n >? maxAlloc) then Panic "makeslice: len out of range"
  else Ret (repeat x00 (Z.to_nat n)).

(** [%v] of an integer in [fmt.Sprintf]: its decimal digits, with the sign
    when it is negative. *)
Definition fmt_int (z : Z) : string := NilZero.string_of_int (Z.to_int z).

(** [math/bits.Len]: the number of bits needed to represent [x]. *)
Definition bits_Len (x : Z) : Z :=
  if x =? 0 then 0 else Z.log2 x + 1.

(** [math/bits.OnesCount] of a nonnegative number. *)
Fixpoint pos_OnesCount (p : positive) : Z :=
  match p with
  | xH => 1
  | xO q => pos_OnesCount q
  | xI q => 1 + pos_OnesCount q
  end.

Definition bits_OnesCount (x : Z) : Z :=
  match x with
  | Zpos p => pos_OnesCount p
  | _ => 0
  end.

(** ** Errors

    The sentinel errors of [io] and [context] are compared with [==] in the
    source, so each is a constructor.  [errors_New] stands for the values
    built by [errors.New], [fmt.Errorf] and [errors.Wrap]; [net_Error] for a
    value whose dynamic type implements the interface [net.Error]. *)
Inductive error : Type :=
| io_EOF
| io_ErrUnexpectedEOF
| io_ErrShortWrite
| context_Canceled
| context_DeadlineExceeded
| errors_New (msg : string)
| net_Error (msg : string) (timeout temporary : bool).

Definition error_eqb (a b : error) : bool :=
  match a, b with
  | io_EOF, io_EOF => true
  | io_ErrUnexpectedEOF, io_ErrUnexpectedEOF => true
  | io_ErrShortWrite, io_ErrShortWrite => true
  | context_Canceled, context_Canceled => true
  | context_DeadlineExceeded, context_DeadlineExceeded => true
  | errors_New m, errors_New m' => String.eqb m m'
  | net_Error m t p, net_Error m' t' p' =>
      String.eqb m m' && Bool.eqb t t' && Bool.eqb p p'
  | _, _ => false
  end.

(** The method [Error()]. *)
Definition Error (e : error) : string :=
  match e with
  | io_EOF => "EOF"
  | io_ErrUnexpectedEOF => "unexpected EOF"
  | io_ErrShortWrite => "short write"
  | context_Canceled => "context canceled"
  | context_DeadlineExceeded => "context deadline exceeded"
  | errors_New msg => msg
  | net_Error msg _ _ => msg
  end.

(** Whether the dynamic type has the methods [Timeout] and [Temporary], that
    is, whether a type switch takes the case [net.Error].  The type of
    [context.DeadlineExceeded] has both methods. *)
Definition implements_net_Error (e : error) : bool :=
  match e with
  | net_Error _ _ _ => true
  | context_DeadlineExceeded => true
  | _ => false
  end.

(** ** base2bufpool *)
Module base2bufpool.

(** [type pool struct { mtx; bufs [][]byte; shift uint }].  The mutex makes
    each method atomic; the model runs the methods one at a time. *)
Record pool : Type := mkpool {
  bufs : list (list byte);
  shift : Z
}.

Definition pool_Put (p : pool) (buf : list byte) : go pool :=
  if negb (len buf =? shl1_int (shift p)) then
    Panic ("implementation error: " ++ fmt_int (len buf) ++ " "
           ++ fmt_int (shl1_int (shift p)))
  else if len (bufs p) >? 10 then
    Ret p
  else
    Ret (mkpool (bufs p ++ [buf]) (shift p)).

Definition pool_Get (p : pool) : go (pool * list byte) :=
  if len (bufs p) >? 0 then
    let ret := last (bufs p) [] in
    Ret (mkpool (removelast (bufs p)) (shift p), ret)
  else
    buf <- make_bytes (shl1_int (shift p)) ;;
    Ret (p, buf).

(** [type Pool struct { minShift, maxShift uint; pools []pool }].  A
    [*Pool] is compared by address in [put]; [addr] is that address. *)
Record Pool : Type := mkPool {
  addr : nat;
  minShift : Z;
  maxShift : Z;
  pools : list pool
}.

(** [type Buffer struct { shiftBuf []byte; payloadLen uint; pool *Pool }];
    the back reference holds the address of the pool, [None] is [nil]. *)
Record Buffer : Type := mkBuffer {
  shiftBuf : list byte;
  payloadLen : Z;
  bpool : option nat
}.

(** [b.shiftBuf[0:b.payloadLen]]; the slices of this package have their
    capacity equal to their length, so the slice expression panics exactly
    when [payloadLen] exceeds the length. *)
Definition Bytes (b : Buffer) : go (list byte) :=
  if payloadLen b >? len (shiftBuf b) then
    Panic "slice bounds out of range"
  else
    Ret (firstn (Z.to_nat (payloadLen b)) (shiftBuf b)).

Definition Shrink (b : Buffer) (newPayloadLen : Z) : go Buffer :=
  if newPayloadLen >? payloadLen b then
    Panic ("shrink is actually an expand, invalid: " ++ fmt_int newPayloadLen
           ++ " " ++ fmt_int (payloadLen b))
  else
    Ret (mkBuffer (shiftBuf b) newPayloadLen (bpool b)).

(** [New] at a given address.  [pools[i].shift = minShift + i]. *)
Definition New (a : nat) (minShift maxShift : Z) : Pool :=
  let n := wrap_uint (maxShift - minShift + 1) in
  mkPool a minShift maxShift
    (map (fun i => mkpool [] (wrap_uint (minShift + Z.of_nat i)))
         (seq 0 (Z.to_nat n))).

Definition fittingShift (x : Z) : Z :=
  if x =? 0 then 0
  else
    let blen := bits_Len x in
    if shl1_uint (blen - 1) =? x then blen - 1 else blen.

(** Replace the element at index [i]; the index is in range wherever the
    source writes through [p.pools[i]]. *)
Fixpoint set_nth {A : Type} (i : nat) (x : A) (l : list A) : list A :=
  match l, i with
  | [], _ => []
  | _ :: t, O => x :: t
  | h :: t, S j => h :: set_nth j x t
  end.

Definition Get (p : Pool) (minSize : Z) : go (Pool * Buffer) :=
  let shift := fittingShift minSize in
  if shift =? 0 then
    Ret (p, mkBuffer [] 0 None)
  else if (shift <? minShift p) || (shift >? maxShift p) then
    buf <- make_bytes (shl1_int shift) ;;
    Ret (p, mkBuffer buf minSize None)
  else
    let i := Z.to_nat (shift - minShift p) in
    match nth_error (pools p) i with
    | None => Panic "index out of range"
    | Some sub =>
        '(sub', buf) <- pool_Get sub ;;
        Ret (mkPool (addr p) (minShift p) (maxShift p) (set_nth i sub' (pools p)),
             mkBuffer buf minSize (Some (addr p)))
    end.

Definition put (p : Pool) (buffer : Buffer) : go Pool :=
  if negb (match bpool buffer with
           | Some a => Nat.eqb a (addr p)
           | None => false
           end) then
    Panic "putting buffer to pool where it didn't originate from"
  else
    let buf := shiftBuf buffer in
    if bits_OnesCount (len buf) >? 1 then
      Panic ("putting buffer that is not power of two len: "
             ++ fmt_int (len buf))
    else if len buf =? 0 then
      Ret p
    else
      let shift := fittingShift (len buf) in
      if (shift <? minShift p) || (shift >? maxShift p) then
        Ret p
      else
        let i := Z.to_nat (shift - minShift p) in
        match nth_error (pools p) i with
        | None => Panic "index out of range"
        | Some sub =>
            sub' <- pool_Put sub buf ;;
            Ret (mkPool (addr p) (minShift p) (maxShift p)
                        (set_nth i sub' (pools p)))
        end.

(** [b.Free()], given the pool that [b.pool] points to. *)
Definition Free (b : Buffer) (p : Pool) : go Pool :=
  match bpool b with
  | Some _ => put p b
  | None => Ret p
  end.

(** A sequence of operations on one sub-pool, as the methods are called under
    its lock. *)
Inductive pool_op : Type :=
| OpPut (buf : list byte)
| OpGet.

Fixpoint pool_run (p : pool) (ops : list pool_op) : go pool :=
  match ops with
  | [] => Ret p
  | OpPut buf :: rest => p' <- pool_Put p buf ;; pool_run p' rest
  | OpGet :: rest => '(p', _) <- pool_Get p ;; pool_run p' rest
  end.

(** [k] buffers obtained from the pool and then freed, one after another. *)
Fixpoint get_many (p : Pool) (k : nat) (minSize : Z) : go (Pool * list Buffer) :=
  match k with
  | O => Ret (p, [])
  | S k' =>
      '(p1, b) <- Get p minSize ;;
      '(p2, bs) <- get_many p1 k' minSize ;;
      Ret (p2, b :: bs)
  end.

Fixpoint free_all (p : Pool) (bs : list Buffer) : go Pool :=
  match bs with
  | [] => Ret p
  | b :: rest => p' <- Free b p ;; free_all p' rest
  end.

(** Every stored buffer of a sub-pool has the sub-pool's size, and the
    sub-pool at index [i] serves the shift [minShift + i]. *)
Definition pool_wf (sub : pool) : Prop :=
  Forall (fun b => len b = shl1_int (shift sub)) (bufs sub).

Definition Pool_wf (p : Pool) : Prop :=
  0 <= minShift p /\ minShift p <= maxShift p /\ maxShift p <= 62 /\
  len (pools p) = maxShift p - minShift p + 1 /\
  forall i sub, nth_error (pools p) i = Some sub ->
                shift sub = minShift p + Z.of_nat i /\ pool_wf sub.

End base2bufpool.

(** ** stream *)
Module stream.

(** The following frame types are reserved for the streamer:
    [^uint32(0)] and [^uint32(1)]. *)
Definition SourceEOF : Z := wrap_uint32 (Z.lnot 0).
Definition SourceErr : Z := wrap_uint32 (Z.lnot 1).

(** [frameconn.Frame]: the header's type and the payload view of its
    buffer. *)
Record Frame : Type := mkFrame {
  Header_Type : Z;
  Buffer_Bytes : list byte
}.

(** [*frameconn.Conn], as far as the streamer uses it. *)
Class FrameConn (C : Type) : Type := {
  WriteFrame : C -> list byte -> Z -> C * option error;
  ReadFrame : C -> C * (Frame * option error)
}.

(** [io.Writer]. *)
Class Writer (W : Type) : Type := {
  Write : W -> list byte -> W * (Z * option error)
}.

(** An [io.Reader], seen through [io.ReadFull]: it delivers the bytes
    [pending] and then fails with [final] ([io_EOF] for a source that ends
    cleanly).  How the source cuts its bytes into single [Read] calls is
    invisible to [io.ReadFull], which loops until the buffer is full or an
    error comes back. *)
Record Reader : Type := mkReader {
  pending : list byte;
  final : error
}.

Definition strings_NewReader (s : string) : Reader :=
  mkReader (list_byte_of_string s) io_EOF.

(** [io.ReadFull(r, buf)] with [len(buf) = n]: the bytes read and the error.
    A full buffer comes with a nil error; a short read reports the source's
    error, [io.ErrUnexpectedEOF] in place of [io.EOF] once some bytes were
    read. *)
Definition io_ReadFull (r : Reader) (n : nat) : Reader * (list byte * option error) :=
  if (n <=? List.length (pending r))%nat then
    (mkReader (skipn n (pending r)) (final r), (firstn n (pending r), None))
  else
    (mkReader [] (final r),
     (pending r,
      Some (match final r, pending r with
            | io_EOF, _ :: _ => io_ErrUnexpectedEOF
            | e, _ => e
            end))).

(** The length of [bufpool.Get(1 << 19).Bytes()], see
    [base2bufpool_facts.Get_stream_buffer]. *)
Definition bufferLen : nat := Z.to_nat (shl1_int 19).
Arguments bufferLen : simpl never.

(** What the producer task sends over the channel [reads]: the payload view
    of the buffer after [Shrink(n)] and the error. *)
Record read : Type := mkread {
  buf : list byte;
  err : option error
}.

(** The producer task of [WriteStream]: the sequence of values it sends
    before it closes the channel.  Every round that does not end the loop
    takes [bufferLen] bytes from the source. *)
Fixpoint producer (fuel : nat) (stream : Reader) : go (list read) :=
  match fuel with
  | O => OutOfFuel
  | S fuel' =>
      let '(stream', (bytes, e)) := io_ReadFull stream bufferLen in
      let e :=
        match e with
        | Some io_ErrUnexpectedEOF => Some io_EOF
        | _ => e
        end in
      match e with
      | Some _ => Ret [mkread bytes e]
      | None => rest <- producer fuel' stream' ;; Ret (mkread bytes e :: rest)
      end
  end.

(** [read.err != nil && read.err != io.EOF] *)
Definition is_source_error (e : option error) : bool :=
  match e with
  | None => false
  | Some io_EOF => false
  | Some _ => true
  end.

Section Write.
Context {C : Type} `{FrameConn C}.

(** The loop [for read := range reads] of [WriteStream]; [recur] is
    [WriteStream] itself, called for the error trailer. *)
Fixpoint consumer (recur : C -> Reader -> Z -> go (C * option error))
    (c : C) (reads : list read) (stype : Z) : go (C * option error) :=
  match reads with
  | [] => Ret (c, None)
  | rd :: rest =>
      if is_source_error (err rd) then
        let msg := match err rd with Some e => Error e | None => EmptyString end in
        '(c1, e) <- recur c (strings_NewReader msg) SourceErr ;;
        match e with
        | Some e' => Ret (c1, Some e')
        | None => Ret (c1, None)
        end
      else
        let '(c1, writeErr) := WriteFrame c (buf rd) stype in
        match writeErr with
        | Some e => Ret (c1, Some e)
        | None =>
            match err rd with
            | Some io_EOF =>
                let '(c2, e) := WriteFrame c1 [] SourceEOF in
                match e with
                | Some e' => Ret (c2, Some e')
                | None => Ret (c2, None)
                end
            | _ => consumer recur c1 rest stype
            end
        end
  end.

(** [WriteStream]; [depth] bounds the nesting of the recursive call. *)
Fixpoint WriteStream (depth : nat) (c : C) (stream : Reader) (stype : Z)
    : go (C * option error) :=
  if stype =? 0 then Panic EmptyString
  else
    match depth with
    | O => OutOfFuel
    | S d =>
        reads <- producer (S (List.length (pending stream))) stream ;;
        consumer (WriteStream d) c reads stype
    end.

End Write.

(** [%v] of a [uint32]: decimal digits. *)
Definition fmt_v (z : Z) : string :=
  NilZero.string_of_uint (N.to_uint (Z.to_N z)).

Section Read.
Context {C : Type} `{FrameConn C} {W : Type} `{Writer W}.

(** [%q] of a string, that is [strconv.Quote] of the standard library. *)
Variable strconv_Quote : string -> string.

(** The scheduler's part in [ReadStream]: how many frames the reader task
    has taken from the connection, beyond the frame that the loop holds,
    when the loop leaves early. *)
Variable ahead : nat.

(** The part of [ReadStream] after its loop; [f] is the last frame
    received. *)
Definition trailer (f : Frame) : option error :=
  if Header_Type f =? SourceEOF then None
  else if Header_Type f =? SourceErr then
    Some (errors_New ("stream error: "
                      ++ strconv_Quote (string_of_list_byte (Buffer_Bytes f))))
  else
    Some (errors_New ("received unexpected frame type: "
                      ++ fmt_v (Header_Type f))).

(** Whether the reader task of [ReadStream] closes the channel and returns
    after it has forwarded the frame [f]. *)
Definition closes (f : Frame) : bool :=
  (Header_Type f =? SourceEOF) || (Header_Type f =? SourceErr).

(** The reader task running on for at most [n] more frames: it stops after
    a read error and after a frame that [closes]. *)
Fixpoint reader_task (n : nat) (c : C) : C :=
  match n with
  | O => c
  | S n' =>
      let '(c1, (f, rerr)) := ReadFrame c in
      match rerr with
      | Some _ => c1
      | None => if closes f then c1 else reader_task n' c1
      end
  end.

(** The connection when the loop of [ReadStream] leaves with the frame [f]
    in hand.  Unless [f] has made the reader task stop, the task has gone
    on reading: the channel [reads] holds one value, so the task can have
    read one frame that waits in the channel and one more that it waits to
    send, and no further. *)
Definition left_behind (f : Frame) (c : C) : C :=
  if closes f then c else reader_task (Nat.min ahead 2) c.

(** [ReadStream].  The reader task forwards frames until a read error or a
    frame of type [SourceEOF] or [SourceErr], then closes the channel.  As
    long as the loop goes on, the model reads a frame when the loop asks for
    the next one; where the loop leaves early, the frames that the reader
    task has taken meanwhile are gone from the connection.  [fuel] bounds
    the number of frames that the loop receives. *)
Fixpoint ReadStream (fuel : nat) (c : C) (receiver : W) (stype : Z)
    : go (C * W * option error) :=
  match fuel with
  | O => OutOfFuel
  | S fuel' =>
      let '(c1, (f, rerr)) := ReadFrame c in
      match rerr with
      | Some e => Ret (c1, receiver, Some e)
      | None =>
          if negb (Header_Type f =? stype) then
            Ret (left_behind f c1, receiver, trailer f)
          else
            let '(w1, (n, werr)) := Write receiver (Buffer_Bytes f) in
            match werr with
            | Some e => Ret (left_behind f c1, w1, Some e)
            | None =>
                if negb (n =? len (Buffer_Bytes f)) then
                  Ret (left_behind f c1, w1, Some io_ErrShortWrite)
                else if closes f then
                  Ret (c1, w1, trailer f)
                else
                  ReadStream fuel' c1 w1 stype
            end
      end
  end.

End Read.

(** A reliable connection: the frames written and not yet read, oldest
    first.  Reading from the drained connection reports [io.EOF], as after
    the peer has closed it. *)
Definition Pipe : Type := list Frame.

#[export] Instance Pipe_FrameConn : FrameConn Pipe := {
  WriteFrame c b t := (c ++ [mkFrame t b], None);
  ReadFrame c :=
    match c with
    | [] => ([], (mkFrame 0 [], Some io_EOF))
    | f :: c' => (c', (f, None))
    end
}.

(** A sink that keeps everything written to it, like [bytes.Buffer]. *)
#[export] Instance bytes_Writer : Writer (list byte) := {
  Write w b := (w ++ b, (len b, None))
}.

(** [strconv.Quote] on printable ASCII: the text between double quotes, with
    a backslash before each double quote and backslash.  Other bytes are
    written as [\xNN] escapes here; the standard library also knows named
    escapes and Unicode, which the statements below do not rely on. *)
Definition dquote : ascii := ascii_of_nat 34.
Definition backslash : ascii := ascii_of_nat 92.

Definition hex_digit (n : nat) : ascii :=
  nth n (list_ascii_of_string "0123456789abcdef") "0"%char.

Fixpoint quote_body (s : string) : string :=
  match s with
  | EmptyString => EmptyString
  | String a rest =>
      let n := nat_of_ascii a in
      (if Ascii.eqb a dquote then String backslash (String dquote EmptyString)
       else if Ascii.eqb a backslash then
         String backslash (String backslash EmptyString)
       else if ((32 <=? n) && (n <? 127))%nat then String a EmptyString
       else String backslash (String "x"%char
              (String (hex_digit (n / 16))
                 (String (hex_digit (n mod 16)) EmptyString))))
      ++ quote_body rest
  end.

Definition quote_ascii (s : string) : string :=
  String dquote (quote_body s ++ String dquote EmptyString).

(** The error that ends the sequence of reads: both [io.EOF] and
    [io.ErrUnexpectedEOF] arrive as [io.EOF]. *)
Definition normalized (e : error) : error :=
  match e with
  | io_EOF | io_ErrUnexpectedEOF => io_EOF
  | _ => e
  end.

Definition full_reads (chunks : list (list byte)) : list read :=
  map (fun b => mkread b None) chunks.

(** A connection that breaks: it takes [budget] more frames and fails every
    later write, and every read, with [failure]. *)
Record Lossy : Type := mkLossy {
  sent : list Frame;
  budget : nat;
  failure : error
}.

#[export] Instance Lossy_FrameConn : FrameConn Lossy := {
  WriteFrame c b t :=
    match budget c with
    | O => (c, Some (failure c))
    | S k => (mkLossy (sent c ++ [mkFrame t b]) k (failure c), None)
    end;
  ReadFrame c := (c, (mkFrame 0 [], Some (failure c)))
}.

(** A sink with room for [room] more bytes: [Write] takes what fits and
    reports how many bytes it took, without an error. *)
Record Limited : Type := mkLimited {
  stored : list byte;
  room : nat
}.

#[export] Instance Limited_Writer : Writer Limited := {
  Write w b :=
    let n := Nat.min (room w) (List.length b) in
    (mkLimited (stored w ++ firstn n b) (room w - n), (Z.of_nat n, None))
}.

End stream.

(** ** time *)
Module time.

(** A [time.Time]: seconds since January 1, year 1, 00:00:00 UTC, the
    nanoseconds within the second and the zone offset in seconds.  The zero
    value [time.Time{}] is that first instant. *)
Record Time : Type := mkTime {
  seconds : Z;
  nanos : Z;
  zone : Z
}.

Definition zero : Time := mkTime 0 0 0.

(** A parser for the canonical form of the layout [time.RFC3339],
    [2006-01-02T15:04:05Z07:00], with an optional fraction of a second: the
    instance of [time.Parse] on which the examples run.  [time.Parse] itself
    belongs to the standard library; the statements about the conversion
    hold for every parser. *)
Definition digit (a : ascii) : option Z :=
  let n := Z.of_nat (nat_of_ascii a) in
  if (48 <=? n) && (n <=? 57) then Some (n - 48) else None.

Fixpoint digits (k : nat) (acc : Z) (s : string) : option (Z * string) :=
  match k with
  | O => Some (acc, s)
  | S k' =>
      match s with
      | String a rest =>
          match digit a with
          | Some d => digits k' (10 * acc + d) rest
          | None => None
          end
      | EmptyString => None
      end
  end.

Definition lit (c : ascii) (s : string) : option string :=
  match s with
  | String a rest => if Ascii.eqb a c then Some rest else None
  | EmptyString => None
  end.

Fixpoint fraction (s : string) (scale acc : Z) : Z * string :=
  match s with
  | String a rest =>
      match digit a with
      | Some d => fraction rest (scale / 10) (acc + d * scale)
      | None => (acc, s)
      end
  | EmptyString => (acc, s)
  end.

Definition isLeap (y : Z) : bool :=
  (y mod 4 =? 0) && (negb (y mod 100 =? 0) || (y mod 400 =? 0)).

Definition daysIn (m y : Z) : Z :=
  if m =? 2 then (if isLeap y then 29 else 28)
  else if (m =? 4) || (m =? 6) || (m =? 9) || (m =? 11) then 30
  else 31.

Definition daysBeforeMonth (m y : Z) : Z :=
  fold_left (fun acc k => acc + daysIn (Z.of_nat k) y)
            (seq 1 (Z.to_nat (m - 1))) 0.

Definition daysBeforeYear (y : Z) : Z :=
  365 * (y - 1) + (y - 1) / 4 - (y - 1) / 100 + (y - 1) / 400.

Definition obind {A B : Type} (m : option A) (k : A -> option B) : option B :=
  match m with
  | Some a => k a
  | None => None
  end.

Definition parseZone (s : string) : option Z :=
  match s with
  | String a rest =>
      if Ascii.eqb a "Z"%char then
        match rest with EmptyString => Some 0 | _ => None end
      else
        let sign :=
          if Ascii.eqb a "+"%char then Some 1
          else if Ascii.eqb a "-"%char then Some (-1)
          else None in
        obind sign (fun sg =>
        obind (digits 2 0 rest) (fun '(hh, s1) =>
        obind (lit ":"%char s1) (fun s2 =>
        obind (digits 2 0 s2) (fun '(mm, s3) =>
        match s3 with
        | EmptyString =>
            if (hh <? 24) && (mm <? 60) then Some (sg * (hh * 3600 + mm * 60))
            else None
        | _ => None
        end))))
  | EmptyString => None
  end.

Definition parseRFC3339 (s : string) : option Time :=
  obind (digits 4 0 s) (fun '(y, s1) =>
  obind (lit "-"%char s1) (fun s2 =>
  obind (digits 2 0 s2) (fun '(mo, s3) =>
  obind (lit "-"%char s3) (fun s4 =>
  obind (digits 2 0 s4) (fun '(d, s5) =>
  obind (lit "T"%char s5) (fun s6 =>
  obind (digits 2 0 s6) (fun '(h, s7) =>
  obind (lit ":"%char s7) (fun s8 =>
  obind (digits 2 0 s8) (fun '(mi, s9) =>
  obind (lit ":"%char s9) (fun s10 =>
  obind (digits 2 0 s10) (fun '(sec, s11) =>
  let '(ns, s12) :=
    match lit "."%char s11 with
    | Some (String a r) =>
        match digit a with
        | Some _ => fraction (String a r) 100000000 0
        | None => (0, s11)
        end
    | _ => (0, s11)
    end in
  obind (parseZone s12) (fun off =>
  if (1 <=? mo) && (mo <=? 12) && (1 <=? d) && (d <=? daysIn mo y)
     && (h <? 24) && (mi <? 60) && (sec <? 60) then
    Some (mkTime ((daysBeforeYear y + daysBeforeMonth mo y + (d - 1)) * 86400
                  + h * 3600 + mi * 60 + sec - off) ns off)
  else None)))))))))))).

Definition Parse_RFC3339 (s : string) : Time + error :=
  match parseRFC3339 s with
  | Some t => inl t
  | None => inr (errors_New ("parsing time: cannot parse " ++ s))
  end.

(** The text that [Format(time.RFC3339)] gives an instant of the years 1 to
    9999: the counterpart of [parseRFC3339] on which the examples run.  The
    layout has no fraction, so the nanoseconds are not written. *)
Definition digit_char (d : Z) : ascii := ascii_of_nat (Z.to_nat (48 + d mod 10)).

Fixpoint pad (k : nat) (n : Z) (acc : string) : string :=
  match k with
  | O => acc
  | S k' => pad k' (n / 10) (String (digit_char n) acc)
  end.

(** Year, month and day of the day number [days], counted from January 1 of
    year 1. *)
Definition civil (days : Z) : Z * Z * Z :=
  let z := days + 306 in
  let era := z / 146097 in
  let doe := z mod 146097 in
  let yoe := (doe - doe / 1460 + doe / 36524 - doe / 146096) / 365 in
  let doy := doe - (365 * yoe + yoe / 4 - yoe / 100) in
  let mp := (5 * doy + 2) / 153 in
  let d := doy - (153 * mp + 2) / 5 + 1 in
  let m := if mp <? 10 then mp + 3 else mp - 9 in
  let y := yoe + era * 400 in
  (if m <=? 2 then y + 1 else y, m, d).

Definition Format_RFC3339 (t : Time) : string :=
  let local := seconds t + zone t in
  let '(y, m, d) := civil (local / 86400) in
  let sod := local mod 86400 in
  let off := Z.abs (zone t) in
  let two n := pad 2 n EmptyString in
  (pad 4 y EmptyString ++ "-" ++ two m ++ "-" ++ two d ++ "T"
   ++ two (sod / 3600) ++ ":" ++ two (sod / 60 mod 60) ++ ":" ++ two (sod mod 60)
   ++ (if (zone t =? 0)%Z then "Z"
       else (if (zone t <? 0)%Z then "-" else "+")
            ++ two (off / 3600) ++ ":" ++ two (off / 60 mod 60)))%string.

End time.

(** ** replication: wire and in-memory filesystem versions *)
Module replication.

(** [zfs.VersionType], a string type of package [zfs]: the two constants
    that the conversions name, and any other text, the empty text of the
    zero value among them. *)
Inductive zfs_VersionType : Type :=
| zfs_Bookmark
| zfs_Snapshot
| zfs_VersionType_of (text : string).

(** The wire enumeration [FilesystemVersion.VersionType], an [int32]. *)
Definition FilesystemVersion_Snapshot : Z := 0.
Definition FilesystemVersion_Bookmark : Z := 1.

(** The wire message [FilesystemVersion]. *)
Record FilesystemVersion : Type := mkFilesystemVersion {
  Type_ : Z;
  Name : string;
  Guid : Z;
  CreateTXG : Z;
  Creation : string
}.

(** [zfs.FilesystemVersion], the in-memory form. *)
Record zfs_FilesystemVersion : Type := mkZFSFilesystemVersion {
  zType : zfs_VersionType;
  zName : string;
  zGuid : Z;
  zCreateTXG : Z;
  zCreation : time.Time
}.

Definition ZFSVersionType (v : Z) : go zfs_VersionType :=
  if v =? FilesystemVersion_Snapshot then Ret zfs_Snapshot
  else if v =? FilesystemVersion_Bookmark then Ret zfs_Bookmark
  else Panic ("unexpected v.Type " ++ fmt_int v).

Section Convert.

(** [time.Parse(time.RFC3339, _)]. *)
Variable time_Parse : string -> time.Time + error.

(** The method [ZFSFilesystemVersion] of the wire version.  Its only result is the
    in-memory version: a creation time that does not parse ends in
    [panic(err)]. *)
Definition ZFSFilesystemVersion (v : FilesystemVersion) : go zfs_FilesystemVersion :=
  ct <- (if negb (String.eqb (Creation v) EmptyString) then
           match time_Parse (Creation v) with
           | inl t => Ret t
           | inr e => Panic (Error e)
           end
         else Ret time.zero) ;;
  ty <- ZFSVersionType (Type_ v) ;;
  Ret (mkZFSFilesystemVersion ty (Name v) (Guid v) (CreateTXG v) ct).

End Convert.

Section FromZFS.

(** [fsv.Creation.Format(time.RFC3339)]. *)
Variable time_Format : time.Time -> string.

(** [FilesystemVersionFromZFS]; the [default] branch of its [switch]
    panics with the type's text appended to the message. *)
Definition FilesystemVersionFromZFS (fsv : zfs_FilesystemVersion)
    : go FilesystemVersion :=
  t <- match zType fsv with
       | zfs_Bookmark => Ret FilesystemVersion_Bookmark
       | zfs_Snapshot => Ret FilesystemVersion_Snapshot
       | zfs_VersionType_of text => Panic ("unknown fsv.Type: " ++ text)
       end ;;
  Ret (mkFilesystemVersion t (zName fsv) (zGuid fsv) (zCreateTXG fsv)
                           (time_Format (zCreation fsv))).

End FromZFS.

End replication.

(** ** pruner *)
Module pruner.

(** Modelled from the spec: the messages of package [replication/pdu] that
    the pruner exchanges, whose declarations are not part of the sources at
    hand.  [Status] answers [SnapshotReplicationStatus] with one of
    Nonexistent, NotReplicated, Replicated. *)
Record Filesystem : Type := mkFilesystem {
  Path : string;
  ResumeToken : string
}.

Definition FilesystemVersion : Type := replication.FilesystemVersion.

Inductive SnapshotReplicationStatusRes_Status : Type :=
| SnapshotReplicationStatusRes_Nonexistent
| SnapshotReplicationStatusRes_NotReplicated
| SnapshotReplicationStatusRes_Replicated.

Definition Status_eqb (a b : SnapshotReplicationStatusRes_Status) : bool :=
  match a, b with
  | SnapshotReplicationStatusRes_Nonexistent,
    SnapshotReplicationStatusRes_Nonexistent => true
  | SnapshotReplicationStatusRes_NotReplicated,
    SnapshotReplicationStatusRes_NotReplicated => true
  | SnapshotReplicationStatusRes_Replicated,
    SnapshotReplicationStatusRes_Replicated => true
  | _, _ => false
  end.

Inductive SnapshotReplicationStatusReq_Op : Type :=
| SnapshotReplicationStatusReq_Get.

Record SnapshotReplicationStatusReq : Type := mkStatusReq {
  req_Filesystem : string;
  req_Snapshot : string;
  req_Op : SnapshotReplicationStatusReq_Op
}.

Record SnapshotReplicationStatusRes : Type := mkStatusRes {
  Status : SnapshotReplicationStatusRes_Status
}.

Record DestroySnapshotsReq : Type := mkDestroyReq {
  destroy_Filesystem : string;
  destroy_Snapshots : list FilesystemVersion
}.

(** Modelled from the spec: the rules of package [pruning], a [KeepRule]
    interface whose implementations include [KeepLastN]; every other
    implementation is a [KeepOther]. *)
Inductive KeepRule : Type :=
| KeepLastN (n : Z)
| KeepOther (kind : string).

(** [type State int], with the six declared values. *)
Inductive State : Type :=
| Plan
| PlanWait
| Exec
| ExecWait
| ErrPerm
| Done.

Definition State_eqb (a b : State) : bool :=
  match a, b with
  | Plan, Plan | PlanWait, PlanWait | Exec, Exec
  | ExecWait, ExecWait | ErrPerm, ErrPerm | Done, Done => true
  | _, _ => false
  end.

Record snapshot : Type := mksnapshot {
  replicated : bool;
  date : time.Time;
  fsv : FilesystemVersion
}.

Record fs : Type := mkfs {
  path : string;
  snaps : list snapshot;
  fs_err : option error
}.

(** [fs.Update] *)
Definition Update (f : fs) (e : option error) : fs :=
  mkfs (path f) (snaps f) e.

(** The fields of [args] that are data; [ctx], [target] and [receiver] are
    the environment below. *)
Record args : Type := mkargs {
  rules : list KeepRule;
  retryWait : Z
}.

(** [type Pruner struct].  [mtx] is the lock under which the updater runs
    its function; [sleepUntil] is written nowhere in the package. *)
Record Pruner : Type := mkPruner {
  p_args : args;
  state : State;
  err : option error;
  prunePending : list fs;
  pruneCompleted : list fs
}.

Definition set_state (p : Pruner) (s : State) : Pruner :=
  mkPruner (p_args p) s (err p) (prunePending p) (pruneCompleted p).

Definition set_err (p : Pruner) (e : option error) : Pruner :=
  mkPruner (p_args p) (state p) e (prunePending p) (pruneCompleted p).

Record PrunerFactory : Type := mkPrunerFactory {
  senderRules : list KeepRule;
  receiverRules : list KeepRule;
  f_retryWait : Z
}.

Definition time_Second : Z := 1000000000.

(** The loop [for _, e := range rules] of [checkContainsKeep1] and the
    [return] after it. *)
Fixpoint checkContainsKeep1_range (rules : list KeepRule) : option error :=
  match rules with
  | [] =>
      Some (errors_New "sender keep rules must contain last_n or be empty so that the last snapshot is definitely kept")
  | KeepLastN _ :: _ => None
  | _ :: rest => checkContainsKeep1_range rest
  end.

Definition checkContainsKeep1 (rules : list KeepRule) : option error :=
  if len rules =? 0 then None
  else checkContainsKeep1_range rules.

(** [errors.Wrap(err, msg)] *)
Definition errors_Wrap (e : error) (msg : string) : error :=
  errors_New (msg ++ ": " ++ Error e).

Section Factory.

(** [config.PruningSenderReceiver] and [pruning.RulesFromConfig]. *)
Variable PruningEnum : Type.
Variable RulesFromConfig : list PruningEnum -> list KeepRule + error.

Record PruningSenderReceiver : Type := mkPruningSenderReceiver {
  KeepSender : list PruningEnum;
  KeepReceiver : list PruningEnum
}.

Definition NewPrunerFactory (cfg : PruningSenderReceiver) : PrunerFactory + error :=
  match RulesFromConfig (KeepReceiver cfg) with
  | inr e => inr (errors_Wrap e "cannot build receiver pruning rules")
  | inl keepRulesReceiver =>
      match RulesFromConfig (KeepSender cfg) with
      | inr e => inr (errors_Wrap e "cannot build sender pruning rules")
      | inl keepRulesSender =>
          match checkContainsKeep1 keepRulesSender with
          | Some e => inr e
          | None =>
              inl (mkPrunerFactory keepRulesSender keepRulesReceiver
                                   (10 * time_Second))
          end
      end
  end.

End Factory.

Arguments mkPruningSenderReceiver {PruningEnum}.
Arguments KeepSender {PruningEnum}.
Arguments KeepReceiver {PruningEnum}.
Arguments NewPrunerFactory {PruningEnum}.

Definition BuildSenderPruner (f : PrunerFactory) : Pruner :=
  mkPruner (mkargs (senderRules f) (f_retryWait f)) Plan None [] [].

Definition BuildReceiverPruner (f : PrunerFactory) : Pruner :=
  mkPruner (mkargs (receiverRules f) (f_retryWait f)) Plan None [] [].

Definition shouldRetry (e : option error) : bool :=
  match e with
  | None => true
  | Some e' => implements_net_Error e'
  end.

(** The function that [onErr] runs under the pruner's lock. *)
Definition onErr (e : option error) (p : Pruner) : go Pruner :=
  let p := set_err p e in
  if negb (shouldRetry e) then Ret (set_state p ErrPerm)
  else
    match state p with
    | Plan => Ret (set_state p PlanWait)
    | Exec => Ret (set_state p ExecWait)
    | _ => Panic "p.state"
    end.


(** What [select] in [doWait] sees first: the timer, or the end of the
    context, whose [Err()] is then not nil. *)
Inductive wake : Type :=
| TimerFired
| ContextDone (e : error).

(** The interfaces [Target] and [History], and the context with its timer,
    over a world [E] that the calls may change. *)
Class Target (E : Type) : Type := {
  ListFilesystems : E -> E * (list Filesystem + error);
  ListFilesystemVersions : E -> string -> E * (list FilesystemVersion + error);
  DestroySnapshots : E -> DestroySnapshotsReq -> E * option error
}.

Class History (E : Type) : Type := {
  SnapshotReplicationStatus :
    E -> SnapshotReplicationStatusReq -> E * (SnapshotReplicationStatusRes + error)
}.

Class Context (E : Type) : Type := {
  select_wait : E -> Z -> E * wake
}.

Section Machine.
Context {E : Type} `{Target E} `{History E} `{Context E}.

(** [CreationAsTime] of the wire version, the text of [%s] for a filesystem
    and [RelName], all of package [pdu]; [pruning.PruneSnapshots]. *)
Variable CreationAsTime : FilesystemVersion -> time.Time + error.
Variable Filesystem_String : Filesystem -> string.
Variable RelName : FilesystemVersion -> string.
Variable PruneSnapshots : list snapshot -> list KeepRule -> list snapshot.

(** The snapshot that [statePlan] appends for a version whose status is
    [res]. *)
Definition plan_snapshot (res : SnapshotReplicationStatusRes)
    (creation : time.Time) (tfsv : FilesystemVersion) : snapshot :=
  mksnapshot
    (negb (negb (Status_eqb (Status res) SnapshotReplicationStatusRes_Replicated)))
    creation tfsv.

(** The loop over the versions of one filesystem in [statePlan]: the record
    built, or the error handed to [onErr]. *)
Fixpoint plan_versions (env : E) (tfs : Filesystem)
    (tfsvs : list FilesystemVersion) (pfs : fs) : E * (fs + error) :=
  match tfsvs with
  | [] => (env, inl pfs)
  | tfsv :: rest =>
      if negb (replication.Type_ tfsv =? replication.FilesystemVersion_Snapshot) then
        plan_versions env tfs rest pfs
      else
        match CreationAsTime tfsv with
        | inr e =>
            (env, inr (errors_New (Filesystem_String tfs ++ RelName tfsv
                                   ++ " has invalid creation date: " ++ Error e)))
        | inl creation =>
            let req := mkStatusReq (Path tfs) (replication.Name tfsv)
                                   SnapshotReplicationStatusReq_Get in
            let '(env1, r) := SnapshotReplicationStatus env req in
            match r with
            | inr e =>
                if shouldRetry (Some e) then (env1, inr e)
                else (env1, inl (mkfs (path pfs) [] (Some e)))
            | inl res =>
                plan_versions env1 tfs rest
                  (mkfs (path pfs)
                        (snaps pfs ++ [plan_snapshot res creation tfsv])
                        (fs_err pfs))
            end
        end
  end.

(** The loop over the filesystems. *)
Fixpoint plan_filesystems (env : E) (tfss : list Filesystem)
    : E * (list fs + error) :=
  match tfss with
  | [] => (env, inl [])
  | tfs :: rest =>
      let '(env1, r) := ListFilesystemVersions env (Path tfs) in
      match r with
      | inr e => (env1, inr e)
      | inl tfsvs =>
          let '(env2, r2) := plan_versions env1 tfs tfsvs (mkfs (Path tfs) [] None) in
          match r2 with
          | inr e => (env2, inr e)
          | inl pfs =>
              let '(env3, r3) := plan_filesystems env2 rest in
              match r3 with
              | inr e => (env3, inr e)
              | inl pfss => (env3, inl (pfs :: pfss))
              end
          end
      end
  end.

(** The final update of [statePlan]. *)
Fixpoint plan_commit (pfss : list fs) (p : Pruner) : Pruner :=
  match pfss with
  | [] => set_state p Exec
  | pfs :: rest =>
      plan_commit rest
        (match fs_err pfs with
         | Some _ =>
             mkPruner (p_args p) (state p) (err p) (prunePending p)
                      (pruneCompleted p ++ [pfs])
         | None =>
             mkPruner (p_args p) (state p) (err p) (prunePending p ++ [pfs])
                      (pruneCompleted p)
         end)
  end.

(** Where a plan stands.  [plan_at_filesystem env pre tfs post env2]: the
    plan started in the world [env] has come to the filesystem [tfs] in the
    world [env2]; [ListFilesystems] has answered with [pre ++ tfs :: post]
    and the loop has gone through the filesystems of [pre] without handing
    an error to [onErr]. *)
Definition plan_at_filesystem (env : E) (pre : list Filesystem)
    (tfs : Filesystem) (post : list Filesystem) (env2 : E) : Prop :=
  exists env1 pfss,
    ListFilesystems env = (env1, inl (pre ++ tfs :: post)) /\
    plan_filesystems env1 pre = (env2, inl pfss).

(** [plan_at_version env2 tfs vpre v vpost env4]: at the filesystem [tfs],
    reached in the world [env2], the plan has come to the snapshot [v] in
    the world [env4]; [ListFilesystemVersions] has answered with
    [vpre ++ v :: vpost] and the loop has gone through the versions of
    [vpre] without an error. *)
Definition plan_at_version (env2 : E) (tfs : Filesystem)
    (vpre : list FilesystemVersion) (v : FilesystemVersion)
    (vpost : list FilesystemVersion) (env4 : E) : Prop :=
  exists env3 pfs,
    ListFilesystemVersions env2 (Path tfs) = (env3, inl (vpre ++ v :: vpost)) /\
    plan_versions env3 tfs vpre (mkfs (Path tfs) [] None) = (env4, inl pfs) /\
    fs_err pfs = None /\
    (replication.Type_ v =? replication.FilesystemVersion_Snapshot) = true.

Definition statePlan (a : args) (env : E) (p : Pruner) : go (E * Pruner) :=
  let '(env1, r) := ListFilesystems env in
  match r with
  | inr e => p' <- onErr (Some e) p ;; Ret (env1, p')
  | inl tfss =>
      let '(env2, r2) := plan_filesystems env1 tfss in
      match r2 with
      | inr e => p' <- onErr (Some e) p ;; Ret (env2, p')
      | inl pfss => Ret (env2, plan_commit pfss p)
      end
  end.

Definition stateExec (a : args) (env : E) (p : Pruner) : go (E * Pruner) :=
  match prunePending p with
  | [] => Ret (env, set_state p Done)
  | pfs :: _ =>
      if negb (State_eqb (state p) Exec) then Ret (env, p)
      else
        let destroyListI := PruneSnapshots (snaps pfs) (rules a) in
        let destroyList := map fsv destroyListI in
        let pfs := Update pfs None in
        let req := mkDestroyReq (path pfs) destroyList in
        let '(env1, e) := DestroySnapshots env req in
        let pfs := Update pfs e in
        match e with
        | Some e' =>
            if shouldRetry e then p' <- onErr e p ;; Ret (env1, p')
            else
              Ret (env1, mkPruner (p_args p) (state p) (err p)
                                  (tl (prunePending p)) (pruneCompleted p ++ [pfs]))
        | None =>
            Ret (env1, mkPruner (p_args p) (state p) (err p)
                                (tl (prunePending p)) (pruneCompleted p ++ [pfs]))
        end
  end.

Definition doWait (goback : State) (a : args) (env : E) (p : Pruner)
    : go (E * Pruner) :=
  let '(env1, w) := select_wait env (retryWait a) in
  match w with
  | TimerFired => Ret (env1, set_state p goback)
  | ContextDone e => p' <- onErr (Some e) p ;; Ret (env1, p')
  end.

Definition stateExecWait := doWait Exec.
Definition statePlanWait := doWait Plan.

(** [State.statefunc]: [None] is the nil state function. *)
Definition statefunc (s : State) : option (args -> E -> Pruner -> go (E * Pruner)) :=
  match s with
  | Plan => Some statePlan
  | PlanWait => Some statePlanWait
  | Exec => Some stateExec
  | ExecWait => Some stateExecWait
  | ErrPerm => None
  | Done => None
  end.

(** The loop of [prune].  Every state function returns
    [statefunc] of the state it leaves behind, so the loop runs on
    [state p].  The result carries the transitions that the loop writes to
    the debug log, oldest first. *)
Fixpoint prune (fuel : nat) (a : args) (env : E) (p : Pruner)
    : go (E * Pruner * list (State * State)) :=
  match statefunc (state p) with
  | None => Ret (env, p, [])
  | Some s =>
      match fuel with
      | O => OutOfFuel
      | S fuel' =>
          let pre := state p in
          '(env1, p1) <- s a env p ;;
          let post := state p1 in
          '(env2, p2, log) <- prune fuel' a env1 p1 ;;
          Ret (env2, p2, (pre, post) :: log)
      end
  end.

Definition Prune (fuel : nat) (env : E) (p : Pruner) :=
  prune fuel (p_args p) env p.

End Machine.

(** A world with the filesystem [pool/fs] and its [versions], in which every
    lookup in the history fails with [history_failure] and every
    [DestroySnapshots] with [destroy_failure]; the timer always fires. *)
Record Broken : Type := mkBroken {
  versions : list FilesystemVersion;
  history_failure : error;
  destroy_failure : error
}.

#[export] Instance Broken_Target : Target Broken := {
  ListFilesystems w := (w, inl [mkFilesystem "pool/fs" EmptyString]);
  ListFilesystemVersions w _ := (w, inl (versions w));
  DestroySnapshots w _ := (w, Some (destroy_failure w))
}.

#[export] Instance Broken_History : History Broken := {
  SnapshotReplicationStatus w _ := (w, inr (history_failure w))
}.

#[export] Instance Broken_Context : Context Broken := {
  select_wait w _ := (w, TimerFired)
}.

(** A scripted world on which the examples run.  [ListFilesystems] fails
    with the errors of [list_failures], one per call, before it answers;
    the history knows the status of the snapshots listed in [history] and
    answers Nonexistent for the others; the timer always fires. *)
Record World : Type := mkWorld {
  filesystems : list (Filesystem * list FilesystemVersion);
  history : list (string * string * SnapshotReplicationStatusRes_Status);
  list_failures : list error;
  destroyed : list DestroySnapshotsReq
}.

Fixpoint lookup_versions (l : list (Filesystem * list FilesystemVersion))
    (p : string) : list FilesystemVersion :=
  match l with
  | [] => []
  | (f, vs) :: rest =>
      if String.eqb (Path f) p then vs else lookup_versions rest p
  end.

Fixpoint lookup_status
    (l : list (string * string * SnapshotReplicationStatusRes_Status))
    (f s : string) : SnapshotReplicationStatusRes_Status :=
  match l with
  | [] => SnapshotReplicationStatusRes_Nonexistent
  | (f', s', st) :: rest =>
      if String.eqb f' f && String.eqb s' s then st else lookup_status rest f s
  end.

#[export] Instance World_Target : Target World := {
  ListFilesystems w :=
    match list_failures w with
    | e :: rest =>
        (mkWorld (filesystems w) (history w) rest (destroyed w), inr e)
    | [] => (w, inl (map fst (filesystems w)))
    end;
  ListFilesystemVersions w p := (w, inl (lookup_versions (filesystems w) p));
  DestroySnapshots w req :=
    (mkWorld (filesystems w) (history w) (list_failures w) (destroyed w ++ [req]),
     None)
}.

#[export] Instance World_History : History World := {
  SnapshotReplicationStatus w req :=
    (w, inl (mkStatusRes
               (lookup_status (history w) (req_Filesystem req) (req_Snapshot req))))
}.

#[export] Instance World_Context : Context World := {
  select_wait w _ := (w, TimerFired)
}.

(** On the scripted world a creation time is read with the parser of
    [time], and the policy keeps every snapshot. *)
Definition World_CreationAsTime (v : FilesystemVersion) : time.Time + error :=
  time.Parse_RFC3339 (replication.Creation v).

Definition keep_all (s : list snapshot) (r : list KeepRule) : list snapshot := [].




(** A world with one filesystem that has one snapshot, of which the history
    has no record. *)
Definition snap1 : FilesystemVersion :=
  replication.mkFilesystemVersion replication.FilesystemVersion_Snapshot
    "zrepl_1" 1 1 "2018-08-30T12:00:00Z".

Definition world0 : World :=
  mkWorld [(mkFilesystem "pool/fs" EmptyString, [snap1])] [] [] [].

Definition pruner0 : Pruner :=
  BuildSenderPruner (mkPrunerFactory [KeepLastN 1] [] (10 * time_Second)).

Definition at_name (v : FilesystemVersion) : string :=
  "@" ++ replication.Name v.

(** A world whose first [ListFilesystems] fails with a network timeout; the
    history has the snapshot as replicated. *)
Definition transient : error := net_Error "i/o timeout" true true.

Definition world_flaky : World :=
  mkWorld [(mkFilesystem "pool/fs" EmptyString, [snap1])]
          [("pool/fs"%string, "zrepl_1"%string,
            SnapshotReplicationStatusRes_Replicated)]
          [transient] [].

(** The world and the pruner after the failed plan, and after the run that
    follows. *)
Definition world_waiting : World := mkWorld (filesystems world_flaky)
                                            (history world_flaky) [] [].

Definition pruner_waiting : Pruner :=
  mkPruner (p_args pruner0) PlanWait (Some transient) [] [].

Definition world_done : World :=
  mkWorld (filesystems world_flaky) (history world_flaky) []
          [mkDestroyReq "pool/fs" []].

Definition pruner_done : Pruner :=
  mkPruner (p_args pruner0) Done (Some transient) []
    [mkfs "pool/fs"
       [mksnapshot true (time.mkTime 63671227200 0 0) snap1] None].

(** What identifies a record: its filesystem and the snapshots planned for
    it. *)
Definition record_key (f : fs) : string * list snapshot := (path f, snaps f).

(** The records of a pruner, the completed ones first. *)
Definition records (p : Pruner) : list fs := pruneCompleted p ++ prunePending p.

Definition has_err (f : fs) : bool :=
  match fs_err f with
  | Some _ => true
  | None => false
  end.

(** A context that has ended with [ctx_err]. *)
Record EndedContext : Type := mkEndedContext {
  ctx_err : error
}.

#[export] Instance EndedContext_Context : Context EndedContext := {
  select_wait w _ := (w, ContextDone (ctx_err w))
}.

(** A target without filesystems whose [DestroySnapshots] fails with
    [destroy_error]. *)
Record Faulty : Type := mkFaulty {
  destroy_error : error
}.

#[export] Instance Faulty_Target : Target Faulty := {
  ListFilesystems w := (w, inl []);
  ListFilesystemVersions w _ := (w, inl []);
  DestroySnapshots w _ := (w, Some (destroy_error w))
}.

(** The versions that [statePlan] turns into snapshots. *)
Definition is_snapshot (v : FilesystemVersion) : bool :=
  replication.Type_ v =? replication.FilesystemVersion_Snapshot.

(** The states of the execution phase; [Done] is entered with nothing
    pending. *)
Definition exec_phase (p : Pruner) : Prop :=
  state p = Exec \/ state p = ExecWait \/ state p = ErrPerm \/
  (state p = Done /\ prunePending p = []).

(** A stand-in for [pruning.RulesFromConfig] on which the examples run: an
    entry of the configuration is a rule, or a text that names no rule, at
    which the rules cannot be built. *)
Fixpoint rules_from_entries (l : list (KeepRule + string))
    : list KeepRule + error :=
  match l with
  | [] => inl []
  | inr text :: _ => inr (errors_New ("unknown keep rule: " ++ text))
  | inl r :: rest =>
      match rules_from_entries rest with
      | inl rs => inl (r :: rs)
      | inr e => inr e
      end
  end.

(** The error of a call that is refused for good. *)
Definition denied : error := errors_New "permission denied".

Definition world_broken : Broken := mkBroken [snap1] denied denied.

End pruner.

(** ** logging: outlets from the configuration *)
Module logging.

(** The three formatters; [flags] is the value last given to
    [SetMetadataFlags], 0 for a formatter just made. *)
Inductive FormatterKind : Type :=
| HumanFormatter
| LogfmtFormatter
| JSONFormatter.

Record EntryFormatter : Type := mkFormatter {
  kind : FormatterKind;
  flags : Z
}.

Definition SetMetadataFlags (f : EntryFormatter) (fl : Z) : EntryFormatter :=
  mkFormatter (kind f) fl.

(** An [interface{}] value: a string, or a value of another type, of which
    [%T] prints the name. *)
Inductive Dyn : Type :=
| DString (s : string)
| DOther (type_name : string).

Definition parseLogFormat (i : Dyn) : EntryFormatter + error :=
  match i with
  | DOther type_name =>
      inr (errors_New ("invalid log format: wrong type: " ++ type_name))
  | DString is_ =>
      if String.eqb is_ "human" then inl (mkFormatter HumanFormatter 0)
      else if String.eqb is_ "logfmt" then inl (mkFormatter LogfmtFormatter 0)
      else if String.eqb is_ "json" then inl (mkFormatter JSONFormatter 0)
      else inr (errors_New ("invalid log format: '" ++ is_ ++ "'"))
  end.

(** The configuration of an outlet, of package [config]. *)
Record LoggingOutletCommon : Type := mkCommon {
  Level : string;
  Format : string
}.

Record StdoutLoggingOutlet : Type := mkStdoutConf {
  stdout_common : LoggingOutletCommon;
  Time : bool;
  Color : bool
}.

Record TCPLoggingOutletTLS : Type := mkTLSConf {
  CA : string;
  Cert : string;
  Key : string
}.

Record TCPLoggingOutlet : Type := mkTCPConf {
  tcp_common : LoggingOutletCommon;
  Address : string;
  Net : string;
  tcp_RetryInterval : Z;
  TLS : option TCPLoggingOutletTLS
}.

Record SyslogLoggingOutlet : Type := mkSyslogConf {
  syslog_common : LoggingOutletCommon;
  syslog_RetryInterval : Z
}.

(** [LoggingOutletEnum.Ret], an interface value: one of the three
    configurations, or a value of a type that [parseOutlet] does not know. *)
Inductive LoggingOutletEnum : Type :=
| RetStdout (v : StdoutLoggingOutlet)
| RetTCP (v : TCPLoggingOutlet)
| RetSyslog (v : SyslogLoggingOutlet)
| RetOther.

Section WithEnvironment.

(** Of package [logger]: [ParseLevel] and the level [Warn].  Of this
    package, declared in another file: the metadata flags.  Of the process:
    whether standard output is a terminal.  Of [crypto/tls], [crypto/x509]
    and [tlsconf]: the loading of certificates, with a nil pool as [None]. *)
Variable logger_ParseLevel : string -> Z + error.
Variable logger_Warn : Z.
Variable MetadataAll MetadataNone MetadataTime MetadataColor : Z.
Variable stdout_IsTerminal : bool.
Variable Certificate CertPool TLSConfig : Type.
Variable tls_LoadX509KeyPair : string -> string -> Certificate + error.
Variable x509_SystemCertPool : option CertPool + error.
Variable tlsconf_ParseCAFile : string -> option CertPool + error.
Variable tlsconf_ClientAuthClient :
  string -> CertPool -> Certificate -> option TLSConfig + error.

(** The outlets: [WriterOutlet] on standard output, [*TCPOutlet] as
    [NewTCPOutlet] is called, [*SyslogOutlet]. *)
Inductive Outlet : Type :=
| WriterOutlet (formatter : EntryFormatter)
| TCPOutlet (formatter : EntryFormatter) (net address : string)
            (tlsConfig : option TLSConfig) (retryInterval : Z)
| SyslogOutlet (formatter : EntryFormatter) (retryInterval : Z).

(** The function [parseCommon] inside [parseOutlet]. *)
Definition parseCommon (common : LoggingOutletCommon)
    : Z * option EntryFormatter * option error :=
  if String.eqb (Level common) EmptyString || String.eqb (Format common) EmptyString
  then (0, None, Some (errors_New "must specify 'level' and 'format' field"))
  else
    match logger_ParseLevel (Level common) with
    | inr e => (0, None, Some (pruner.errors_Wrap e "cannot parse 'level' field"))
    | inl minLevel =>
        match parseLogFormat (DString (Format common)) with
        | inr e => (0, None, Some (pruner.errors_Wrap e "cannot parse 'formatter' field"))
        | inl formatter => (minLevel, Some formatter, None)
        end
    end.

Definition parseStdoutOutlet (v : StdoutLoggingOutlet) (formatter : EntryFormatter)
    : Outlet * option error :=
  let flags := MetadataAll in
  let flags :=
    if negb stdout_IsTerminal && negb (Time v)
    then Z.land flags (Z.lnot MetadataTime) else flags in
  let flags :=
    if stdout_IsTerminal && negb (Color v)
    then Z.land flags (Z.lnot MetadataColor) else flags in
  (WriterOutlet (SetMetadataFlags formatter flags), None).

(** The function literal in [parseTCPOutlet] that builds the TLS
    configuration. *)
Definition tcp_tls_config (m : TCPLoggingOutletTLS) (host : string)
    : go (option TLSConfig + error) :=
  match tls_LoadX509KeyPair (Cert m) (Key m) with
  | inr e => Ret (inr (pruner.errors_Wrap e "cannot load client cert"))
  | inl clientCert =>
      let rootCAs :=
        if String.eqb (CA m) EmptyString then
          match x509_SystemCertPool with
          | inr e => inr (pruner.errors_Wrap e "cannot open system cert pool")
          | inl pool => inl pool
          end
        else
          match tlsconf_ParseCAFile (CA m) with
          | inr e => inr (pruner.errors_Wrap e "cannot parse CA cert")
          | inl pool => inl pool
          end in
      match rootCAs with
      | inr e => Ret (inr e)
      | inl None => Panic "invariant violated"
      | inl (Some pool) => Ret (tlsconf_ClientAuthClient host pool clientCert)
      end
  end.

Definition parseTCPOutlet (v : TCPLoggingOutlet) (formatter : EntryFormatter)
    : go (option Outlet * option error) :=
  r <- match TLS v with
       | None => Ret (inl None)
       | Some m => tcp_tls_config m (Address v)
       end ;;
  match r with
  | inr _ =>
      Ret (None, Some (errors_New "cannot not parse TLS config in field 'tls'"))
  | inl tlsConfig =>
      Ret (Some (TCPOutlet (SetMetadataFlags formatter MetadataAll) (Net v)
                           (Address v) tlsConfig (tcp_RetryInterval v)),
           None)
  end.

Definition parseSyslogOutlet (v : SyslogLoggingOutlet) (formatter : EntryFormatter)
    : Outlet * option error :=
  (SyslogOutlet (SetMetadataFlags formatter MetadataNone) (syslog_RetryInterval v),
   None).

(** [parseOutlet]: the outlet ([None] when there is none), the level and
    the error. *)
Definition parseOutlet (le : LoggingOutletEnum)
    : go (option Outlet * Z * option error) :=
  match le with
  | RetStdout v =>
      match parseCommon (stdout_common v) with
      | (level, Some f, None) =>
          let '(o, e) := parseStdoutOutlet v f in Ret (Some o, level, e)
      | (level, _, e) => Ret (None, level, e)
      end
  | RetTCP v =>
      match parseCommon (tcp_common v) with
      | (level, Some f, None) =>
          '(o, e) <- parseTCPOutlet v f ;; Ret (o, level, e)
      | (level, _, e) => Ret (None, level, e)
      end
  | RetSyslog v =>
      match parseCommon (syslog_common v) with
      | (level, Some f, None) =>
          let '(o, e) := parseSyslogOutlet v f in Ret (Some o, level, e)
      | (level, _, e) => Ret (None, level, e)
      end
  | RetOther => Panic "v"
  end.

(** [*logger.Outlets]: the values given to [Add], an outlet ([None] for a
    nil interface) with its level. *)
Definition Outlets : Type := list (option Outlet * Z).

(** The loop of [OutletsFromConfig]: [lei] is the index, [sys] and [std]
    count the outlets of the two kinds that may occur once. *)
Fixpoint outlets_range (in_ : list LoggingOutletEnum) (lei : Z)
    (syslogOutlets stdoutOutlets : Z) (outlets : Outlets)
    : go (Z * Z * Outlets + error) :=
  match in_ with
  | [] => Ret (inl (syslogOutlets, stdoutOutlets, outlets))
  | le :: rest =>
      '(o, minLevel, e) <- parseOutlet le ;;
      match e with
      | Some e' =>
          Ret (inr (pruner.errors_Wrap e' ("cannot parse outlet #" ++ stream.fmt_v lei)))
      | None =>
          let syslogOutlets :=
            match o with
            | Some (SyslogOutlet _ _) => syslogOutlets + 1
            | _ => syslogOutlets
            end in
          let stdoutOutlets :=
            match o with
            | Some (WriterOutlet _) => stdoutOutlets + 1
            | _ => stdoutOutlets
            end in
          outlets_range rest (lei + 1) syslogOutlets stdoutOutlets
                        (outlets ++ [(o, minLevel)])
      end
  end.

Definition OutletsFromConfig (in_ : list LoggingOutletEnum) : go (Outlets + error) :=
  if len in_ =? 0 then
    Ret (inl [(Some (WriterOutlet (mkFormatter HumanFormatter 0)), logger_Warn)])
  else
    r <- outlets_range in_ 0 0 0 [] ;;
    match r with
    | inr e => Ret (inr e)
    | inl (syslogOutlets, stdoutOutlets, outlets) =>
        if syslogOutlets >? 1 then
          Ret (inr (errors_New "can only define one 'syslog' outlet"))
        else if stdoutOutlets >? 1 then
          Ret (inr (errors_New "can only define one 'stdout' outlet"))
        else Ret (inl outlets)
    end.

(** How many of the values added are syslog outlets, and how many write to
    standard output. *)
Definition is_syslog (ol : option Outlet * Z) : bool :=
  match fst ol with
  | Some (SyslogOutlet _ _) => true
  | _ => false
  end.

Definition is_stdout (ol : option Outlet * Z) : bool :=
  match fst ol with
  | Some (WriterOutlet _) => true
  | _ => false
  end.

Definition count (f : option Outlet * Z -> bool) (l : Outlets) : Z :=
  len (filter f l).

(** An entry of the configuration parses to the value [ol] without error. *)
Definition parses_to (le : LoggingOutletEnum) (ol : option Outlet * Z) : Prop :=
  parseOutlet le = Ret (fst ol, snd ol, None).

End WithEnvironment.

(** The common part of a configuration of a known type. *)
Definition common_of (le : LoggingOutletEnum) : option LoggingOutletCommon :=
  match le with
  | RetStdout v => Some (stdout_common v)
  | RetTCP v => Some (tcp_common v)
  | RetSyslog v => Some (syslog_common v)
  | RetOther => None
  end.

(** An environment on which the examples run: two levels, a terminal on
    standard output, no certificates. *)
Definition two_levels (s : string) : Z + error :=
  if String.eqb s "warn" then inl 2
  else if String.eqb s "debug" then inl 0
  else inr (errors_New ("unknown level: " ++ s)).

End logging.

(** * Properties *)

(** ** base2bufpool *)
Module base2bufpool_facts.
Import base2bufpool.

Lemma shiftl_1_pow (s : Z) : 0 <= s -> Z.shiftl 1 s = 2 ^ s.
Proof. intros Hs. rewrite Z.shiftl_mul_pow2 by assumption. lia. Qed.

Lemma shl1_uint_small (s : Z) : 0 <= s < 64 -> shl1_uint s = 2 ^ s.
Proof.
  intros Hs. unfold shl1_uint, wrap_uint. rewrite shiftl_1_pow by lia.
  apply Z.mod_small. split; [apply Z.pow_nonneg; lia|].
  apply Z.pow_lt_mono_r; lia.
Qed.

Lemma shl1_int_small (s : Z) : 0 <= s < 63 -> shl1_int s = 2 ^ s.
Proof.
  intros Hs. unfold shl1_int, wrap_int. rewrite shiftl_1_pow by lia.
  assert (0 < 2 ^ s) by (apply Z.pow_pos_nonneg; lia).
  assert (2 ^ s < 2 ^ 63) by (apply Z.pow_lt_mono_r; lia).
  rewrite Z.mod_small; lia.
Qed.

(** [fittingShift] on the sizes up to [2^t]: a shift [s] of at most [t]
    with [x <= 2^s]. *)
Lemma fittingShift_upto (x t : Z) :
  2 <= x <= 2 ^ t -> 0 <= t <= 62 ->
  1 <= fittingShift x <= t /\ x <= 2 ^ fittingShift x.
Proof.
  intros Hx Ht. unfold fittingShift, bits_Len.
  destruct (Z.eqb_spec x 0) as [->|Hnz]; [lia|].
  destruct (Z.log2_spec x ltac:(lia)) as [Hlo Hhi].
  assert (Hl1 : 1 <= Z.log2 x).
  { apply Z.log2_le_pow2; [lia|]. simpl. lia. }
  assert (Hlt : Z.log2 x <= t).
  { rewrite <- (Z.log2_pow2 t) by lia. apply Z.log2_le_mono. lia. }
  replace (Z.log2 x + 1 - 1) with (Z.log2 x) by lia.
  rewrite shl1_uint_small by lia.
  destruct (Z.eqb_spec (2 ^ Z.log2 x) x) as [Heq|Hne].
  - split; [lia|]. lia.
  - replace (Z.succ (Z.log2 x)) with (Z.log2 x + 1) in Hhi by lia.
    split; [|lia].
    split; [lia|].
    destruct (Z.le_gt_cases (Z.log2 x + 1) t) as [|Hgt]; [assumption|].
    assert (Z.log2 x = t) by lia.
    assert (2 ^ t <= x) by (replace t with (Z.log2 x) by lia; exact Hlo).
    exfalso. apply Hne. replace (Z.log2 x) with t by lia. lia.
Qed.

(** [fittingShift] on the sizes that fit a Go [int]. *)
Lemma fittingShift_spec (x : Z) :
  2 <= x <= 2 ^ 62 ->
  1 <= fittingShift x <= 62 /\ x <= 2 ^ fittingShift x.
Proof. intros Hx. apply fittingShift_upto; lia. Qed.

(** The round-trip laws of the shift. *)
Lemma fittingShift_pow2 (k : Z) : 0 <= k < 64 -> fittingShift (2 ^ k) = k.
Proof.
  intros Hk. unfold fittingShift, bits_Len.
  assert (0 < 2 ^ k) by (apply Z.pow_pos_nonneg; lia).
  destruct (Z.eqb_spec (2 ^ k) 0); [lia|].
  rewrite Z.log2_pow2 by lia.
  replace (k + 1 - 1) with k by lia.
  rewrite shl1_uint_small by lia. rewrite Z.eqb_refl. reflexivity.
Qed.

(** An allocation that returns has the length asked for, and up to
    [maxAlloc] bytes it returns. *)
Lemma make_bytes_ret (n : Z) (b : list byte) :
  make_bytes n = Ret b -> len b = n.
Proof.
  unfold make_bytes. destruct (Z.ltb_spec n 0); cbn [orb]; [discriminate|].
  destruct (n >? maxAlloc); [discriminate|].
  intros Hb. injection Hb as <-. unfold len. rewrite repeat_length. lia.
Qed.

Lemma make_bytes_len (n : Z) :
  0 <= n <= maxAlloc -> exists b, make_bytes n = Ret b /\ len b = n.
Proof.
  intros Hn. unfold make_bytes.
  destruct (Z.ltb_spec n 0); [lia|].
  destruct (Z.gtb_spec n maxAlloc); [lia|]. cbn [orb].
  eexists; split; [reflexivity|]. unfold len. rewrite repeat_length. lia.
Qed.

Lemma make_bytes_over (n : Z) :
  maxAlloc < n -> make_bytes n = Panic "makeslice: len out of range".
Proof.
  intros Hn. unfold make_bytes.
  destruct (Z.gtb_spec n maxAlloc); [|lia]. rewrite orb_true_r. reflexivity.
Qed.

Lemma pow2_le_maxAlloc (s : Z) : 0 <= s <= 48 -> 0 <= 2 ^ s <= maxAlloc.
Proof.
  intros Hs. split; [apply Z.pow_nonneg; lia|].
  unfold maxAlloc. apply Z.pow_le_mono_r; lia.
Qed.

Lemma last_Forall {A : Type} (P : A -> Prop) (l : list A) (d : A) :
  l <> [] -> Forall P l -> P (last l d).
Proof.
  intros Hne Hall. destruct (exists_last Hne) as [l' [a ->]].
  rewrite last_last. apply Forall_app in Hall. destruct Hall as [_ Ha].
  inversion Ha; assumption.
Qed.

(** The buffer that a well-formed sub-pool hands out has the sub-pool's
    size; the sub-pool hands one out when it stores one, and when the size
    is within the bound of an allocation. *)
Lemma pool_Get_len (sub sub' : pool) (b : list byte) :
  pool_wf sub -> 0 <= shift sub <= 62 ->
  pool_Get sub = Ret (sub', b) -> len b = 2 ^ shift sub.
Proof.
  intros Hwf Hs. unfold pool_Get.
  destruct (Z.gtb_spec (len (bufs sub)) 0) as [Hpos|Hz].
  - intros Hg. injection Hg as _ <-.
    rewrite <- shl1_int_small by lia.
    apply (last_Forall (fun b => len b = shl1_int (shift sub))); [|exact Hwf].
    intros Hnil. rewrite Hnil in Hpos. unfold len in Hpos. simpl in Hpos. lia.
  - destruct (make_bytes (shl1_int (shift sub))) as [buf| |] eqn:Hmake;
      cbn [bind]; intros Hg; try discriminate.
    injection Hg as _ <-. rewrite (make_bytes_ret _ _ Hmake).
    apply shl1_int_small. lia.
Qed.

Lemma pool_Get_returns (sub : pool) :
  0 <= shift sub <= 48 \/ bufs sub <> [] ->
  exists sub' b, pool_Get sub = Ret (sub', b).
Proof.
  intros Hs. unfold pool_Get.
  destruct (Z.gtb_spec (len (bufs sub)) 0) as [Hpos|Hz]; [eauto|].
  destruct Hs as [Hs|Hne].
  - rewrite shl1_int_small by lia.
    destruct (make_bytes_len (2 ^ shift sub) (pow2_le_maxAlloc _ Hs))
      as [b [Hb _]].
    rewrite Hb. cbn [bind]. eauto.
  - destruct (bufs sub); [contradiction|]. unfold len in Hz.
    cbn [List.length] in Hz. lia.
Qed.

Lemma Bytes_len (b : Buffer) :
  0 <= payloadLen b <= len (shiftBuf b) ->
  exists bs, Bytes b = Ret bs /\ len bs = payloadLen b.
Proof.
  intros Hp. unfold Bytes.
  destruct (Z.gtb_spec (payloadLen b) (len (shiftBuf b))); [lia|].
  eexists; split; [reflexivity|].
  unfold len in *. rewrite length_firstn. lia.
Qed.

(** For every size but 1 that fits a Go [int], a buffer that [Get] hands
    out has a payload view of exactly that size. *)
Lemma Get_view (p p' : Pool) (n : Z) (b : Buffer) :
  Pool_wf p -> n = 0 \/ 2 <= n <= 2 ^ 62 ->
  Get p n = Ret (p', b) ->
  payloadLen b = n /\ exists bs, Bytes b = Ret bs /\ len bs = n.
Proof.
  intros (Hmin & Hle & Hmax & Hlen & Hsub) [->|Hn].
  - intros Hg. injection Hg as _ <-. split; [reflexivity|]. exists [].
    split; reflexivity.
  - destruct (fittingShift_spec n Hn) as [Hs Hpow].
    unfold Get.
    destruct (Z.eqb_spec (fittingShift n) 0); [lia|].
    destruct ((fittingShift n <? minShift p) || (fittingShift n >? maxShift p)) eqn:Hout.
    + destruct (make_bytes (shl1_int (fittingShift n))) as [buf| |] eqn:Hmake;
        cbn [bind]; intros Hg; try discriminate.
      injection Hg as _ <-. apply make_bytes_ret in Hmake.
      rewrite shl1_int_small in Hmake by lia.
      split; [reflexivity|]. apply (Bytes_len (mkBuffer buf n None)).
      cbn [payloadLen shiftBuf]. lia.
    + apply orb_false_iff in Hout. destruct Hout as [H1 H2].
      apply Z.ltb_ge in H1. rewrite Z.gtb_ltb in H2. apply Z.ltb_ge in H2.
      destruct (nth_error (pools p) (Z.to_nat (fittingShift n - minShift p)))
        as [sub|] eqn:Hnth; [|discriminate].
      destruct (Hsub _ _ Hnth) as [Hshift Hwf].
      rewrite Z2Nat.id in Hshift by lia.
      destruct (pool_Get sub) as [[sub' buf]| |] eqn:Hget; cbn [bind];
        intros Hg; try discriminate.
      injection Hg as _ <-.
      apply (pool_Get_len sub sub' buf Hwf) in Hget; [|lia].
      replace (shift sub) with (fittingShift n) in Hget by lia.
      split; [reflexivity|]. apply (Bytes_len (mkBuffer buf n (Some (addr p)))).
      cbn [payloadLen shiftBuf]. lia.
Qed.

(** Up to the bound of an allocation, [Get] hands out a buffer. *)
Lemma Get_returns (p : Pool) (n : Z) :
  Pool_wf p -> n = 0 \/ 2 <= n <= 2 ^ 48 ->
  exists p' b, Get p n = Ret (p', b).
Proof.
  intros (Hmin & Hle & Hmax & Hlen & Hsub) [->|Hn]; [cbn; eauto|].
  destruct (fittingShift_upto n 48 Hn ltac:(lia)) as [Hs Hpow].
  unfold Get.
  destruct (Z.eqb_spec (fittingShift n) 0); [lia|].
  destruct ((fittingShift n <? minShift p) || (fittingShift n >? maxShift p)) eqn:Hout.
  - rewrite shl1_int_small by lia.
    destruct (make_bytes_len (2 ^ fittingShift n)) as [b [Hb _]];
      [apply pow2_le_maxAlloc; lia|].
    rewrite Hb. cbn [bind]. eauto.
  - apply orb_false_iff in Hout. destruct Hout as [H1 H2].
    apply Z.ltb_ge in H1. rewrite Z.gtb_ltb in H2. apply Z.ltb_ge in H2.
    destruct (nth_error (pools p) (Z.to_nat (fittingShift n - minShift p)))
      as [sub|] eqn:Hnth.
    + destruct (Hsub _ _ Hnth) as [Hshift Hwf].
      rewrite Z2Nat.id in Hshift by lia.
      destruct (pool_Get_returns sub) as (sub' & b & Hget); [left; lia|].
      rewrite Hget. cbn [bind]. eauto.
    + apply nth_error_None in Hnth. unfold len in Hlen. lia.
Qed.

(** For every size but 1 up to the bound of an allocation, [Get] hands out
    a buffer whose payload view has exactly that size. *)
Lemma Get_Bytes_len (p : Pool) (n : Z) :
  Pool_wf p -> n = 0 \/ 2 <= n <= 2 ^ 48 ->
  exists p' b bs,
    Get p n = Ret (p', b) /\ payloadLen b = n /\ Bytes b = Ret bs /\ len bs = n.
Proof.
  intros Hwf Hn.
  destruct (Get_returns p n Hwf Hn) as (p' & b & Hget).
  destruct (Get_view p p' n b Hwf) as (Hpl & bs & Hbs & Hlen); [|exact Hget|].
  - destruct Hn as [->|Hn]; [left; reflexivity|right].
    split; [lia|]. apply Z.le_trans with (2 ^ 48); [lia|].
    apply Z.pow_le_mono_r; lia.
  - exists p', b, bs. repeat split; assumption.
Qed.

(** [New] builds a well-formed pool. *)
Lemma New_wf (a : nat) (lo hi : Z) :
  0 <= lo -> lo <= hi -> hi <= 62 -> Pool_wf (New a lo hi).
Proof.
  intros H0 H1 H2. unfold Pool_wf, New. simpl.
  assert (Hw : wrap_uint (hi - lo + 1) = hi - lo + 1).
  { unfold wrap_uint. apply Z.mod_small. split; [lia|].
    apply Z.le_lt_trans with 63; [lia|]. reflexivity. }
  rewrite Hw.
  split; [lia|]. split; [lia|]. split; [lia|]. split.
  - unfold len. rewrite length_map, length_seq. lia.
  - intros i sub Hnth. rewrite nth_error_map in Hnth.
    destruct (nth_error (seq 0 (Z.to_nat (hi - lo + 1))) i) as [j|] eqn:Hj;
      [|discriminate].
    simpl in Hnth. injection Hnth as <-. simpl.
    assert (Hi : (i < Z.to_nat (hi - lo + 1))%nat).
    { rewrite <- (length_seq (Z.to_nat (hi - lo + 1)) 0).
      apply nth_error_Some. congruence. }
    assert (Hji : j = i).
    { apply nth_error_nth with (d := 0%nat) in Hj.
      rewrite seq_nth in Hj by exact Hi. simpl in Hj. congruence. }
    subst j. split; [|constructor].
    unfold wrap_uint. apply Z.mod_small. split; [lia|].
    apply Z.le_lt_trans with 63; [lia|]. reflexivity.
Qed.

(** The buffer that [WriteStream] reads into: [Get(1 << 19)] on a pool
    built by [New(19, 19)] has a payload view of [stream.bufferLen] bytes. *)
Lemma Get_stream_buffer (a : nat) :
  exists p' b bs,
    Get (New a 19 19) (shl1_int 19) = Ret (p', b) /\ Bytes b = Ret bs /\
    List.length bs = stream.bufferLen.
Proof.
  destruct (Get_Bytes_len (New a 19 19) (shl1_int 19)) as (p' & b & bs & Hg & _ & Hb & Hl).
  - apply New_wf; lia.
  - right. rewrite shl1_int_small by lia. split.
    + apply Z.le_trans with (2 ^ 1); [simpl; lia|]. apply Z.pow_le_mono_r; lia.
    + apply Z.pow_le_mono_r; lia.
  - exists p', b, bs. repeat split; try assumption.
    unfold stream.bufferLen. rewrite <- Hl. unfold len. rewrite Nat2Z.id.
    reflexivity.
Qed.

(** C3 (the code at the failing input).  [Get(1)] computes shift 0 and takes
    the branch meant for size 0: whatever the pool, the buffer it returns has
    [payloadLen = 0] and an empty payload view, not a view of 1 byte. *)
Theorem Get_one_returns_empty_buffer (p : Pool) :
  exists b,
    Get p 1 = Ret (p, b) /\ payloadLen b = 0 /\ Bytes b = Ret [] /\
    payloadLen b <> 1.
Proof.
  exists (mkBuffer [] 0 None). repeat split. simpl. lia.
Qed.

(** A sub-pool never holds more than 11 buffers once it holds at most 11. *)
Lemma pool_Put_bound (p p' : pool) (buf : list byte) :
  pool_Put p buf = Ret p' -> len (bufs p) <= 11 -> len (bufs p') <= 11.
Proof.
  unfold pool_Put. intros Hput Hb.
  destruct (negb (len buf =? shl1_int (shift p))); [discriminate|].
  destruct (Z.gtb_spec (len (bufs p)) 10).
  - injection Hput as <-. exact Hb.
  - injection Hput as <-. simpl. unfold len in *. rewrite length_app. simpl. lia.
Qed.

Lemma pool_Get_bound (p p' : pool) (b : list byte) :
  pool_Get p = Ret (p', b) -> len (bufs p) <= 11 -> len (bufs p') <= 11.
Proof.
  unfold pool_Get. intros Hget Hb.
  destruct (len (bufs p) >? 0).
  - injection Hget as <- _. simpl. unfold len in *.
    destruct (bufs p) as [|x l]; [simpl; lia|].
    rewrite removelast_firstn_len, length_firstn. lia.
  - destruct (make_bytes (shl1_int (shift p))); simpl in Hget; try discriminate.
    injection Hget as <- _. exact Hb.
Qed.

Lemma pool_run_bound (ops : list pool_op) (p p' : pool) :
  pool_run p ops = Ret p' -> len (bufs p) <= 11 -> len (bufs p') <= 11.
Proof.
  revert p. induction ops as [|op ops IH]; intros p Hrun Hb; simpl in Hrun.
  - injection Hrun as <-. exact Hb.
  - destruct op as [buf|].
    + destruct (pool_Put p buf) as [p1| |] eqn:Hput; simpl in Hrun; try discriminate.
      apply (IH p1 Hrun). eapply pool_Put_bound; eassumption.
    + destruct (pool_Get p) as [[p1 b]| |] eqn:Hget; simpl in Hrun; try discriminate.
      apply (IH p1 Hrun). eapply pool_Get_bound; eassumption.
Qed.

(** C4 (the code at the failing input).  [Put] drops a buffer only when the
    sub-pool already holds more than 10: eleven buffers of the right size
    put into an empty sub-pool are all stored, and eleven buffers obtained
    from a pool and freed leave 11 buffers in its sub-pool. *)
Theorem Put_stores_eleventh_buffer :
  (p' <- pool_run (mkpool [] 2) (repeat (OpPut [x00; x00; x00; x00]) 11) ;;
   Ret (len (bufs p'))) = Ret 11
  /\
  ('(p1, bs) <- get_many (New 0 2 2) 11 4 ;;
   p2 <- free_all p1 bs ;;
   Ret (map (fun sub => (shift sub, len (bufs sub))) (pools p2))) = Ret [(2, 11)].
Proof.
  split; vm_compute; reflexivity.
Qed.

End base2bufpool_facts.

(** ** stream *)
Module stream_facts.
Import stream.

Lemma bufferLen_pos : (0 < bufferLen)%nat.
Proof.
  unfold bufferLen. rewrite base2bufpool_facts.shl1_int_small by lia.
  change 0%nat with (Z.to_nat 0). apply Z2Nat.inj_lt; lia.
Qed.

Lemma bufferLen_Z : Z.of_nat bufferLen = 524288.
Proof.
  unfold bufferLen. rewrite base2bufpool_facts.shl1_int_small by lia.
  rewrite Z2Nat.id by lia. reflexivity.
Qed.

(** From here on the buffer length is known through the two lemmas above. *)
#[local] Opaque bufferLen.

Lemma SourceEOF_value : SourceEOF = 4294967295.
Proof. reflexivity. Qed.

Lemma SourceErr_value : SourceErr = 4294967294.
Proof. reflexivity. Qed.

Lemma ReadFull_full (r : Reader) :
  (bufferLen <= List.length (pending r))%nat ->
  io_ReadFull r bufferLen =
    (mkReader (skipn bufferLen (pending r)) (final r),
     (firstn bufferLen (pending r), None)).
Proof.
  intros Hle. unfold io_ReadFull.
  destruct (Nat.leb_spec bufferLen (List.length (pending r))); [reflexivity|lia].
Qed.

Lemma ReadFull_short (r : Reader) :
  (List.length (pending r) < bufferLen)%nat ->
  exists e,
    io_ReadFull r bufferLen = (mkReader [] (final r), (pending r, Some e)) /\
    match e with io_ErrUnexpectedEOF => io_EOF | _ => e end = normalized (final r).
Proof.
  intros Hlt. unfold io_ReadFull.
  destruct (Nat.leb_spec bufferLen (List.length (pending r))); [lia|].
  eexists. split; [reflexivity|].
  destruct (final r), (pending r); reflexivity.
Qed.

(** The producer ends, and sends full buffers followed by one short read
    that carries the error. *)
Lemma producer_ok (fuel : nat) :
  forall r : Reader,
    (List.length (pending r) < fuel)%nat ->
    exists full lastb,
      producer fuel r =
        Ret (full_reads full ++ [mkread lastb (Some (normalized (final r)))]) /\
      List.concat full ++ lastb = pending r /\
      hd lastb full = firstn bufferLen (pending r).
Proof.
  induction fuel as [|fuel IH]; intros r Hlen; [lia|].
  cbn [producer].
  destruct (Nat.le_gt_cases bufferLen (List.length (pending r))) as [Hfull|Hshort].
  - rewrite (ReadFull_full r Hfull).
    destruct (IH (mkReader (skipn bufferLen (pending r)) (final r)))
      as (full & lastb & Hprod & Hcat & _).
    { cbn [pending]. rewrite length_skipn. pose proof bufferLen_pos. lia. }
    rewrite Hprod. cbn [bind final].
    exists (firstn bufferLen (pending r) :: full), lastb.
    split; [reflexivity|]. split; [|reflexivity].
    cbn [List.concat pending] in *. rewrite <- app_assoc, Hcat.
    apply firstn_skipn.
  - destruct (ReadFull_short r Hshort) as (e & Hread & Hnorm).
    rewrite Hread.
    exists [], (pending r). split.
    + rewrite <- Hnorm. destruct e; reflexivity.
    + split; [reflexivity|]. cbn [hd].
      symmetry. apply firstn_all2. lia.
Qed.

Lemma length_concat_full (full : list (list byte)) :
  Forall (fun b => List.length b = bufferLen) full ->
  List.length (List.concat full) = (List.length full * bufferLen)%nat.
Proof.
  induction 1 as [|b full Hb _ IH]; [reflexivity|].
  cbn [List.concat List.length]. rewrite length_app, IH, Hb. lia.
Qed.

(** The reads of the producer, with their sizes: full buffers, then one
    short read with the error. *)
Lemma producer_layout (fuel : nat) :
  forall r : Reader,
    (List.length (pending r) < fuel)%nat ->
    exists full lastb,
      producer fuel r =
        Ret (full_reads full ++ [mkread lastb (Some (normalized (final r)))]) /\
      List.concat full ++ lastb = pending r /\
      Forall (fun b => List.length b = bufferLen) full /\
      (List.length lastb < bufferLen)%nat /\
      hd lastb full = firstn bufferLen (pending r).
Proof.
  induction fuel as [|fuel IH]; intros r Hlen; [lia|].
  cbn [producer].
  destruct (Nat.le_gt_cases bufferLen (List.length (pending r))) as [Hfull|Hshort].
  - rewrite (ReadFull_full r Hfull).
    destruct (IH (mkReader (skipn bufferLen (pending r)) (final r)))
      as (full & lastb & Hprod & Hcat & Hall & Hlast & _).
    { cbn [pending]. rewrite length_skipn. pose proof bufferLen_pos. lia. }
    rewrite Hprod. cbn [bind final].
    exists (firstn bufferLen (pending r) :: full), lastb.
    split; [reflexivity|]. split; [|split; [|split; [exact Hlast|reflexivity]]].
    + cbn [List.concat pending] in *. rewrite <- app_assoc, Hcat.
      apply firstn_skipn.
    + constructor; [|exact Hall]. rewrite length_firstn. lia.
  - destruct (ReadFull_short r Hshort) as (e & Hread & Hnorm).
    rewrite Hread.
    exists [], (pending r). split.
    + rewrite <- Hnorm. destruct e; reflexivity.
    + split; [reflexivity|]. split; [constructor|]. split; [exact Hshort|].
      cbn [hd]. symmetry. apply firstn_all2. lia.
Qed.

Section OnPipe.

Variable recur : Pipe -> Reader -> Z -> go (Pipe * option error).

Lemma consumer_full (stype : Z) (chunks : list (list byte)) :
  forall (c : Pipe) (rest : list read),
    consumer recur c (full_reads chunks ++ rest) stype =
    consumer recur (c ++ map (mkFrame stype) chunks) rest stype.
Proof.
  induction chunks as [|b chunks IH]; intros c rest.
  - cbn [full_reads map app]. rewrite app_nil_r. reflexivity.
  - cbn [full_reads map app consumer err buf is_source_error WriteFrame
         Pipe_FrameConn].
    fold (full_reads chunks). rewrite IH. rewrite <- app_assoc. reflexivity.
Qed.

Lemma consumer_EOF (stype : Z) (c : Pipe) (b : list byte) :
  consumer recur c [mkread b (Some io_EOF)] stype =
  Ret (c ++ [mkFrame stype b; mkFrame SourceEOF []], None).
Proof.
  cbn [consumer err buf is_source_error WriteFrame Pipe_FrameConn].
  rewrite <- app_assoc. reflexivity.
Qed.

End OnPipe.

(** On a reliable connection, a source that ends cleanly is written as its
    chunks, in frames of type [stype], and one empty [SourceEOF] frame. *)
Lemma WriteStream_clean (depth : nat) (c : Pipe) (r : Reader) (stype : Z) :
  stype <> 0 -> normalized (final r) = io_EOF ->
  exists chunks first,
    WriteStream (S depth) c r stype =
      Ret (c ++ map (mkFrame stype) (first :: chunks) ++ [mkFrame SourceEOF []],
           None) /\
    List.concat (first :: chunks) = pending r /\
    first = firstn bufferLen (pending r).
Proof.
  intros Hst Hfin. cbn [WriteStream].
  destruct (Z.eqb_spec stype 0); [contradiction|].
  destruct (producer_ok (S (List.length (pending r))) r) as
    (full & lastb & Hprod & Hcat & Hhd); [lia|].
  rewrite Hprod, Hfin. cbn [bind].
  rewrite consumer_full, consumer_EOF.
  destruct full as [|b full].
  - exists [], lastb. cbn [hd List.concat app map full_reads] in *.
    rewrite !app_nil_r. split; [reflexivity|]. split; [exact Hcat|exact Hhd].
  - exists (full ++ [lastb]), b. cbn [hd] in Hhd.
    split; [|split; [|exact Hhd]].
    + rewrite <- app_assoc. cbn [map app]. rewrite map_app. cbn [map].
      rewrite <- app_assoc. reflexivity.
    + cbn [List.concat] in *. rewrite concat_app. cbn [List.concat].
      rewrite app_nil_r. rewrite <- app_assoc in Hcat. exact Hcat.
Qed.

(** A frame of a user type does not stop the reader task. *)
Lemma closes_user_type (stype : Z) (b : list byte) :
  stype <> SourceEOF -> stype <> SourceErr -> closes (mkFrame stype b) = false.
Proof.
  intros HnE HnR. unfold closes. cbn [Header_Type].
  destruct (Z.eqb_spec stype SourceEOF); [contradiction|].
  destruct (Z.eqb_spec stype SourceErr); [contradiction|reflexivity].
Qed.

(** On a reliable connection the reader task takes at most [n] of the
    frames that wait. *)
Lemma reader_task_Pipe (n : nat) :
  forall c : Pipe,
    exists taken : list Frame,
      c = taken ++ reader_task n c /\ (List.length taken <= n)%nat.
Proof.
  induction n as [|n IH]; intros c; [exists []; split; [reflexivity|cbn; lia]|].
  destruct c as [|f c]; [exists []; split; [reflexivity|cbn; lia]|].
  cbn [reader_task ReadFrame Pipe_FrameConn].
  destruct (closes f).
  - exists [f]. split; [reflexivity|cbn; lia].
  - destruct (IH c) as (taken & Hc & Hlen). exists (f :: taken).
    split; [cbn [app]; rewrite <- Hc; reflexivity|cbn [List.length]; lia].
Qed.

Section Receive.

Variable strconv_Quote : string -> string.
Variable ahead : nat.

(** The receiving loop takes the frames of type [stype] and stops at the
    first frame of another type. *)
Lemma ReadStream_data (stype : Z) (f : Frame) (rest : Pipe)
    (chunks : list (list byte)) :
  stype <> SourceEOF -> stype <> SourceErr -> Header_Type f <> stype ->
  forall (fuel : nat) (w : list byte),
    (List.length chunks < fuel)%nat ->
    ReadStream strconv_Quote ahead fuel
      (map (mkFrame stype) chunks ++ f :: rest) w stype =
    Ret (left_behind ahead f rest, w ++ List.concat chunks,
         trailer strconv_Quote f).
Proof.
  intros HnE HnR Hf.
  induction chunks as [|b chunks IH]; intros fuel w Hfuel;
    (destruct fuel as [|fuel]; [cbn [List.length] in Hfuel; lia|]).
  - cbn [map app ReadStream ReadFrame Pipe_FrameConn List.concat].
    destruct (Z.eqb_spec (Header_Type f) stype); [contradiction|].
    cbn [negb]. rewrite app_nil_r. reflexivity.
  - cbn [map app ReadStream ReadFrame Pipe_FrameConn Header_Type Buffer_Bytes
         Write bytes_Writer].
    rewrite !Z.eqb_refl. cbn [negb].
    rewrite closes_user_type by assumption.
    rewrite IH by (cbn [List.length] in Hfuel; lia).
    cbn [List.concat]. rewrite app_assoc. reflexivity.
Qed.

(** C2.  For every byte sequence [S] and every user stream type (not 0,
    [SourceEOF] or [SourceErr]), [WriteStream] of a source that delivers [S]
    and ends returns nil, and [ReadStream] with the same type on the frames
    written appends exactly [S] to the sink, drains the connection and
    returns nil. *)
Theorem stream_roundtrip (S : list byte) (stype : Z) (depth : nat)
    (w : list byte) :
  stype <> 0 -> stype <> SourceEOF -> stype <> SourceErr ->
  (1 <= depth)%nat ->
  exists frames : Pipe,
    WriteStream depth [] (mkReader S io_EOF) stype = Ret (frames, None) /\
    forall fuel : nat,
      (List.length frames <= fuel)%nat ->
      ReadStream strconv_Quote ahead fuel frames w stype = Ret ([], w ++ S, None).
Proof.
  intros H0 HE HR Hd. destruct depth as [|depth]; [lia|].
  destruct (WriteStream_clean depth [] (mkReader S io_EOF) stype H0 eq_refl)
    as (chunks & first & Hw & Hcat & _).
  eexists. split; [exact Hw|].
  intros fuel Hfuel. cbn [app] in *.
  rewrite length_app, length_map in Hfuel. cbn [List.length] in Hfuel.
  change (mkFrame stype first :: map (mkFrame stype) chunks)
    with (map (mkFrame stype) (first :: chunks)).
  rewrite ReadStream_data; try assumption.
  - rewrite Hcat. reflexivity.
  - cbn [Header_Type]. congruence.
  - cbn [List.length]. lia.
Qed.

(** A source with less than a buffer of bytes left is read in one round. *)
Lemma producer_short (fuel : nat) (r : Reader) :
  (List.length (pending r) < bufferLen)%nat ->
  producer (S fuel) r = Ret [mkread (pending r) (Some (normalized (final r)))].
Proof.
  intros Hshort. cbn [producer].
  destruct (ReadFull_short r Hshort) as (e & Hread & Hnorm).
  rewrite Hread, <- Hnorm. destruct e; reflexivity.
Qed.

(** The frames of an empty source: an empty frame of the stream's own type,
    then the empty [SourceEOF] frame. *)
Lemma WriteStream_empty (depth : nat) (c : Pipe) (stype : Z) :
  stype <> 0 ->
  WriteStream (S depth) c (mkReader [] io_EOF) stype =
  Ret (c ++ [mkFrame stype []; mkFrame SourceEOF []], None).
Proof.
  intros Hst. cbn [WriteStream].
  destruct (Z.eqb_spec stype 0); [contradiction|].
  rewrite producer_short by (cbn [pending List.length]; apply bufferLen_pos).
  cbn [bind pending final normalized]. apply consumer_EOF.
Qed.

Lemma ReadStream_empty_stream (stype : Z) (w : list byte) (fuel : nat) :
  stype <> SourceEOF -> stype <> SourceErr -> (2 <= fuel)%nat ->
  ReadStream strconv_Quote ahead fuel [mkFrame stype []; mkFrame SourceEOF []] w stype =
  Ret ([], w, None).
Proof.
  intros HE HR Hfuel.
  change [mkFrame stype []; mkFrame SourceEOF []]
    with (map (mkFrame stype) [[]] ++ mkFrame SourceEOF [] :: []).
  rewrite ReadStream_data; try assumption.
  - cbn [List.concat app]. rewrite app_nil_r. reflexivity.
  - cbn [Header_Type]. congruence.
Qed.

(** C5 (as amended).  For a user stream type, [WriteStream] of an empty
    source writes exactly two frames, an empty frame of type [stype] and an
    empty frame of type [SourceEOF], and returns nil; [ReadStream] on them
    leaves the sink as it was and returns nil. *)
Theorem empty_stream_frames (stype : Z) (depth : nat) (w : list byte) :
  stype <> 0 -> stype <> SourceEOF -> stype <> SourceErr ->
  (1 <= depth)%nat ->
  WriteStream depth ([] : Pipe) (mkReader [] io_EOF) stype =
    Ret ([mkFrame stype []; mkFrame SourceEOF []], None) /\
  forall fuel : nat,
    (2 <= fuel)%nat ->
    ReadStream strconv_Quote ahead fuel [mkFrame stype []; mkFrame SourceEOF []] w stype =
    Ret ([], w, None).
Proof.
  intros H0 HE HR Hd. destruct depth as [|depth]; [lia|]. split.
  - rewrite WriteStream_empty by assumption. reflexivity.
  - intros fuel Hfuel. apply ReadStream_empty_stream; assumption.
Qed.

(** A source that fails with an error other than the two end-of-file values:
    the full buffers read before the failure are written as frames of type
    [stype], the bytes of the last, short read are dropped, and the trailer
    follows, a frame of type [SourceErr] with the text of the error when
    that text fits one buffer. *)
Lemma WriteStream_source_error (depth : nat) (c : Pipe) (data : list byte)
    (e : error) (stype : Z) :
  stype <> 0 -> e <> io_EOF -> e <> io_ErrUnexpectedEOF ->
  (List.length (pending (strings_NewReader (Error e))) <= bufferLen)%nat ->
  exists full dropped rest,
    List.concat full ++ dropped = data /\
    Forall (fun b => List.length b = bufferLen) full /\
    (List.length dropped < bufferLen)%nat /\
    WriteStream (S (S depth)) c (mkReader data e) stype =
      Ret (c ++ map (mkFrame stype) full
             ++ mkFrame SourceErr (list_byte_of_string (Error e)) :: rest,
           None).
Proof.
  intros Hst HnE HnU Hfit.
  destruct (producer_layout (S (List.length data)) (mkReader data e)) as
    (full & lastb & Hprod & Hcat & Hall & Hlast & _); [cbn [pending]; lia|].
  destruct (WriteStream_clean depth (c ++ map (mkFrame stype) full)
              (strings_NewReader (Error e)) SourceErr)
    as (chunks & first & Hw & _ & Hfirst);
    [rewrite SourceErr_value; lia|reflexivity|].
  rewrite firstn_all2 in Hfirst by exact Hfit. subst first.
  exists full, lastb, (map (mkFrame SourceErr) chunks ++ [mkFrame SourceEOF []]).
  split; [exact Hcat|]. split; [exact Hall|]. split; [exact Hlast|].
  change (WriteStream (S (S depth)) c (mkReader data e) stype)
    with (if stype =? 0 then Panic EmptyString
          else reads <- producer (S (List.length (pending (mkReader data e))))
                                 (mkReader data e) ;;
               consumer (WriteStream (S depth)) c reads stype).
  destruct (Z.eqb_spec stype 0); [contradiction|].
  cbn [pending]. rewrite Hprod. cbn [bind final].
  rewrite consumer_full.
  assert (Hn : normalized e = e) by (destruct e; reflexivity || contradiction).
  rewrite Hn.
  assert (Hsrc : is_source_error (Some e) = true)
    by (destruct e; reflexivity || contradiction).
  cbn [consumer err buf]. rewrite Hsrc, Hw. cbn [bind map app pending].
  rewrite <- app_assoc. reflexivity.
Qed.

(** C6 (as amended).  For a user stream type and a source that fails with
    an error other than [io.EOF] and [io.ErrUnexpectedEOF] whose text fits
    one buffer, [WriteStream] returns nil after writing the trailer, a
    [SourceErr] frame that carries the text of the error, and [ReadStream]
    returns an error whose text is [stream error: ] followed by the quoted
    text of the source's error.  The frames before the trailer are the
    buffers of [bufferLen] bytes that the source filled before it failed,
    and they are what the sink receives; the bytes read after the last full
    buffer, fewer than [bufferLen], are not sent. *)
Theorem source_error_trailer (data : list byte) (e : error) (stype : Z)
    (depth : nat) (w : list byte) :
  stype <> 0 -> stype <> SourceEOF -> stype <> SourceErr ->
  e <> io_EOF -> e <> io_ErrUnexpectedEOF ->
  (List.length (pending (strings_NewReader (Error e))) <= bufferLen)%nat ->
  (2 <= depth)%nat ->
  exists (full : list (list byte)) (dropped : list byte) (rest : Pipe),
    data = List.concat full ++ dropped /\
    Forall (fun b => List.length b = bufferLen) full /\
    (List.length dropped < bufferLen)%nat /\
    WriteStream depth ([] : Pipe) (mkReader data e) stype =
      Ret (map (mkFrame stype) full
             ++ mkFrame SourceErr (list_byte_of_string (Error e)) :: rest,
           None) /\
    forall fuel : nat,
      (List.length full < fuel)%nat ->
      ReadStream strconv_Quote ahead fuel
        (map (mkFrame stype) full
           ++ mkFrame SourceErr (list_byte_of_string (Error e)) :: rest)
        w stype =
      Ret (rest, w ++ List.concat full,
           Some (errors_New ("stream error: " ++ strconv_Quote (Error e)))).
Proof.
  intros H0 HE HR HnE HnU Hfit Hd.
  destruct depth as [|[|depth]]; try lia.
  destruct (WriteStream_source_error depth [] data e stype H0 HnE HnU Hfit)
    as (full & dropped & rest & Hcat & Hall & Hlast & Hw).
  exists full, dropped, rest.
  split; [symmetry; exact Hcat|]. split; [exact Hall|]. split; [exact Hlast|].
  split; [exact Hw|].
  intros fuel Hfuel.
  rewrite ReadStream_data; try assumption.
  - unfold trailer. cbn [Header_Type Buffer_Bytes].
    rewrite Z.eqb_refl, string_of_list_byte_of_string.
    replace (SourceErr =? SourceEOF) with false by reflexivity.
    reflexivity.
  - cbn [Header_Type]. congruence.
Qed.

End Receive.

Section AnyConn.
Context {C : Type} `{FrameConn C}.

(** Reads without a source error never reach the recursive call. *)
Lemma consumer_clean_returns (recur : C -> Reader -> Z -> go (C * option error))
    (stype : Z) (lastb : list byte) (chunks : list (list byte)) :
  forall c : C,
    exists c' e,
      consumer recur c (full_reads chunks ++ [mkread lastb (Some io_EOF)]) stype =
      Ret (c', e).
Proof.
  induction chunks as [|b chunks IH]; intros c.
  - cbn [full_reads map app consumer err buf is_source_error].
    destruct (WriteFrame c lastb stype) as [c1 [e1|]]; [eauto|].
    destruct (WriteFrame c1 [] SourceEOF) as [c2 [e2|]]; eauto.
  - cbn [full_reads map app consumer err buf is_source_error].
    destruct (WriteFrame c b stype) as [c1 [e1|]]; [eauto|].
    apply IH.
Qed.

Lemma WriteStream_clean_returns (depth : nat) (c : C) (r : Reader) (stype : Z) :
  stype <> 0 -> normalized (final r) = io_EOF ->
  exists c' e, WriteStream (S depth) c r stype = Ret (c', e).
Proof.
  intros Hst Hfin. cbn [WriteStream].
  destruct (Z.eqb_spec stype 0); [contradiction|].
  destruct (producer_ok (S (List.length (pending r))) r) as
    (full & lastb & Hprod & _); [lia|].
  rewrite Hprod, Hfin. cbn [bind]. apply consumer_clean_returns.
Qed.

Lemma consumer_returns (recur : C -> Reader -> Z -> go (C * option error))
    (stype : Z) :
  (forall c msg, exists c' e, recur c (strings_NewReader msg) SourceErr = Ret (c', e)) ->
  forall (reads : list read) (c : C),
    exists c' e, consumer recur c reads stype = Ret (c', e).
Proof.
  intros Hrec. induction reads as [|rd reads IH]; intros c.
  - cbn [consumer]. eauto.
  - cbn [consumer]. destruct (is_source_error (err rd)).
    + destruct (Hrec c (match err rd with
                        | Some e => Error e
                        | None => EmptyString
                        end)) as (c1 & e1 & Hr).
      rewrite Hr. cbn [bind]. destruct e1; eauto.
    + destruct (WriteFrame c (buf rd) stype) as [c1 [e1|]]; [eauto|].
      destruct (err rd) as [[]|]; try apply IH.
      destruct (WriteFrame c1 [] SourceEOF) as [c2 [e2|]]; eauto.
Qed.

(** C9.  The guard of [WriteStream] panics for [stype = 0] and for no other
    value: with any other stream type the call returns, whatever the
    connection and the source do.  The reserved values [SourceEOF]
    (0xFFFFFFFF) and [SourceErr] (0xFFFFFFFE) are not 0, so the guard lets
    them through. *)
Theorem guard_rejects_only_zero (depth : nat) (c : C) (stream : Reader)
    (stype : Z) :
  (2 <= depth)%nat ->
  (stype = 0 -> WriteStream depth c stream stype = Panic EmptyString) /\
  (stype <> 0 -> exists c' e, WriteStream depth c stream stype = Ret (c', e)) /\
  SourceEOF = 4294967295 /\ SourceErr = 4294967294 /\
  (exists c' e, WriteStream depth c stream SourceEOF = Ret (c', e)) /\
  (exists c' e, WriteStream depth c stream SourceErr = Ret (c', e)).
Proof.
  intros Hd. destruct depth as [|[|depth]]; try lia.
  assert (Hgo : forall st, st <> 0 ->
            exists c' e, WriteStream (S (S depth)) c stream st = Ret (c', e)).
  { intros st Hst.
    change (WriteStream (S (S depth)) c stream st)
      with (if st =? 0 then Panic EmptyString
            else reads <- producer (S (List.length (pending stream))) stream ;;
                 consumer (WriteStream (S depth)) c reads st).
    destruct (Z.eqb_spec st 0); [contradiction|].
    destruct (producer_ok (S (List.length (pending stream))) stream) as
      (full & lastb & Hprod & _); [lia|].
    rewrite Hprod. cbn [bind]. apply consumer_returns.
    intros c0 msg. apply WriteStream_clean_returns; [|reflexivity].
    rewrite SourceErr_value. lia. }
  split; [|split; [exact (Hgo stype)|]].
  - intros ->. reflexivity.
  - split; [reflexivity|]. split; [reflexivity|]. split; apply Hgo.
    + rewrite SourceEOF_value. lia.
    + rewrite SourceErr_value. lia.
Qed.

End AnyConn.

(** The stream types that the round trip excludes.  A stream written with
    type [SourceErr] comes back as an error, and of a stream written with
    type [SourceEOF] the reader takes the first frame only. *)
Example reserved_SourceErr_stream :
  WriteStream 1 ([] : Pipe) (mkReader [x01] io_EOF) SourceErr =
    Ret ([mkFrame SourceErr [x01]; mkFrame SourceEOF []], None) /\
  ReadStream quote_ascii 2 2 [mkFrame SourceErr [x01]; mkFrame SourceEOF []] []
    SourceErr =
    Ret ([mkFrame SourceEOF []], [x01],
         Some (errors_New ("stream error: " ++ quote_ascii (string_of_list_byte [x01])))).
Proof. split; vm_compute; reflexivity. Qed.

Example reserved_SourceEOF_stream :
  ReadStream quote_ascii 2 3
    [mkFrame SourceEOF [x01]; mkFrame SourceEOF [x02]; mkFrame SourceEOF []] []
    SourceEOF =
  Ret ([mkFrame SourceEOF [x02]; mkFrame SourceEOF []], [x01], None).
Proof. reflexivity. Qed.

(** C2 at a three-byte stream of type 7. *)
Lemma stream_roundtrip_witness :
  exists frames : Pipe,
    WriteStream 1 [] (mkReader [x01; x02; x03] io_EOF) 7 = Ret (frames, None) /\
    forall fuel : nat,
      (List.length frames <= fuel)%nat ->
      ReadStream quote_ascii 2 fuel frames [] 7 = Ret ([], [] ++ [x01; x02; x03], None).
Proof.
  apply (stream_roundtrip quote_ascii 2 [x01; x02; x03] 7 1 []).
  - lia.
  - rewrite SourceEOF_value. lia.
  - rewrite SourceErr_value. lia.
  - lia.
Defined.

(** C5: the claim as stated fails for the empty source and type 7, where the
    writer's frames are not the single [SourceEOF] frame. *)
Lemma empty_stream_counterexample :
  WriteStream 1 ([] : Pipe) (mkReader [] io_EOF) 7 =
    Ret ([mkFrame 7 []; mkFrame SourceEOF []], None) /\
  List.length [mkFrame 7 []; mkFrame SourceEOF []] = 2%nat /\
  [mkFrame 7 []; mkFrame SourceEOF []] <> [mkFrame SourceEOF []].
Proof.
  split; [|split; [reflexivity|discriminate]].
  rewrite WriteStream_empty by lia. reflexivity.
Qed.

(** C5 (as amended) at type 7. *)
Lemma empty_stream_frames_witness :
  WriteStream 1 ([] : Pipe) (mkReader [] io_EOF) 7 =
    Ret ([mkFrame 7 []; mkFrame SourceEOF []], None) /\
  forall fuel : nat,
    (2 <= fuel)%nat ->
    ReadStream quote_ascii 2 fuel [mkFrame 7 []; mkFrame SourceEOF []] [] 7 =
    Ret ([], [], None).
Proof.
  apply (empty_stream_frames quote_ascii 2 7 1 []).
  - lia.
  - rewrite SourceEOF_value. lia.
  - rewrite SourceErr_value. lia.
  - lia.
Defined.

(** C6: the claim as stated fails for a source that delivers two bytes and
    then fails with the error [disk gone]: the reader's error reads
    [stream error: ] and the quoted text, not the text itself.  It fails as
    well for a source that fails with [io.ErrUnexpectedEOF], an error other
    than [io.EOF]: the writer then sends the two bytes and no [SourceErr]
    frame. *)
Lemma source_error_counterexample :
  WriteStream 2 ([] : Pipe) (mkReader [x01; x02] (errors_New "disk gone")) 7 =
    Ret ([mkFrame SourceErr (list_byte_of_string "disk gone");
          mkFrame SourceEOF []], None) /\
  ReadStream quote_ascii 2 2
    [mkFrame SourceErr (list_byte_of_string "disk gone"); mkFrame SourceEOF []]
    [] 7 =
    Ret ([mkFrame SourceEOF []], [],
         Some (errors_New ("stream error: " ++ quote_ascii "disk gone"))) /\
  Error (errors_New ("stream error: " ++ quote_ascii "disk gone"))
    <> Error (errors_New "disk gone") /\
  WriteStream 2 ([] : Pipe) (mkReader [x01; x02] io_ErrUnexpectedEOF) 7 =
    Ret ([mkFrame 7 [x01; x02]; mkFrame SourceEOF []], None).
Proof.
  split; [vm_compute; reflexivity|].
  split; [vm_compute; reflexivity|].
  split; [vm_compute; discriminate|].
  vm_compute. reflexivity.
Qed.

Lemma fits_buffer (n : nat) : (Z.of_nat n <= 524288) -> (n <= bufferLen)%nat.
Proof. intros Hn. apply Nat2Z.inj_le. rewrite bufferLen_Z. exact Hn. Defined.

(** C6 (as amended) at the same source. *)
Lemma source_error_trailer_witness :
  exists (full : list (list byte)) (dropped : list byte) (rest : Pipe),
    [x01; x02] = List.concat full ++ dropped /\
    Forall (fun b => List.length b = bufferLen) full /\
    (List.length dropped < bufferLen)%nat /\
    WriteStream 2 ([] : Pipe) (mkReader [x01; x02] (errors_New "disk gone")) 7 =
      Ret (map (mkFrame 7) full
             ++ mkFrame SourceErr (list_byte_of_string "disk gone") :: rest,
           None) /\
    forall fuel : nat,
      (List.length full < fuel)%nat ->
      ReadStream quote_ascii 2 fuel
        (map (mkFrame 7) full
           ++ mkFrame SourceErr (list_byte_of_string "disk gone") :: rest)
        [] 7 =
      Ret (rest, [] ++ List.concat full,
           Some (errors_New ("stream error: " ++ quote_ascii "disk gone"))).
Proof.
  apply (source_error_trailer quote_ascii 2 [x01; x02] (errors_New "disk gone")
           7 2 []).
  - lia.
  - rewrite SourceEOF_value. lia.
  - rewrite SourceErr_value. lia.
  - discriminate.
  - discriminate.
  - change (List.length (pending (strings_NewReader (Error (errors_New "disk gone")))))
      with 9%nat.
    apply fits_buffer. lia.
  - lia.
Defined.

(** C9 on the reliable connection, for a one-byte source. *)
Lemma guard_rejects_only_zero_witness :
  (7 = 0 ->
   WriteStream 2 ([] : Pipe) (mkReader [x01] io_EOF) 7 = Panic EmptyString) /\
  (7 <> 0 ->
   exists c' e, WriteStream 2 ([] : Pipe) (mkReader [x01] io_EOF) 7 = Ret (c', e)) /\
  SourceEOF = 4294967295 /\ SourceErr = 4294967294 /\
  (exists c' e,
     WriteStream 2 ([] : Pipe) (mkReader [x01] io_EOF) SourceEOF = Ret (c', e)) /\
  (exists c' e,
     WriteStream 2 ([] : Pipe) (mkReader [x01] io_EOF) SourceErr = Ret (c', e)).
Proof.
  apply (guard_rejects_only_zero 2 ([] : Pipe) (mkReader [x01] io_EOF) 7). lia.
Defined.

End stream_facts.

(** ** replication *)
Module replication_facts.
Import replication.

Example parse_canonical :
  time.parseRFC3339 "2018-08-30T12:00:00Z" = Some (time.mkTime 63671227200 0 0).
Proof. reflexivity. Qed.

Example parse_with_zone :
  time.parseRFC3339 "2018-08-30T14:00:00.5+02:00"
  = Some (time.mkTime 63671227200 500000000 7200).
Proof. reflexivity. Qed.

Example parse_rejects : time.parseRFC3339 "yesterday" = None.
Proof. reflexivity. Qed.

Section Convert.

Variable time_Parse : string -> time.Time + error.

(** C7 (as amended).  The conversion has no error result.  When the
    creation field is not empty and does not parse, it panics with the
    parser's error; when the field is empty and the version type is known,
    it returns the in-memory version with the zero instant as creation
    time. *)
Theorem ZFSFilesystemVersion_creation (v : FilesystemVersion) :
  (forall e,
     Creation v <> EmptyString -> time_Parse (Creation v) = inr e ->
     ZFSFilesystemVersion time_Parse v = Panic (Error e)) /\
  (forall ty,
     Creation v = EmptyString -> ZFSVersionType (Type_ v) = Ret ty ->
     ZFSFilesystemVersion time_Parse v =
     Ret (mkZFSFilesystemVersion ty (Name v) (Guid v) (CreateTXG v) time.zero)).
Proof.
  unfold ZFSFilesystemVersion. split.
  - intros e Hne Hparse.
    destruct (String.eqb_spec (Creation v) EmptyString); [contradiction|].
    cbn [negb]. rewrite Hparse. reflexivity.
  - intros ty Hempty Hty. rewrite Hempty, Hty. reflexivity.
Qed.

End Convert.

(** C7: the claim as stated fails for a snapshot whose creation field is
    [yesterday]: the conversion panics, it does not return. *)
Lemma ZFSFilesystemVersion_counterexample :
  time.Parse_RFC3339 "yesterday"
    = inr (errors_New "parsing time: cannot parse yesterday") /\
  ZFSFilesystemVersion time.Parse_RFC3339
    (mkFilesystemVersion FilesystemVersion_Snapshot "zrepl_1" 1 1 "yesterday")
  = Panic "parsing time: cannot parse yesterday".
Proof. split; reflexivity. Qed.

(** C7 (as amended) at that snapshot and at one without creation field. *)
Lemma ZFSFilesystemVersion_creation_witness :
  ZFSFilesystemVersion time.Parse_RFC3339
    (mkFilesystemVersion FilesystemVersion_Snapshot "zrepl_1" 1 1 "yesterday")
  = Panic "parsing time: cannot parse yesterday" /\
  ZFSFilesystemVersion time.Parse_RFC3339
    (mkFilesystemVersion FilesystemVersion_Snapshot "zrepl_1" 1 1 EmptyString)
  = Ret (mkZFSFilesystemVersion zfs_Snapshot "zrepl_1" 1 1 time.zero).
Proof.
  split.
  - apply (proj1 (ZFSFilesystemVersion_creation time.Parse_RFC3339
       (mkFilesystemVersion FilesystemVersion_Snapshot "zrepl_1" 1 1 "yesterday"))
       (errors_New "parsing time: cannot parse yesterday")).
    + discriminate.
    + reflexivity.
  - apply (proj2 (ZFSFilesystemVersion_creation time.Parse_RFC3339
       (mkFilesystemVersion FilesystemVersion_Snapshot "zrepl_1" 1 1 EmptyString))
       zfs_Snapshot); reflexivity.
Defined.

End replication_facts.

(** ** pruner *)
Module pruner_facts.
Import pruner.

(** *** The factory *)

Lemma checkContainsKeep1_range_None (rules : list KeepRule) :
  checkContainsKeep1_range rules = None <-> exists n, In (KeepLastN n) rules.
Proof.
  induction rules as [|r rules IH]; cbn [checkContainsKeep1_range In].
  - split; [discriminate|]. intros [n []].
  - destruct r as [n|kind].
    + split; [eauto|reflexivity].
    + rewrite IH. split.
      * intros [n Hin]. eauto.
      * intros [n [Heq|Hin]]; [discriminate|eauto].
Qed.

Lemma checkContainsKeep1_None (rules : list KeepRule) :
  checkContainsKeep1 rules = None <->
  rules = [] \/ exists n, In (KeepLastN n) rules.
Proof.
  unfold checkContainsKeep1.
  destruct rules as [|r rules].
  - cbn. split; [auto|reflexivity].
  - replace (len (r :: rules) =? 0) with false.
    + rewrite checkContainsKeep1_range_None. split; [auto|].
      intros [Hnil|Hin]; [discriminate|exact Hin].
    + symmetry. apply Z.eqb_neq. unfold len. cbn [List.length]. lia.
Qed.

Lemma checkContainsKeep1_Some (rules : list KeepRule) (e : error) :
  checkContainsKeep1 rules = Some e ->
  e = errors_New "sender keep rules must contain last_n or be empty so that the last snapshot is definitely kept".
Proof.
  unfold checkContainsKeep1. destruct (len rules =? 0); [discriminate|].
  induction rules as [|r rules IH]; cbn [checkContainsKeep1_range].
  - intros He. injection He as <-. reflexivity.
  - destruct r; [discriminate|exact IH].
Qed.

(** C8 (as amended).  The construction of the factory fails exactly when
    the receiver's or the sender's rules cannot be built from the
    configuration, or the sender's list is not empty and holds no
    [KeepLastN].  Once both lists are built, a sender list that is not empty
    and holds no [KeepLastN] is rejected with the error of
    [checkContainsKeep1], and with an empty sender list, or one that holds a
    [KeepLastN], the factory is built with the two lists. *)
Theorem NewPrunerFactory_sender_rules (PruningEnum : Type)
    (RulesFromConfig : list PruningEnum -> list KeepRule + error)
    (cfg : PruningSenderReceiver PruningEnum) :
  ((exists e, NewPrunerFactory RulesFromConfig cfg = inr e) <->
   (exists e, RulesFromConfig (KeepReceiver cfg) = inr e) \/
   (exists e, RulesFromConfig (KeepSender cfg) = inr e) \/
   (exists rs, RulesFromConfig (KeepSender cfg) = inl rs /\
               rs <> [] /\ forall n, ~ In (KeepLastN n) rs)) /\
  (forall rr rs,
     RulesFromConfig (KeepReceiver cfg) = inl rr ->
     RulesFromConfig (KeepSender cfg) = inl rs ->
     (rs <> [] /\ (forall n, ~ In (KeepLastN n) rs) ->
      NewPrunerFactory RulesFromConfig cfg =
      inr (errors_New "sender keep rules must contain last_n or be empty so that the last snapshot is definitely kept")) /\
     (rs = [] \/ (exists n, In (KeepLastN n) rs) ->
      NewPrunerFactory RulesFromConfig cfg =
      inl (mkPrunerFactory rs rr (10 * time_Second)))).
Proof.
  unfold NewPrunerFactory.
  destruct (RulesFromConfig (KeepReceiver cfg)) as [rr|er].
  2:{ split; [split; eauto|]. intros rr rs Hr. discriminate. }
  destruct (RulesFromConfig (KeepSender cfg)) as [rs|es].
  2:{ split; [split; eauto|]. intros rr' rs Hr Hs. discriminate. }
  pose proof (checkContainsKeep1_None rs) as Hcheck.
  pose proof (checkContainsKeep1_Some rs) as Hsome.
  destruct (checkContainsKeep1 rs) as [e|].
  - assert (Hbad : rs <> [] /\ forall n, ~ In (KeepLastN n) rs).
    { split.
      - intros ->. destruct Hcheck as [_ Hc]. discriminate Hc. auto.
      - intros n Hin. destruct Hcheck as [_ Hc]. discriminate Hc. eauto. }
    split.
    + split; [|eauto]. intros _. right. right. exists rs.
      split; [reflexivity|exact Hbad].
    + intros rr' rs' Hr Hs. injection Hr as <-. injection Hs as <-. split.
      * intros _. rewrite (Hsome e eq_refl). reflexivity.
      * intros Hok. destruct Hcheck as [_ Hc]. discriminate (Hc Hok).
  - assert (Hok : rs = [] \/ exists n, In (KeepLastN n) rs)
      by exact (proj1 Hcheck eq_refl).
    split.
    + split; [intros [e He]; discriminate|].
      intros [[e He]|[[e He]|[rs' [Hrs [Hne Hno]]]]]; try discriminate.
      injection Hrs as <-.
      destruct Hok as [Hnil|[n Hin]]; [contradiction|].
      exfalso. exact (Hno n Hin).
    + intros rr' rs' Hr Hs. injection Hr as <-. injection Hs as <-. split.
      * intros [Hne Hno]. destruct Hok as [Hnil|[n Hin]]; [contradiction|].
        exfalso. exact (Hno n Hin).
      * intros _. reflexivity.
Qed.

(** C8: the claim as stated fails for a configuration whose sender rules
    hold a [KeepLastN] and whose receiver rules cannot be built: the
    construction fails, with the error of the receiver's rules. *)
Lemma NewPrunerFactory_counterexample :
  rules_from_entries [inl (KeepLastN 1)] = inl [KeepLastN 1] /\
  In (KeepLastN 1) [KeepLastN 1] /\
  NewPrunerFactory rules_from_entries
    (mkPruningSenderReceiver [inl (KeepLastN 1)] [inr "grid?"%string])
  = inr (errors_New
           "cannot build receiver pruning rules: unknown keep rule: grid?").
Proof.
  split; [reflexivity|]. split; [left; reflexivity|reflexivity].
Qed.

Example factory_rejects_grid_only :
  NewPrunerFactory (fun l : list KeepRule => inl l)
    (mkPruningSenderReceiver [KeepOther "grid"] [])
  = inr (errors_New "sender keep rules must contain last_n or be empty so that the last snapshot is definitely kept").
Proof. reflexivity. Qed.

Example factory_accepts_empty :
  NewPrunerFactory (fun l : list KeepRule => inl l)
    (mkPruningSenderReceiver [] [KeepOther "grid"])
  = inl (mkPrunerFactory [] [KeepOther "grid"] 10000000000).
Proof. reflexivity. Qed.

(** *** The plan *)

Lemma plan_snapshot_replicated (res : SnapshotReplicationStatusRes)
    (creation : time.Time) (tfsv : FilesystemVersion) :
  replicated (plan_snapshot res creation tfsv) = true <->
  Status res = SnapshotReplicationStatusRes_Replicated.
Proof.
  unfold plan_snapshot. cbn [replicated]. rewrite negb_involutive.
  destruct (Status res); cbn; split; congruence.
Qed.

(** C1 (the code at the failing input).  The snapshot that [statePlan]
    builds has [replicated = true] only for the status Replicated: for the
    status Nonexistent it has [replicated = false], and a plan over a
    snapshot unknown to the history leaves that snapshot pending as not
    replicated. *)
Theorem plan_nonexistent_not_replicated :
  (forall creation tfsv,
     replicated
       (plan_snapshot (mkStatusRes SnapshotReplicationStatusRes_Nonexistent)
                      creation tfsv) = false) /\
  ('(_, p) <- statePlan World_CreationAsTime Path at_name (p_args pruner0)
                        world0 pruner0 ;;
   Ret (state p, map (fun f => map replicated (snaps f)) (prunePending p)))
  = Ret (Exec, [[false]]).
Proof.
  split; [reflexivity|]. vm_compute. reflexivity.
Qed.

(** *** The error field *)

Lemma onErr_cases (e : option error) (p p' : Pruner) :
  onErr e p = Ret p' ->
  err p' = e /\
  ((state p' = ErrPerm /\ shouldRetry e = false) \/
   ((state p' = PlanWait \/ state p' = ExecWait) /\ shouldRetry e = true)).
Proof.
  unfold onErr. destruct (shouldRetry e) eqn:Hretry; cbn [negb].
  - cbn [state set_err]. destruct (state p); intros Hret;
      try discriminate; injection Hret as <-; cbn; auto.
  - intros Hret. injection Hret as <-. cbn. auto.
Qed.


Lemma plan_commit_fields (pfss : list fs) :
  forall p, err (plan_commit pfss p) = err p /\ state (plan_commit pfss p) = Exec.
Proof.
  induction pfss as [|pfs pfss IH]; intros p; cbn [plan_commit].
  - split; reflexivity.
  - destruct (IH (match fs_err pfs with
                  | Some _ =>
                      mkPruner (p_args p) (state p) (err p) (prunePending p)
                               (pruneCompleted p ++ [pfs])
                  | None =>
                      mkPruner (p_args p) (state p) (err p)
                               (prunePending p ++ [pfs]) (pruneCompleted p)
                  end)) as [He Hs].
    rewrite He, Hs. destruct (fs_err pfs); split; reflexivity.
Qed.

(** The final update of [statePlan] appends the records with an error to
    the completed ones and the others to the pending ones, in order. *)
Lemma plan_commit_lists (pfss : list fs) :
  forall p,
    prunePending (plan_commit pfss p) =
      prunePending p ++ filter (fun f => negb (has_err f)) pfss /\
    pruneCompleted (plan_commit pfss p) =
      pruneCompleted p ++ filter has_err pfss.
Proof.
  induction pfss as [|pfs pfss IH]; intros p; cbn [plan_commit filter].
  - cbn. rewrite !app_nil_r. split; reflexivity.
  - destruct (fs_err pfs) as [e|] eqn:Hfe.
    + assert (Hh : has_err pfs = true) by (unfold has_err; rewrite Hfe; reflexivity).
      rewrite Hh. cbn [negb].
      destruct (IH (mkPruner (p_args p) (state p) (err p) (prunePending p)
                      (pruneCompleted p ++ [pfs]))) as [Hp Hc].
      rewrite Hp, Hc. cbn [prunePending pruneCompleted].
      rewrite <- app_assoc. split; reflexivity.
    + assert (Hh : has_err pfs = false) by (unfold has_err; rewrite Hfe; reflexivity).
      rewrite Hh. cbn [negb].
      destruct (IH (mkPruner (p_args p) (state p) (err p) (prunePending p ++ [pfs])
                      (pruneCompleted p))) as [Hp Hc].
      rewrite Hp, Hc. cbn [prunePending pruneCompleted].
      rewrite <- app_assoc. split; reflexivity.
Qed.

Section Machine.
Context {E : Type} `{Target E} `{History E} `{Context E}.
Variable CreationAsTime : FilesystemVersion -> time.Time + error.
Variable Filesystem_String : Filesystem -> string.
Variable RelName : FilesystemVersion -> string.
Variable PruneSnapshots : list snapshot -> list KeepRule -> list snapshot.

#[local] Abbreviation statePlan' := (statePlan CreationAsTime Filesystem_String RelName).
#[local] Abbreviation stateExec' := (stateExec PruneSnapshots).
#[local] Abbreviation statefunc' :=
  (statefunc CreationAsTime Filesystem_String RelName PruneSnapshots).
#[local] Abbreviation prune' :=
  (prune CreationAsTime Filesystem_String RelName PruneSnapshots).








(** The loop over the versions, started on a record without error. *)
Lemma plan_versions_inv (tfsvs : list FilesystemVersion) :
  forall (env env' : E) (tfs : Filesystem) (pfs pfs' : fs),
    plan_versions CreationAsTime Filesystem_String RelName env tfs tfsvs pfs
      = (env', inl pfs') ->
    fs_err pfs = None ->
    path pfs' = path pfs /\
    (fs_err pfs' = None ->
     map fsv (snaps pfs') = map fsv (snaps pfs) ++ filter is_snapshot tfsvs) /\
    (fs_err pfs' <> None -> snaps pfs' = []).
Proof.
  induction tfsvs as [|tfsv rest IH]; intros env env' tfs pfs pfs' Hrun Hnoerr;
    cbn [plan_versions filter] in *.
  - injection Hrun as <- <-. rewrite app_nil_r.
    split; [reflexivity|]. split; [reflexivity|]. intros Hx. contradiction.
  - unfold is_snapshot at 1.
    destruct (replication.Type_ tfsv =? replication.FilesystemVersion_Snapshot);
      cbn [negb] in Hrun.
    2:{ exact (IH _ _ _ _ _ Hrun Hnoerr). }
    destruct (CreationAsTime tfsv) as [creation|e]; [|discriminate].
    destruct (SnapshotReplicationStatus env _) as [env1 [res|e]].
    + destruct (IH _ _ _ _ _ Hrun Hnoerr) as (Hpath & Hsnaps & Herr).
      cbn [path snaps fs_err] in *. split; [exact Hpath|].
      split; [|exact Herr]. intros Hok. rewrite (Hsnaps Hok), map_app.
      cbn [map fsv plan_snapshot]. rewrite <- app_assoc. reflexivity.
    + destruct (shouldRetry (Some e)); [discriminate|].
      injection Hrun as <- <-. cbn [path snaps fs_err].
      split; [reflexivity|]. split; [discriminate|reflexivity].
Qed.

#[local] Abbreviation plan_versions' :=
  (plan_versions CreationAsTime Filesystem_String RelName).
#[local] Abbreviation plan_filesystems' :=
  (plan_filesystems CreationAsTime Filesystem_String RelName).
#[local] Abbreviation plan_at_filesystem' :=
  (plan_at_filesystem CreationAsTime Filesystem_String RelName).
#[local] Abbreviation plan_at_version' :=
  (plan_at_version CreationAsTime Filesystem_String RelName).


(** The loops of the plan, cut after the part that has run without an
    error. *)
Lemma plan_versions_reach (tfs : Filesystem) (vpre : list FilesystemVersion) :
  forall (env env1 : E) (pfs pfs1 : fs) (rest : list FilesystemVersion),
    plan_versions' env tfs vpre pfs = (env1, inl pfs1) ->
    fs_err pfs1 = None ->
    plan_versions' env tfs (vpre ++ rest) pfs = plan_versions' env1 tfs rest pfs1.
Proof.
  induction vpre as [|v vpre IH]; intros env env1 pfs pfs1 rest Hrun Hok;
    cbn [plan_versions app] in *.
  - injection Hrun as <- <-. reflexivity.
  - destruct (negb (replication.Type_ v =? replication.FilesystemVersion_Snapshot));
      [exact (IH _ _ _ _ _ Hrun Hok)|].
    destruct (CreationAsTime v) as [creation|ce]; [|discriminate].
    destruct (SnapshotReplicationStatus env _) as [env2 [res|e]].
    + exact (IH _ _ _ _ _ Hrun Hok).
    + destruct (shouldRetry (Some e)); [discriminate|].
      injection Hrun as <- <-. discriminate.
Qed.









End Machine.


(** On that world the plan comes to the filesystem [pool/fs] and to its
    snapshot, where the lookup in the history fails. *)
Example plan_comes_to_the_snapshot :
  plan_at_filesystem World_CreationAsTime Path at_name world_broken []
    (mkFilesystem "pool/fs" EmptyString) [] world_broken /\
  plan_at_version World_CreationAsTime Path at_name world_broken
    (mkFilesystem "pool/fs" EmptyString) [] snap1 [] world_broken /\
  SnapshotReplicationStatus world_broken
    (mkStatusReq "pool/fs" "zrepl_1" SnapshotReplicationStatusReq_Get)
  = (world_broken, inr denied).
Proof.
  split; [|split; [|reflexivity]].
  - exists world_broken, []. split; reflexivity.
  - exists world_broken, (mkfs "pool/fs" [] None). repeat split.
Qed.


End pruner_facts.

(** ** base2bufpool, continued *)
Module base2bufpool_more.
Import base2bufpool base2bufpool_facts.

Lemma log2_pow2_succ (k : Z) : 1 <= k -> Z.log2 (2 ^ k + 1) = k.
Proof.
  intros Hk. apply Z.log2_unique; [lia|].
  assert (2 <= 2 ^ k).
  { change 2 with (2 ^ 1) at 1. apply Z.pow_le_mono_r; lia. }
  replace (k + 1) with (Z.succ k) by lia. rewrite Z.pow_succ_r by lia. lia.
Qed.

(** X1.  For every [k] from 0 to 62, [fittingShift(2^k) = k] and
    [fittingShift(2^k + 1) = k + 1]. *)
Theorem fittingShift_powers (k : Z) :
  0 <= k < 63 ->
  fittingShift (2 ^ k) = k /\ fittingShift (2 ^ k + 1) = k + 1.
Proof.
  intros Hk. split; [apply fittingShift_pow2; lia|].
  destruct (Z.eq_dec k 0) as [->|Hk0]; [reflexivity|].
  unfold fittingShift, bits_Len.
  assert (0 < 2 ^ k) by (apply Z.pow_pos_nonneg; lia).
  destruct (Z.eqb_spec (2 ^ k + 1) 0); [lia|].
  rewrite log2_pow2_succ by lia.
  replace (k + 1 - 1) with k by lia.
  rewrite shl1_uint_small by lia.
  destruct (Z.eqb_spec (2 ^ k) (2 ^ k + 1)); [lia|reflexivity].
Qed.

Lemma fittingShift_powers_witness :
  fittingShift (2 ^ 19) = 19 /\ fittingShift (2 ^ 19 + 1) = 19 + 1.
Proof. apply (fittingShift_powers 19). lia. Defined.

(** X2.  For every size [x] of a 64-bit [uint] other than 0,
    [fittingShift x] is the least shift [s] with [x <= 2^s]. *)
Theorem fittingShift_least (x : Z) :
  1 <= x < 2 ^ 64 ->
  x <= 2 ^ fittingShift x /\
  forall t, 0 <= t -> x <= 2 ^ t -> fittingShift x <= t.
Proof.
  intros Hx. unfold fittingShift, bits_Len.
  destruct (Z.eqb_spec x 0); [lia|].
  destruct (Z.log2_spec x ltac:(lia)) as [Hlo Hhi].
  pose proof (Z.log2_nonneg x) as Hnn.
  assert (Hl63 : Z.log2 x < 64).
  { apply Z.log2_lt_pow2; lia. }
  replace (Z.log2 x + 1 - 1) with (Z.log2 x) by lia.
  rewrite shl1_uint_small by lia.
  replace (Z.succ (Z.log2 x)) with (Z.log2 x + 1) in Hhi by lia.
  destruct (Z.eqb_spec (2 ^ Z.log2 x) x) as [Heq|Hne].
  - split; [lia|]. intros t Ht Hxt.
    destruct (Z.le_gt_cases (Z.log2 x) t) as [|Hgt]; [assumption|].
    assert (2 ^ t < 2 ^ Z.log2 x) by (apply Z.pow_lt_mono_r; lia). lia.
  - split; [lia|]. intros t Ht Hxt.
    destruct (Z.le_gt_cases (Z.log2 x + 1) t) as [|Hgt]; [assumption|].
    assert (2 ^ t <= 2 ^ Z.log2 x) by (apply Z.pow_le_mono_r; lia). lia.
Qed.

Lemma fittingShift_least_witness :
  1000 <= 2 ^ fittingShift 1000 /\
  forall t, 0 <= t -> 1000 <= 2 ^ t -> fittingShift 1000 <= t.
Proof.
  apply (fittingShift_least 1000). split; [lia|reflexivity].
Defined.

(** X3.  On a well-formed pool, for size 0 and for every size from 2 to
    2^62: a buffer that [Get] returns has the size asked for as its
    [payloadLen] and a [Bytes()] of exactly that many bytes; [Get] returns
    for every such size up to 2^48, the runtime's bound on one allocation;
    for a size above that bound it panics in [make] when the pool stores no
    buffer. *)
Theorem Get_payload_view (p : Pool) (n : Z) :
  Pool_wf p -> n = 0 \/ 2 <= n <= 2 ^ 62 ->
  (forall p' b,
     Get p n = Ret (p', b) ->
     payloadLen b = n /\ exists bs, Bytes b = Ret bs /\ len bs = n) /\
  (n <= 2 ^ 48 -> exists p' b, Get p n = Ret (p', b)) /\
  (2 ^ 48 < n -> (forall sub, In sub (pools p) -> bufs sub = []) ->
   Get p n = Panic "makeslice: len out of range").
Proof.
  intros Hwf Hn. split; [|split].
  - intros p' b. apply Get_view; assumption.
  - intros Hle. apply Get_returns; [exact Hwf|].
    destruct Hn as [->|Hn]; [left; reflexivity|right; lia].
  - intros Hover Hempty. destruct Hn as [->|Hn]; [cbn in Hover; lia|].
    destruct (fittingShift_spec n Hn) as [Hs Hpow].
    assert (Hbig : maxAlloc < 2 ^ fittingShift n) by (unfold maxAlloc; lia).
    destruct Hwf as (Hmin & Hle & Hmax & Hlen & Hsub).
    unfold Get.
    destruct (Z.eqb_spec (fittingShift n) 0); [lia|].
    destruct ((fittingShift n <? minShift p) || (fittingShift n >? maxShift p))
      eqn:Hout.
    + rewrite shl1_int_small, make_bytes_over by lia. reflexivity.
    + apply orb_false_iff in Hout. destruct Hout as [H1 H2].
      apply Z.ltb_ge in H1. rewrite Z.gtb_ltb in H2. apply Z.ltb_ge in H2.
      destruct (nth_error (pools p) (Z.to_nat (fittingShift n - minShift p)))
        as [sub|] eqn:Hnth.
      * destruct (Hsub _ _ Hnth) as [Hshift _].
        rewrite Z2Nat.id in Hshift by lia.
        unfold pool_Get. rewrite (Hempty sub (nth_error_In _ _ Hnth)).
        cbn [len List.length Z.of_nat Z.gtb Z.compare].
        replace (shift sub) with (fittingShift n) by lia.
        rewrite shl1_int_small, make_bytes_over by lia. reflexivity.
      * apply nth_error_None in Hnth. unfold len in Hlen. lia.
Qed.

Lemma small_size (n : Z) : 2 <= n <= 4611686018427387904 -> n = 0 \/ 2 <= n <= 2 ^ 62.
Proof. intros Hn. right. exact Hn. Defined.

Lemma Get_payload_view_witness :
  (forall p' b,
     Get (New 0 2 4) 5 = Ret (p', b) ->
     payloadLen b = 5 /\ exists bs, Bytes b = Ret bs /\ len bs = 5) /\
  (5 <= 2 ^ 48 -> exists p' b, Get (New 0 2 4) 5 = Ret (p', b)) /\
  (2 ^ 48 < 5 -> (forall sub, In sub (pools (New 0 2 4)) -> bufs sub = []) ->
   Get (New 0 2 4) 5 = Panic "makeslice: len out of range").
Proof.
  apply (Get_payload_view (New 0 2 4) 5).
  - apply New_wf; lia.
  - apply small_size. lia.
Defined.

(** [Get] at the two sides of the bound, on the pool of [WriteStream]. *)
Example Get_at_the_bound :
  (exists b, Get (New 0 19 19) (2 ^ 48) = Ret (New 0 19 19, b) /\
             payloadLen b = 2 ^ 48) /\
  Get (New 0 19 19) (2 ^ 48 + 1) = Panic "makeslice: len out of range".
Proof.
  split.
  - destruct (Get_returns (New 0 19 19) (2 ^ 48)) as (p' & b & Hget);
      [apply New_wf; lia|right; lia|].
    destruct (Get_view (New 0 19 19) p' (2 ^ 48) b) as [Hpl _];
      [apply New_wf; lia|right; lia|exact Hget|].
    exists b. split; [|exact Hpl].
    revert Hget. unfold Get.
    replace (fittingShift (2 ^ 48)) with 48 by reflexivity.
    cbn [Z.eqb minShift maxShift New Z.ltb Z.gtb Z.compare Pos.compare
         Pos.compare_cont orb].
    destruct (make_bytes (shl1_int 48)); cbn [bind]; intros Hg;
      try discriminate.
    injection Hg as <- <-. reflexivity.
  - reflexivity.
Qed.

Lemma nth_error_set_nth_eq {A : Type} (l : list A) :
  forall (i : nat) (x y : A),
    nth_error l i = Some y -> nth_error (set_nth i x l) i = Some x.
Proof.
  induction l as [|h t IH]; intros [|i] x y Hn; cbn in *; try discriminate.
  - reflexivity.
  - eapply IH; eassumption.
Qed.

Lemma nth_error_set_nth_neq {A : Type} (l : list A) :
  forall (i j : nat) (x : A),
    i <> j -> nth_error (set_nth i x l) j = nth_error l j.
Proof.
  induction l as [|h t IH]; intros [|i] [|j] x Hij; cbn; try reflexivity.
  - contradiction.
  - apply IH. congruence.
Qed.

Lemma length_set_nth {A : Type} (l : list A) :
  forall (i : nat) (x : A), List.length (set_nth i x l) = List.length l.
Proof.
  induction l as [|h t IH]; intros [|i] x; cbn; try reflexivity.
  rewrite IH. reflexivity.
Qed.

(** Replacing a sub-pool by a well-formed one of the same shift keeps the
    pool well-formed. *)
Lemma Pool_wf_set_nth (p : Pool) (i : nat) (sub sub' : pool) :
  Pool_wf p -> nth_error (pools p) i = Some sub ->
  shift sub' = shift sub -> pool_wf sub' ->
  Pool_wf (mkPool (addr p) (minShift p) (maxShift p) (set_nth i sub' (pools p))).
Proof.
  intros (H0 & H1 & H2 & Hlen & Hsub) Hnth Hshift Hwf.
  unfold Pool_wf. cbn [minShift maxShift pools].
  repeat (split; [assumption|]). split.
  - unfold len in *. rewrite length_set_nth. exact Hlen.
  - intros j s Hj. destruct (Nat.eq_dec i j) as [<-|Hij].
    + rewrite (nth_error_set_nth_eq _ _ _ _ Hnth) in Hj. injection Hj as <-.
      split; [|exact Hwf]. rewrite Hshift. exact (proj1 (Hsub _ _ Hnth)).
    + rewrite nth_error_set_nth_neq in Hj by exact Hij. exact (Hsub _ _ Hj).
Qed.

Lemma pool_Get_wf (sub sub' : pool) (b : list byte) :
  pool_wf sub -> pool_Get sub = Ret (sub', b) ->
  shift sub' = shift sub /\ pool_wf sub'.
Proof.
  unfold pool_Get, pool_wf. intros Hwf Hget.
  destruct (len (bufs sub) >? 0).
  - injection Hget as <- _. cbn [shift bufs]. split; [reflexivity|].
    destruct (bufs sub) as [|x l] eqn:Hb; [constructor|].
    destruct (exists_last (l := x :: l) ltac:(discriminate)) as [l' [a Hl]].
    rewrite Hl in *. rewrite removelast_last.
    apply Forall_app in Hwf. exact (proj1 Hwf).
  - destruct (make_bytes (shl1_int (shift sub))); cbn [bind] in Hget;
      try discriminate.
    injection Hget as <- _. split; [reflexivity|exact Hwf].
Qed.

Lemma pool_Put_wf (sub sub' : pool) (b : list byte) :
  pool_wf sub -> pool_Put sub b = Ret sub' ->
  shift sub' = shift sub /\ pool_wf sub'.
Proof.
  unfold pool_Put, pool_wf. intros Hwf Hput.
  destruct (Z.eqb_spec (len b) (shl1_int (shift sub))) as [Hlen|];
    cbn [negb] in Hput; [|discriminate].
  destruct (len (bufs sub) >? 10); injection Hput as <-.
  - split; [reflexivity|exact Hwf].
  - cbn [shift bufs]. split; [reflexivity|].
    apply Forall_app. split; [exact Hwf|]. constructor; [exact Hlen|constructor].
Qed.

(** [Get] and [Free] on a well-formed pool. *)
Lemma Get_Free_wf (p : Pool) :
  Pool_wf p ->
  (forall n p' b, Get p n = Ret (p', b) -> Pool_wf p') /\
  (forall b p', Free b p = Ret p' -> Pool_wf p').
Proof.
  intros Hwf. split.
  - intros n p' b. unfold Get.
    destruct (fittingShift n =? 0); [intros Hg; injection Hg as <- _; exact Hwf|].
    destruct ((fittingShift n <? minShift p) || (fittingShift n >? maxShift p)).
    + destruct (make_bytes (shl1_int (fittingShift n))); cbn [bind];
        intros Hg; try discriminate. injection Hg as <- _. exact Hwf.
    + destruct (nth_error (pools p) (Z.to_nat (fittingShift n - minShift p)))
        as [sub|] eqn:Hnth; [|discriminate].
      destruct (pool_Get sub) as [[sub' buf]| |] eqn:Hget; cbn [bind];
        intros Hg; try discriminate. injection Hg as <- _.
      destruct Hwf as (H0 & H1 & H2 & Hlen & Hsub).
      destruct (pool_Get_wf sub sub' buf (proj2 (Hsub _ _ Hnth)) Hget) as [Hs Hw].
      apply (Pool_wf_set_nth p _ sub sub'); try assumption.
      repeat (split; [assumption|]). exact Hsub.
  - intros b p'. unfold Free, put.
    destruct (bpool b) as [a|]; [|intros Hf; injection Hf as <-; exact Hwf].
    destruct (Nat.eqb a (addr p)); cbn [negb]; [|discriminate].
    destruct (bits_OnesCount (len (shiftBuf b)) >? 1); [discriminate|].
    destruct (len (shiftBuf b) =? 0); [intros Hf; injection Hf as <-; exact Hwf|].
    destruct ((fittingShift (len (shiftBuf b)) <? minShift p)
              || (fittingShift (len (shiftBuf b)) >? maxShift p));
      [intros Hf; injection Hf as <-; exact Hwf|].
    destruct (nth_error (pools p)
                (Z.to_nat (fittingShift (len (shiftBuf b)) - minShift p)))
      as [sub|] eqn:Hnth; [|discriminate].
    destruct (pool_Put sub (shiftBuf b)) as [sub'| |] eqn:Hput; cbn [bind];
      intros Hf; try discriminate. injection Hf as <-.
    pose proof Hwf as (H0 & H1 & H2 & Hlen & Hsub).
    destruct (pool_Put_wf sub sub' _ (proj2 (Hsub _ _ Hnth)) Hput) as [Hs Hw].
    apply (Pool_wf_set_nth p _ sub sub'); assumption.
Qed.

(** X4.  [Get] and [Free] keep the pool well-formed: every sub-pool keeps
    its shift, and every buffer stored in it has the size of that shift. *)
Theorem Get_Free_keep_wf (p : Pool) :
  Pool_wf p ->
  (forall n p' b, Get p n = Ret (p', b) -> Pool_wf p') /\
  (forall b p', Free b p = Ret p' -> Pool_wf p').
Proof. exact (Get_Free_wf p). Qed.

Lemma Get_Free_keep_wf_witness :
  (forall n p' b, Get (New 0 19 19) n = Ret (p', b) -> Pool_wf p') /\
  (forall b p', Free b (New 0 19 19) = Ret p' -> Pool_wf p').
Proof.
  apply (Get_Free_keep_wf (New 0 19 19)). apply New_wf; lia.
Defined.

Lemma OnesCount_pow2 (k : nat) : bits_OnesCount (2 ^ Z.of_nat k) = 1.
Proof.
  induction k as [|k IH]; [reflexivity|].
  rewrite Nat2Z.inj_succ, Z.pow_succ_r by lia.
  assert (Hpos : 0 < 2 ^ Z.of_nat k) by (apply Z.pow_pos_nonneg; lia).
  destruct (2 ^ Z.of_nat k) as [|q|q]; try lia. exact IH.
Qed.

Lemma OnesCount_pow2_Z (s : Z) : 0 <= s -> bits_OnesCount (2 ^ s) = 1.
Proof. intros Hs. rewrite <- (Z2Nat.id s Hs). apply OnesCount_pow2. Qed.

Lemma set_nth_same {A : Type} (l : list A) :
  forall (i : nat) (x : A), nth_error l i = Some x -> set_nth i x l = l.
Proof.
  induction l as [|h t IH]; intros [|i] x Hn; cbn in *; try discriminate.
  - congruence.
  - rewrite IH by exact Hn. reflexivity.
Qed.

Lemma set_nth_twice {A : Type} (l : list A) :
  forall (i : nat) (x y : A), set_nth i x (set_nth i y l) = set_nth i x l.
Proof.
  induction l as [|h t IH]; intros [|i] x y; cbn; try reflexivity.
  rewrite IH. reflexivity.
Qed.

(** A buffer of this pool whose storage has the size of an in-range shift
    goes back into the sub-pool of that shift. *)
Lemma put_stores (p : Pool) (b : Buffer) (s : Z) (sub : pool) :
  Pool_wf p -> bpool b = Some (addr p) ->
  len (shiftBuf b) = 2 ^ s -> minShift p <= s <= maxShift p ->
  nth_error (pools p) (Z.to_nat (s - minShift p)) = Some sub ->
  put p b =
    Ret (mkPool (addr p) (minShift p) (maxShift p)
           (set_nth (Z.to_nat (s - minShift p))
              (if len (bufs sub) >? 10 then sub
               else mkpool (bufs sub ++ [shiftBuf b]) (shift sub))
              (pools p))).
Proof.
  intros (H0 & H1 & H2 & Hlen & Hsub) Hb Hsize Hs Hnth.
  unfold put. rewrite Hb, Nat.eqb_refl. cbn [negb].
  rewrite Hsize, OnesCount_pow2_Z by lia.
  change (1 >? 1) with false. cbv iota.
  assert (0 < 2 ^ s) by (apply Z.pow_pos_nonneg; lia).
  destruct (Z.eqb_spec (2 ^ s) 0); [lia|].
  rewrite fittingShift_pow2 by lia.
  destruct (Z.ltb_spec s (minShift p)); [lia|].
  destruct (Z.gtb_spec s (maxShift p)); [lia|].
  cbn [orb]. rewrite Hnth.
  destruct (Hsub _ _ Hnth) as [Hshift _].
  rewrite Z2Nat.id in Hshift by lia.
  unfold pool_Put. rewrite Hsize, Hshift.
  replace (minShift p + (s - minShift p)) with s by lia.
  rewrite shl1_int_small, Z.eqb_refl by lia. cbn [negb].
  destruct (len (bufs sub) >? 10); reflexivity.
Qed.

(** X5.  A buffer obtained from a well-formed pool can be freed: [Free] on
    the buffer that [Get] returned does not panic, for size 0 and for every
    size from 2 to 2^62. *)
Theorem Free_after_Get (p p1 : Pool) (n : Z) (b : Buffer) :
  Pool_wf p -> n = 0 \/ 2 <= n <= 2 ^ 62 ->
  Get p n = Ret (p1, b) ->
  exists p2, Free b p1 = Ret p2.
Proof.
  intros Hwf Hn Hget.
  pose proof (proj1 (Get_Free_wf p Hwf) n p1 b Hget) as Hwf1.
  revert Hget. unfold Get.
  destruct Hn as [->|Hn].
  { cbn. intros Hg. injection Hg as <- <-. cbn. eauto. }
  destruct (fittingShift_spec n Hn) as [Hs Hpow].
  destruct (Z.eqb_spec (fittingShift n) 0); [lia|].
  destruct ((fittingShift n <? minShift p) || (fittingShift n >? maxShift p))
    eqn:Hout.
  - destruct (make_bytes (shl1_int (fittingShift n))); cbn [bind];
      intros Hg; try discriminate. injection Hg as <- <-. cbn. eauto.
  - apply orb_false_iff in Hout. destruct Hout as [Hlo Hhi].
    apply Z.ltb_ge in Hlo. rewrite Z.gtb_ltb in Hhi. apply Z.ltb_ge in Hhi.
    destruct (nth_error (pools p) (Z.to_nat (fittingShift n - minShift p)))
      as [sub|] eqn:Hnth; [|discriminate].
    destruct Hwf as (H0 & H1 & H2 & Hlen & Hsub).
    destruct (Hsub _ _ Hnth) as [Hshift Hsubwf].
    rewrite Z2Nat.id in Hshift by lia.
    destruct (pool_Get sub) as [[sub' buf]| |] eqn:Hpg; cbn [bind];
      intros Hg; try discriminate.
    pose proof (pool_Get_len sub sub' buf Hsubwf ltac:(lia) Hpg) as Hbl.
    injection Hg as <- <-.
    unfold Free. cbn [bpool].
    eexists. apply (put_stores _ _ (fittingShift n) sub').
    + exact Hwf1.
    + reflexivity.
    + cbn [shiftBuf]. rewrite Hbl. f_equal. lia.
    + cbn [minShift maxShift]. lia.
    + cbn [pools minShift]. eapply nth_error_set_nth_eq. exact Hnth.
Qed.

Lemma Free_after_Get_witness :
  exists p2,
    Free (mkBuffer [x00; x00; x00; x00] 3 (Some 0%nat)) (New 0 2 2) = Ret p2.
Proof.
  apply (Free_after_Get (New 0 2 2) (New 0 2 2) 3
           (mkBuffer [x00; x00; x00; x00] 3 (Some 0%nat))).
  - apply New_wf; lia.
  - apply small_size. lia.
  - reflexivity.
Defined.

(** X6.  Buffers are recycled last in, first out.  When a buffer of this
    pool with in-range storage is freed into a sub-pool that holds at most
    10 buffers, the next [Get] of a size with that shift returns the same
    storage and leaves the pool as it was before the [Free]. *)
Theorem Free_then_Get (p : Pool) (b : Buffer) (s n : Z) (sub : pool) :
  Pool_wf p -> bpool b = Some (addr p) ->
  len (shiftBuf b) = 2 ^ s -> minShift p <= s <= maxShift p ->
  nth_error (pools p) (Z.to_nat (s - minShift p)) = Some sub ->
  len (bufs sub) <= 10 ->
  fittingShift n = s -> s <> 0 ->
  exists p1,
    Free b p = Ret p1 /\
    Get p1 n = Ret (p, mkBuffer (shiftBuf b) n (Some (addr p))).
Proof.
  intros Hwf Hb Hsize Hs Hnth Hfew Hn Hs0.
  eexists. split.
  - unfold Free. rewrite Hb. exact (put_stores p b s sub Hwf Hb Hsize Hs Hnth).
  - destruct (Z.gtb_spec (len (bufs sub)) 10); [lia|].
    unfold Get. rewrite Hn. cbn [minShift maxShift pools addr].
    destruct (Z.eqb_spec s 0); [contradiction|].
    destruct (Z.ltb_spec s (minShift p)); [lia|].
    rewrite Z.gtb_ltb. destruct (Z.ltb_spec (maxShift p) s); [lia|].
    cbn [orb]. rewrite (nth_error_set_nth_eq _ _ _ _ Hnth).
    unfold pool_Get. cbn [bufs shift].
    replace (len (bufs sub ++ [shiftBuf b]) >? 0) with true.
    + rewrite last_last, removelast_last. cbn [bind].
      rewrite set_nth_twice.
      replace (mkpool (bufs sub) (shift sub)) with sub by (destruct sub; reflexivity).
      rewrite (set_nth_same _ _ _ Hnth). destruct p; reflexivity.
    + symmetry. apply Z.gtb_lt. unfold len. rewrite length_app.
      cbn [List.length]. lia.
Qed.

Lemma Free_then_Get_witness :
  exists p1,
    Free (mkBuffer [x01; x02; x03; x04] 3 (Some 0%nat)) (New 0 2 2) = Ret p1 /\
    Get p1 4 =
      Ret (New 0 2 2,
           mkBuffer (shiftBuf (mkBuffer [x01; x02; x03; x04] 3 (Some 0%nat))) 4
                    (Some (addr (New 0 2 2)))).
Proof.
  apply (Free_then_Get (New 0 2 2) (mkBuffer [x01; x02; x03; x04] 3 (Some 0%nat))
           2 4 (mkpool [] 2)).
  - apply New_wf; lia.
  - reflexivity.
  - reflexivity.
  - cbn. lia.
  - reflexivity.
  - cbn. lia.
  - reflexivity.
  - lia.
Defined.

(** X7.  Whatever sequence of [Put] and [Get] runs on a sub-pool that starts
    empty, the sub-pool holds at most 11 buffers afterwards. *)
Theorem sub_pool_bound (s : Z) (ops : list pool_op) (p' : pool) :
  pool_run (mkpool [] s) ops = Ret p' -> len (bufs p') <= 11.
Proof.
  intros Hrun. apply (pool_run_bound ops (mkpool [] s) p' Hrun).
  cbn. lia.
Qed.

Lemma sub_pool_bound_witness :
  len (bufs (mkpool (repeat [x00; x00] 11) 1)) <= 11.
Proof.
  apply (sub_pool_bound 1 (repeat (OpPut [x00; x00]) 12 ++ [OpGet; OpPut [x00; x00]])
           (mkpool (repeat [x00; x00] 11) 1)).
  vm_compute. reflexivity.
Defined.

(** X8.  [Shrink] to a length that does not exceed the payload narrows the
    view to a prefix and keeps storage and back reference; to a greater
    length it panics, and the text of the panic names the length asked for
    and the payload's length, in decimal. *)
Theorem Shrink_view (b : Buffer) (n : Z) (bs : list byte) :
  0 <= n -> Bytes b = Ret bs ->
  (n <= payloadLen b ->
   exists b',
     Shrink b n = Ret b' /\ Bytes b' = Ret (firstn (Z.to_nat n) bs) /\
     shiftBuf b' = shiftBuf b /\ bpool b' = bpool b) /\
  (payloadLen b < n ->
   Shrink b n =
   Panic ("shrink is actually an expand, invalid: " ++ fmt_int n ++ " "
          ++ fmt_int (payloadLen b))).
Proof.
  intros Hn Hbytes. unfold Shrink. split; intros Hle.
  - destruct (Z.gtb_spec n (payloadLen b)); [lia|].
    eexists. split; [reflexivity|]. cbn [shiftBuf bpool].
    split; [|split; reflexivity].
    revert Hbytes. unfold Bytes. cbn [payloadLen shiftBuf].
    destruct (Z.gtb_spec (payloadLen b) (len (shiftBuf b))); [discriminate|].
    intros Hb. injection Hb as <-.
    destruct (Z.gtb_spec n (len (shiftBuf b))); [lia|].
    rewrite firstn_firstn. f_equal. f_equal. lia.
  - destruct (Z.gtb_spec n (payloadLen b)); [reflexivity|lia].
Qed.

Lemma Shrink_view_witness :
  (2 <= payloadLen (mkBuffer [x01; x02; x03; x04] 3 None) ->
   exists b',
     Shrink (mkBuffer [x01; x02; x03; x04] 3 None) 2 = Ret b' /\
     Bytes b' = Ret (firstn (Z.to_nat 2) [x01; x02; x03]) /\
     shiftBuf b' = shiftBuf (mkBuffer [x01; x02; x03; x04] 3 None) /\
     bpool b' = bpool (mkBuffer [x01; x02; x03; x04] 3 None)) /\
  (payloadLen (mkBuffer [x01; x02; x03; x04] 3 None) < 2 ->
   Shrink (mkBuffer [x01; x02; x03; x04] 3 None) 2 =
   Panic ("shrink is actually an expand, invalid: " ++ fmt_int 2 ++ " "
          ++ fmt_int (payloadLen (mkBuffer [x01; x02; x03; x04] 3 None)))).
Proof.
  apply (Shrink_view (mkBuffer [x01; x02; x03; x04] 3 None) 2 [x01; x02; x03]).
  - lia.
  - reflexivity.
Defined.

Example Shrink_to_more :
  Shrink (mkBuffer [x01; x02; x03; x04] 3 None) 4 =
  Panic "shrink is actually an expand, invalid: 4 3".
Proof. reflexivity. Qed.

End base2bufpool_more.

(** ** stream, continued *)
Module stream_more.
Import stream stream_facts.

#[local] Opaque bufferLen.

(** X9.  The frames of a source that ends cleanly, on a reliable
    connection: [len(S) / 2^19] frames of type [stype] with a full buffer
    each, one frame of type [stype] with the remaining bytes (fewer than
    2^19, possibly none), and the empty [SourceEOF] frame; the payloads
    in this order are [S]. *)
Theorem WriteStream_frame_layout (depth : nat) (c : Pipe) (S : list byte)
    (stype : Z) :
  stype <> 0 -> (1 <= depth)%nat ->
  exists (full : list (list byte)) (lastb : list byte),
    WriteStream depth c (mkReader S io_EOF) stype =
      Ret (c ++ map (mkFrame stype) full
             ++ [mkFrame stype lastb; mkFrame SourceEOF []], None) /\
    List.concat full ++ lastb = S /\
    Forall (fun b => List.length b = bufferLen) full /\
    (List.length lastb < bufferLen)%nat /\
    List.length full = (List.length S / bufferLen)%nat.
Proof.
  intros Hst Hd. destruct depth as [|depth]; [lia|].
  destruct (producer_layout (Datatypes.S (List.length S)) (mkReader S io_EOF))
    as (full & lastb & Hprod & Hcat & Hall & Hlast & _); [cbn [pending]; lia|].
  exists full, lastb. cbn [pending final normalized] in *.
  split; [|split; [exact Hcat|split; [exact Hall|split; [exact Hlast|]]]].
  - cbn [WriteStream]. destruct (Z.eqb_spec stype 0); [contradiction|].
    cbn [pending]. rewrite Hprod. cbn [bind].
    rewrite consumer_full, consumer_EOF, <- app_assoc. reflexivity.
  - rewrite <- Hcat, length_app, length_concat_full by exact Hall.
    apply Nat.div_unique with (r := List.length lastb); [exact Hlast|].
    lia.
Qed.

Lemma WriteStream_frame_layout_witness :
  exists (full : list (list byte)) (lastb : list byte),
    WriteStream 1 ([] : Pipe) (mkReader [x01; x02] io_EOF) 7 =
      Ret ([] ++ map (mkFrame 7) full
              ++ [mkFrame 7 lastb; mkFrame SourceEOF []], None) /\
    List.concat full ++ lastb = [x01; x02] /\
    Forall (fun b => List.length b = bufferLen) full /\
    (List.length lastb < bufferLen)%nat /\
    List.length full = (List.length [x01; x02] / bufferLen)%nat.
Proof.
  apply (WriteStream_frame_layout 1 [] [x01; x02] 7); lia.
Defined.

Section AnyConn.
Context {C : Type} `{FrameConn C}.

Lemma producer_UnexpectedEOF (fuel : nat) :
  forall S : list byte,
    producer fuel (mkReader S io_ErrUnexpectedEOF) =
    producer fuel (mkReader S io_EOF).
Proof.
  induction fuel as [|fuel IH]; intros S; [reflexivity|].
  cbn [producer]. unfold io_ReadFull. cbn [pending final].
  destruct (Nat.leb bufferLen (List.length S)).
  - rewrite IH. reflexivity.
  - destruct S; reflexivity.
Qed.

(** X10.  A source that fails with [io.ErrUnexpectedEOF] is written exactly
    like a source that ends cleanly after the same bytes: no error trailer
    is sent for it. *)
Theorem UnexpectedEOF_is_clean_end (depth : nat) (c : C) (S : list byte)
    (stype : Z) :
  WriteStream depth c (mkReader S io_ErrUnexpectedEOF) stype =
  WriteStream depth c (mkReader S io_EOF) stype.
Proof.
  destruct depth as [|depth]; [reflexivity|].
  cbn [WriteStream pending]. rewrite producer_UnexpectedEOF. reflexivity.
Qed.

End AnyConn.

(** The frames of a source that fails, on a reliable connection. *)
Lemma WriteStream_error_frames (depth : nat) (c : Pipe) (data : list byte)
    (e : error) (stype : Z) :
  stype <> 0 -> e <> io_EOF -> e <> io_ErrUnexpectedEOF ->
  exists full dropped chunks,
    List.concat full ++ dropped = data /\
    Forall (fun b => List.length b = bufferLen) full /\
    (List.length dropped < bufferLen)%nat /\
    WriteStream (S (S depth)) c (mkReader data e) stype =
      Ret (c ++ map (mkFrame stype) full
             ++ mkFrame SourceErr
                  (firstn bufferLen (list_byte_of_string (Error e)))
             :: map (mkFrame SourceErr) chunks ++ [mkFrame SourceEOF []],
           None).
Proof.
  intros Hst HnE HnU.
  destruct (producer_layout (S (List.length data)) (mkReader data e)) as
    (full & lastb & Hprod & Hcat & Hall & Hlast & _); [cbn [pending]; lia|].
  destruct (WriteStream_clean depth (c ++ map (mkFrame stype) full)
              (strings_NewReader (Error e)) SourceErr)
    as (chunks & first & Hw & _ & Hfirst);
    [rewrite SourceErr_value; lia|reflexivity|].
  subst first.
  exists full, lastb, chunks.
  split; [exact Hcat|]. split; [exact Hall|]. split; [exact Hlast|].
  change (WriteStream (S (S depth)) c (mkReader data e) stype)
    with (if stype =? 0 then Panic EmptyString
          else reads <- producer (S (List.length (pending (mkReader data e))))
                                 (mkReader data e) ;;
               consumer (WriteStream (S depth)) c reads stype).
  destruct (Z.eqb_spec stype 0); [contradiction|].
  cbn [pending]. rewrite Hprod. cbn [bind final].
  rewrite consumer_full.
  assert (Hn : normalized e = e) by (destruct e; reflexivity || contradiction).
  rewrite Hn.
  assert (Hsrc : is_source_error (Some e) = true)
    by (destruct e; reflexivity || contradiction).
  cbn [consumer err buf]. rewrite Hsrc, Hw. cbn [bind map app pending].
  rewrite <- app_assoc. reflexivity.
Qed.

Section Receive.
Variable strconv_Quote : string -> string.
Variable ahead : nat.

(** X11.  After a source error the frames of type [stype] are the buffers
    of 2^19 bytes that the source filled before it failed, [len(data) / 2^19]
    of them; the bytes read after the last full buffer, fewer than 2^19, are
    not sent.  The first [SourceErr] frame carries the first 2^19 bytes of
    the error's text, and they are all that [ReadStream] reports;
    [ReadStream] returns at that frame and leaves the rest of the trailer,
    at least the closing [SourceEOF] frame, unread on the connection. *)
Theorem error_stream_shape (data : list byte) (e : error) (stype : Z)
    (depth : nat) (w : list byte) :
  stype <> 0 -> stype <> SourceEOF -> stype <> SourceErr ->
  e <> io_EOF -> e <> io_ErrUnexpectedEOF -> (2 <= depth)%nat ->
  exists (full : list (list byte)) (dropped : list byte) (unread : Pipe),
    data = List.concat full ++ dropped /\
    Forall (fun b => List.length b = bufferLen) full /\
    List.length full = (List.length data / bufferLen)%nat /\
    List.length dropped = (List.length data mod bufferLen)%nat /\
    WriteStream depth ([] : Pipe) (mkReader data e) stype =
      Ret (map (mkFrame stype) full
             ++ mkFrame SourceErr
                  (firstn bufferLen (list_byte_of_string (Error e)))
             :: unread ++ [mkFrame SourceEOF []], None) /\
    forall fuel : nat,
      (List.length full < fuel)%nat ->
      ReadStream strconv_Quote ahead fuel
        (map (mkFrame stype) full
           ++ mkFrame SourceErr
                (firstn bufferLen (list_byte_of_string (Error e)))
           :: unread ++ [mkFrame SourceEOF []])
        w stype =
      Ret (unread ++ [mkFrame SourceEOF []], w ++ List.concat full,
           Some (errors_New
                   ("stream error: "
                    ++ strconv_Quote
                         (string_of_list_byte
                            (firstn bufferLen
                               (list_byte_of_string (Error e))))))).
Proof.
  intros H0 HE HR HnE HnU Hd.
  destruct depth as [|[|depth]]; try lia.
  destruct (WriteStream_error_frames depth [] data e stype H0 HnE HnU)
    as (full & dropped & chunks & Hcat & Hall & Hlast & Hw).
  exists full, dropped, (map (mkFrame SourceErr) chunks).
  assert (Hlen : List.length data
                 = (bufferLen * List.length full + List.length dropped)%nat).
  { rewrite <- Hcat, length_app, length_concat_full by exact Hall. lia. }
  split; [symmetry; exact Hcat|]. split; [exact Hall|].
  split; [exact (Nat.div_unique _ _ _ _ Hlast Hlen)|].
  split; [exact (Nat.mod_unique _ _ _ _ Hlast Hlen)|].
  split; [exact Hw|].
  intros fuel Hfuel.
  rewrite ReadStream_data; try assumption.
  - unfold trailer. cbn [Header_Type Buffer_Bytes].
    rewrite Z.eqb_refl.
    replace (SourceErr =? SourceEOF) with false by reflexivity.
    reflexivity.
  - cbn [Header_Type]. congruence.
Qed.

(** X13.  When a frame of another type than [stype], [SourceEOF] and
    [SourceErr] follows the data frames, [ReadStream] has written the data
    to the sink and returns the error that names the type in decimal.  Of
    the frames behind that frame the reader task has taken at most two,
    which are lost; the others are still on the connection. *)
Theorem unexpected_frame_type (stype t : Z) (payload : list byte)
    (chunks : list (list byte)) (rest : Pipe) (w : list byte) (fuel : nat) :
  stype <> SourceEOF -> stype <> SourceErr ->
  t <> stype -> t <> SourceEOF -> t <> SourceErr ->
  (List.length chunks < fuel)%nat ->
  exists (taken left : list Frame),
    rest = taken ++ left /\ (List.length taken <= 2)%nat /\
    (List.length taken <= ahead)%nat /\
    ReadStream strconv_Quote ahead fuel
      (map (mkFrame stype) chunks ++ mkFrame t payload :: rest) w stype =
    Ret (left, w ++ List.concat chunks,
         Some (errors_New ("received unexpected frame type: " ++ fmt_v t))).
Proof.
  intros HE HR Ht HtE HtR Hfuel.
  destruct (reader_task_Pipe (Nat.min ahead 2) rest) as (taken & Hrest & Hlen).
  exists taken, (reader_task (Nat.min ahead 2) rest).
  split; [exact Hrest|]. split; [lia|]. split; [lia|].
  rewrite ReadStream_data; try assumption.
  unfold trailer, left_behind, closes. cbn [Header_Type].
  destruct (Z.eqb_spec t SourceEOF); [contradiction|].
  destruct (Z.eqb_spec t SourceErr); [contradiction|].
  reflexivity.
Qed.

Section AnyEnds.
Context {C : Type} `{FrameConn C} {W : Type} `{Writer W}.

(** X12.  Whatever the connection and the sink do, [ReadStream] returns nil
    only when the last frame it has read is of type [SourceEOF]. *)
Theorem ReadStream_nil_after_SourceEOF (fuel : nat) :
  forall (c c' : C) (w w' : W) (stype : Z),
    ReadStream strconv_Quote ahead fuel c w stype = Ret (c', w', None) ->
    exists c0 f,
      ReadFrame c0 = (c', (f, None)) /\ Header_Type f = SourceEOF.
Proof.
  induction fuel as [|fuel IH]; intros c c' w w' stype Hrun;
    cbn [ReadStream] in Hrun; [discriminate|].
  destruct (ReadFrame c) as [c1 [f [e|]]] eqn:Hread; [discriminate|].
  assert (Htrailer : forall c2 w0,
            c2 = c1 \/ c2 = left_behind ahead f c1 ->
            Ret (c2, w0, trailer strconv_Quote f) = Ret (c', w', None) ->
            exists c0 f0,
              ReadFrame c0 = (c', (f0, None)) /\ Header_Type f0 = SourceEOF).
  { intros c2 w0 Hc2 Ht. injection Ht as <- _ Ht. unfold trailer in Ht.
    destruct (Z.eqb_spec (Header_Type f) SourceEOF) as [Heof|];
      [|destruct (Header_Type f =? SourceErr); discriminate].
    exists c, f. split; [|exact Heof].
    destruct Hc2 as [->| ->]; [exact Hread|].
    unfold left_behind, closes. rewrite Heof, Z.eqb_refl. exact Hread. }
  destruct (negb (Header_Type f =? stype));
    [exact (Htrailer _ _ (or_intror eq_refl) Hrun)|].
  destruct (Write w (Buffer_Bytes f)) as [w1 [n [e|]]]; [discriminate|].
  destruct (negb (n =? len (Buffer_Bytes f))); [discriminate|].
  destruct (closes f); [exact (Htrailer _ _ (or_introl eq_refl) Hrun)|].
  exact (IH _ _ _ _ _ Hrun).
Qed.

End AnyEnds.

(** The data frames into a sink with limited room. *)
Lemma ReadStream_Limited (stype : Z) (f : Frame) (rest : Pipe)
    (chunks : list (list byte)) :
  stype <> SourceEOF -> stype <> SourceErr -> Header_Type f <> stype ->
  forall (fuel : nat) (st : list byte) (r : nat),
    (List.length chunks < fuel)%nat ->
    ((List.length (List.concat chunks) <= r)%nat ->
     ReadStream strconv_Quote ahead fuel (map (mkFrame stype) chunks ++ f :: rest)
       (mkLimited st r) stype =
     Ret (left_behind ahead f rest,
          mkLimited (st ++ List.concat chunks)
                    (r - List.length (List.concat chunks)),
          trailer strconv_Quote f)) /\
    ((r < List.length (List.concat chunks))%nat ->
     exists c',
       ReadStream strconv_Quote ahead fuel (map (mkFrame stype) chunks ++ f :: rest)
         (mkLimited st r) stype =
       Ret (c', mkLimited (st ++ firstn r (List.concat chunks)) 0,
            Some io_ErrShortWrite)).
Proof.
  intros HnE HnR Hf.
  induction chunks as [|b chunks IH]; intros fuel st r Hfuel;
    (destruct fuel as [|fuel]; [cbn [List.length] in Hfuel; lia|]).
  - split; [|cbn; lia]. intros _.
    cbn [map app ReadStream ReadFrame Pipe_FrameConn List.concat List.length].
    destruct (Z.eqb_spec (Header_Type f) stype); [contradiction|].
    cbn [negb]. rewrite app_nil_r, Nat.sub_0_r. reflexivity.
  - cbn [List.concat]. rewrite length_app.
    cbn [map app ReadStream ReadFrame Pipe_FrameConn Header_Type Buffer_Bytes
         Write Limited_Writer stored room].
    rewrite Z.eqb_refl. cbn [negb].
    destruct (Nat.le_gt_cases (List.length b) r) as [Hfit|Hover].
    + rewrite Nat.min_r by exact Hfit.
      unfold len. rewrite Z.eqb_refl. cbn [negb].
      rewrite closes_user_type by assumption. rewrite firstn_all.
      destruct (IH fuel (st ++ b) (r - List.length b)%nat) as [IHok IHshort];
        [cbn [List.length] in Hfuel; lia|].
      split; intros Hr.
      * rewrite IHok by lia. rewrite <- app_assoc, Nat.sub_add_distr.
        reflexivity.
      * destruct IHshort as [c' Hc']; [lia|]. exists c'. rewrite Hc'.
        rewrite firstn_app.
        replace (firstn r b) with b by (symmetry; apply firstn_all2; lia).
        rewrite <- app_assoc. reflexivity.
    + rewrite Nat.min_l by lia. split; intros Hr; [lia|].
      unfold len. destruct (Z.eqb_spec (Z.of_nat r) (Z.of_nat (List.length b)));
        [lia|]. cbn [negb]. eexists.
      rewrite Nat.sub_diag, firstn_app.
      replace (r - List.length b)%nat with 0%nat by lia.
      cbn [firstn]. rewrite app_nil_r. reflexivity.
Qed.

(** X15.  A stream read into a sink that takes fewer bytes than a frame
    holds: when the bytes of the stream fit the sink's room, [ReadStream]
    stores them all and returns nil; when they do not, it returns
    [io.ErrShortWrite] and the sink holds the bytes that fitted. *)
Theorem short_write (S : list byte) (stype : Z) (depth : nat)
    (st : list byte) (r : nat) :
  stype <> 0 -> stype <> SourceEOF -> stype <> SourceErr ->
  (1 <= depth)%nat ->
  exists frames : Pipe,
    WriteStream depth [] (mkReader S io_EOF) stype = Ret (frames, None) /\
    forall fuel : nat,
      (List.length frames <= fuel)%nat ->
      ((List.length S <= r)%nat ->
       ReadStream strconv_Quote ahead fuel frames (mkLimited st r) stype =
       Ret ([], mkLimited (st ++ S) (r - List.length S), None)) /\
      ((r < List.length S)%nat ->
       exists c',
         ReadStream strconv_Quote ahead fuel frames (mkLimited st r) stype =
         Ret (c', mkLimited (st ++ firstn r S) 0, Some io_ErrShortWrite)).
Proof.
  intros H0 HE HR Hd. destruct depth as [|depth]; [lia|].
  destruct (WriteStream_clean depth [] (mkReader S io_EOF) stype H0 eq_refl)
    as (chunks & first & Hw & Hcat & _).
  eexists. split; [exact Hw|].
  intros fuel Hfuel. cbn [app pending] in *.
  rewrite length_app, length_map in Hfuel. cbn [List.length] in Hfuel.
  change (mkFrame stype first :: map (mkFrame stype) chunks)
    with (map (mkFrame stype) (first :: chunks)).
  destruct (ReadStream_Limited stype (mkFrame SourceEOF []) []
              (first :: chunks) HE HR ltac:(cbn [Header_Type]; congruence)
              fuel st r ltac:(cbn [List.length]; lia)) as [Hok Hshort].
  rewrite Hcat in Hok, Hshort. split; assumption.
Qed.

End Receive.

(** On a connection that breaks, the frames of a clean stream arrive up to
    the budget. *)
Lemma consumer_Lossy (recur : Lossy -> Reader -> Z -> go (Lossy * option error))
    (stype : Z) (lastb : list byte) (e : error) (chunks : list (list byte)) :
  forall (sent0 : list Frame) (k : nat),
    consumer recur (mkLossy sent0 k e)
      (full_reads chunks ++ [mkread lastb (Some io_EOF)]) stype =
    Ret (mkLossy
           (sent0 ++ firstn k (map (mkFrame stype) chunks
                                 ++ [mkFrame stype lastb; mkFrame SourceEOF []]))
           (k - (List.length chunks + 2)) e,
         if (k <? List.length chunks + 2)%nat then Some e else None).
Proof.
  induction chunks as [|b chunks IH]; intros sent0 k.
  - cbn [full_reads map app consumer err buf is_source_error].
    destruct k as [|[|k]]; cbn;
      rewrite ?firstn_nil, ?app_nil_r, ?Nat.sub_0_r, <- ?app_assoc; reflexivity.
  - cbn [full_reads map app consumer err buf is_source_error].
    destruct k as [|k].
    + cbn. rewrite app_nil_r. reflexivity.
    + cbn [WriteFrame Lossy_FrameConn budget sent failure].
      fold (full_reads chunks). rewrite IH. cbn [firstn List.length].
      rewrite <- app_assoc. reflexivity.
Qed.

(** X14.  A write error ends the sending.  On a connection that takes [k]
    frames and then fails, [WriteStream] of a source that ends cleanly
    writes the first [k] of the frames it writes on a reliable connection
    and nothing after them; it returns nil when all frames are written and
    the connection's error otherwise. *)
Theorem write_error_stops (S : list byte) (stype : Z) (depth : nat)
    (k : nat) (e : error) :
  stype <> 0 -> (1 <= depth)%nat ->
  exists frames : Pipe,
    WriteStream depth [] (mkReader S io_EOF) stype = Ret (frames, None) /\
    WriteStream depth (mkLossy [] k e) (mkReader S io_EOF) stype =
      Ret (mkLossy (firstn k frames) (k - List.length frames) e,
           if (k <? List.length frames)%nat then Some e else None).
Proof.
  intros Hst Hd. destruct depth as [|depth]; [lia|].
  destruct (producer_layout (Datatypes.S (List.length S)) (mkReader S io_EOF))
    as (full & lastb & Hprod & _); [cbn [pending]; lia|].
  cbn [pending final normalized] in Hprod.
  exists (map (mkFrame stype) full ++ [mkFrame stype lastb; mkFrame SourceEOF []]).
  cbn [WriteStream]. destruct (Z.eqb_spec stype 0); [contradiction|].
  cbn [pending]. rewrite Hprod. cbn [bind]. split.
  - rewrite consumer_full, consumer_EOF. reflexivity.
  - rewrite consumer_Lossy. rewrite length_app, length_map.
    cbn [List.length app]. reflexivity.
Qed.

(** X9 to X15 on small streams of type 7. *)
Lemma error_stream_shape_witness :
  exists (full : list (list byte)) (dropped : list byte) (unread : Pipe),
    [x01; x02] = List.concat full ++ dropped /\
    Forall (fun b => List.length b = bufferLen) full /\
    List.length full = (List.length [x01; x02] / bufferLen)%nat /\
    List.length dropped = (List.length [x01; x02] mod bufferLen)%nat /\
    WriteStream 2 ([] : Pipe) (mkReader [x01; x02] (errors_New "disk gone")) 7 =
      Ret (map (mkFrame 7) full
             ++ mkFrame SourceErr
                  (firstn bufferLen (list_byte_of_string "disk gone"))
             :: unread ++ [mkFrame SourceEOF []], None) /\
    forall fuel : nat,
      (List.length full < fuel)%nat ->
      ReadStream quote_ascii 2 fuel
        (map (mkFrame 7) full
           ++ mkFrame SourceErr
                (firstn bufferLen (list_byte_of_string "disk gone"))
           :: unread ++ [mkFrame SourceEOF []])
        [] 7 =
      Ret (unread ++ [mkFrame SourceEOF []], [] ++ List.concat full,
           Some (errors_New
                   ("stream error: "
                    ++ quote_ascii
                         (string_of_list_byte
                            (firstn bufferLen
                               (list_byte_of_string "disk gone")))))).
Proof.
  apply (error_stream_shape quote_ascii 2 [x01; x02] (errors_New "disk gone")
           7 2 []).
  - lia.
  - rewrite SourceEOF_value. lia.
  - rewrite SourceErr_value. lia.
  - discriminate.
  - discriminate.
  - lia.
Defined.

Lemma unexpected_frame_type_witness :
  exists (taken left : list Frame),
    [mkFrame 8 []; mkFrame 7 [x03]; mkFrame 7 [x04]; mkFrame SourceEOF []]
      = taken ++ left /\
    (List.length taken <= 2)%nat /\ (List.length taken <= 5)%nat /\
    ReadStream quote_ascii 5 2
      (map (mkFrame 7) [[x01]] ++ mkFrame 9 [x02]
         :: [mkFrame 8 []; mkFrame 7 [x03]; mkFrame 7 [x04];
             mkFrame SourceEOF []]) [] 7 =
    Ret (left, [] ++ List.concat [[x01]],
         Some (errors_New ("received unexpected frame type: " ++ fmt_v 9))).
Proof.
  apply (unexpected_frame_type quote_ascii 5 7 9 [x02] [[x01]]
           [mkFrame 8 []; mkFrame 7 [x03]; mkFrame 7 [x04]; mkFrame SourceEOF []]
           [] 2).
  - rewrite SourceEOF_value. lia.
  - rewrite SourceErr_value. lia.
  - lia.
  - rewrite SourceEOF_value. lia.
  - rewrite SourceErr_value. lia.
  - cbn. lia.
Defined.

(** The reader task at work: with two frames taken ahead, the frames of
    types 8 and 7 behind the unexpected frame are gone when [ReadStream]
    returns; had the task not run on, all four would be left. *)
Example frames_taken_ahead :
  ReadStream quote_ascii 2 2
    [mkFrame 7 [x01]; mkFrame 9 [x02]; mkFrame 8 []; mkFrame 7 [x03];
     mkFrame 7 [x04]; mkFrame SourceEOF []] [] 7 =
  Ret ([mkFrame 7 [x04]; mkFrame SourceEOF []], [x01],
       Some (errors_New "received unexpected frame type: 9")) /\
  ReadStream quote_ascii 0 2
    [mkFrame 7 [x01]; mkFrame 9 [x02]; mkFrame 8 []; mkFrame 7 [x03];
     mkFrame 7 [x04]; mkFrame SourceEOF []] [] 7 =
  Ret ([mkFrame 8 []; mkFrame 7 [x03]; mkFrame 7 [x04]; mkFrame SourceEOF []],
       [x01], Some (errors_New "received unexpected frame type: 9")).
Proof. split; reflexivity. Qed.

Lemma ReadStream_nil_after_SourceEOF_witness :
  exists (c0 : Pipe) f,
    ReadFrame c0 = (([] : Pipe), (f, None)) /\ Header_Type f = SourceEOF.
Proof.
  apply (ReadStream_nil_after_SourceEOF quote_ascii 2 2
           [mkFrame 7 [x01]; mkFrame SourceEOF []] [] ([] : list byte) [x01] 7).
  reflexivity.
Defined.

Lemma short_write_witness :
  exists frames : Pipe,
    WriteStream 1 [] (mkReader [x01; x02; x03] io_EOF) 7 = Ret (frames, None) /\
    forall fuel : nat,
      (List.length frames <= fuel)%nat ->
      ((List.length [x01; x02; x03] <= 2)%nat ->
       ReadStream quote_ascii 2 fuel frames (mkLimited [] 2) 7 =
       Ret ([], mkLimited ([] ++ [x01; x02; x03])
                          (2 - List.length [x01; x02; x03]), None)) /\
      ((2 < List.length [x01; x02; x03])%nat ->
       exists c',
         ReadStream quote_ascii 2 fuel frames (mkLimited [] 2) 7 =
         Ret (c', mkLimited ([] ++ firstn 2 [x01; x02; x03]) 0,
              Some io_ErrShortWrite)).
Proof.
  apply (short_write quote_ascii 2 [x01; x02; x03] 7 1 [] 2).
  - lia.
  - rewrite SourceEOF_value. lia.
  - rewrite SourceErr_value. lia.
  - lia.
Defined.

Lemma write_error_stops_witness :
  exists frames : Pipe,
    WriteStream 1 [] (mkReader [x01] io_EOF) 7 = Ret (frames, None) /\
    WriteStream 1 (mkLossy [] 1 (net_Error "broken pipe" false false))
      (mkReader [x01] io_EOF) 7 =
      Ret (mkLossy (firstn 1 frames) (1 - List.length frames)
                   (net_Error "broken pipe" false false),
           if (1 <? List.length frames)%nat
           then Some (net_Error "broken pipe" false false) else None).
Proof.
  apply (write_error_stops [x01] 7 1 1 (net_Error "broken pipe" false false)); lia.
Defined.

End stream_more.

(** ** replication, continued *)
Module replication_more.
Import replication.

Example format_canonical :
  time.Format_RFC3339 (time.mkTime 63671227200 0 0) = "2018-08-30T12:00:00Z"%string.
Proof. reflexivity. Qed.

Example format_with_zone :
  time.Format_RFC3339 (time.mkTime 63671227200 0 7200)
  = "2018-08-30T14:00:00+02:00"%string.
Proof. reflexivity. Qed.

Example format_leap_day :
  time.Format_RFC3339 (time.mkTime 63592387199 0 (-3600))
  = "2016-02-29T22:59:59-01:00"%string /\
  time.parseRFC3339 "2016-02-29T22:59:59-01:00"
  = Some (time.mkTime 63592387199 0 (-3600)).
Proof. split; reflexivity. Qed.

Section Convert.

Variable time_Parse : string -> time.Time + error.
Variable time_Format : time.Time -> string.


(** X17.  [ZFSFilesystemVersion] returns exactly when the version type is
    Snapshot or Bookmark and the creation field is empty or parses; in every
    other case it panics. *)
Theorem ZFSFilesystemVersion_returns_iff (v : FilesystemVersion) :
  ((exists r, ZFSFilesystemVersion time_Parse v = Ret r) <->
   (Type_ v = FilesystemVersion_Snapshot \/ Type_ v = FilesystemVersion_Bookmark) /\
   (Creation v = EmptyString \/ exists t, time_Parse (Creation v) = inl t)) /\
  ((forall r, ZFSFilesystemVersion time_Parse v <> Ret r) ->
   exists msg, ZFSFilesystemVersion time_Parse v = Panic msg).
Proof.
  unfold ZFSFilesystemVersion, ZFSVersionType.
  destruct (String.eqb_spec (Creation v) EmptyString) as [Hempty|Hne];
    cbn [negb].
  - cbn [bind].
    destruct (Z.eqb_spec (Type_ v) FilesystemVersion_Snapshot) as [Hs|Hns];
      [|destruct (Z.eqb_spec (Type_ v) FilesystemVersion_Bookmark) as [Hb|Hnb]];
      cbn [bind].
    + split; [split; eauto|]. intros Hno. exfalso. eapply Hno. reflexivity.
    + split; [split; eauto|]. intros Hno. exfalso. eapply Hno. reflexivity.
    + split; [|eauto]. split; [intros [r Hr]; discriminate|].
      intros [[?|?] _]; contradiction.
  - destruct (time_Parse (Creation v)) as [t|e]; cbn [bind].
    + destruct (Z.eqb_spec (Type_ v) FilesystemVersion_Snapshot) as [Hs|Hns];
        [|destruct (Z.eqb_spec (Type_ v) FilesystemVersion_Bookmark) as [Hb|Hnb]];
        cbn [bind].
      * split; [split; eauto|]. intros Hno. exfalso. eapply Hno. reflexivity.
      * split; [split; eauto|]. intros Hno. exfalso. eapply Hno. reflexivity.
      * split; [|eauto]. split; [intros [r Hr]; discriminate|].
        intros [[?|?] _]; contradiction.
    + split; [|eauto]. split; [intros [r Hr]; discriminate|].
      intros [_ [?|[t Ht]]]; [contradiction|discriminate].
Qed.

End Convert.


(** The zero value of [zfs.FilesystemVersion] does not convert. *)
Example zero_version_panics :
  FilesystemVersionFromZFS time.Format_RFC3339
    (mkZFSFilesystemVersion (zfs_VersionType_of EmptyString) EmptyString 0 0
       time.zero)
  = Panic "unknown fsv.Type: ".
Proof. reflexivity. Qed.

Lemma ZFSFilesystemVersion_returns_iff_witness :
  ((exists r,
      ZFSFilesystemVersion time.Parse_RFC3339
        (mkFilesystemVersion 5 "zrepl_1" 7 42 "2018-08-30T12:00:00Z") = Ret r) <->
   (5 = FilesystemVersion_Snapshot \/ 5 = FilesystemVersion_Bookmark) /\
   ("2018-08-30T12:00:00Z"%string = EmptyString \/
    exists t, time.Parse_RFC3339 "2018-08-30T12:00:00Z" = inl t)) /\
  ((forall r,
      ZFSFilesystemVersion time.Parse_RFC3339
        (mkFilesystemVersion 5 "zrepl_1" 7 42 "2018-08-30T12:00:00Z") <> Ret r) ->
   exists msg,
     ZFSFilesystemVersion time.Parse_RFC3339
       (mkFilesystemVersion 5 "zrepl_1" 7 42 "2018-08-30T12:00:00Z") = Panic msg).
Proof.
  exact (ZFSFilesystemVersion_returns_iff time.Parse_RFC3339
           (mkFilesystemVersion 5 "zrepl_1" 7 42 "2018-08-30T12:00:00Z")).
Defined.

End replication_more.

(** ** pruner, continued *)
Module pruner_more.
Import pruner pruner_facts.

(** X18.  The construction of the factory fails in three cases and in no
    other: the receiver's rules cannot be built, the sender's rules cannot be
    built, or the sender's rules are not empty and hold no [KeepLastN]. *)
Theorem NewPrunerFactory_fails_iff (PruningEnum : Type)
    (RulesFromConfig : list PruningEnum -> list KeepRule + error)
    (cfg : PruningSenderReceiver PruningEnum) :
  (exists e, NewPrunerFactory RulesFromConfig cfg = inr e) <->
  (exists e, RulesFromConfig (KeepReceiver cfg) = inr e) \/
  (exists e, RulesFromConfig (KeepSender cfg) = inr e) \/
  (exists rs, RulesFromConfig (KeepSender cfg) = inl rs /\
              rs <> [] /\ forall n, ~ In (KeepLastN n) rs).
Proof.
  unfold NewPrunerFactory.
  destruct (RulesFromConfig (KeepReceiver cfg)) as [rr|er].
  2:{ split; [eauto|eauto]. }
  destruct (RulesFromConfig (KeepSender cfg)) as [rs|es].
  2:{ split; [eauto|eauto]. }
  pose proof (checkContainsKeep1_None rs) as Hcheck.
  destruct (checkContainsKeep1 rs) as [e|].
  - split; [|eauto]. intros _. right. right. exists rs.
    split; [reflexivity|]. split.
    + intros ->. destruct Hcheck as [_ Hc]. discriminate Hc. auto.
    + intros n Hin. destruct Hcheck as [_ Hc]. discriminate Hc. eauto.
  - split; [intros [e He]; discriminate|].
    intros [[e He]|[[e He]|[rs' [Hrs [Hne Hno]]]]]; try discriminate.
    injection Hrs as <-. destruct Hcheck as [Hc _].
    destruct (Hc eq_refl) as [Hnil|[n Hin]]; [contradiction|].
    exfalso. exact (Hno n Hin).
Qed.

(** X19.  The two pruners of a factory that [NewPrunerFactory] has built:
    both start in [Plan] without error and without records and wait 10
    seconds between retries; the sender's rules are the ones built from the
    sender's configuration and are empty or hold a [KeepLastN], the
    receiver's are the ones built from the receiver's configuration. *)
Theorem pruners_of_factory (PruningEnum : Type)
    (RulesFromConfig : list PruningEnum -> list KeepRule + error)
    (cfg : PruningSenderReceiver PruningEnum) (f : PrunerFactory) :
  NewPrunerFactory RulesFromConfig cfg = inl f ->
  let snd_p := BuildSenderPruner f in
  let rcv_p := BuildReceiverPruner f in
  (state snd_p = Plan /\ err snd_p = None /\ records snd_p = []) /\
  (state rcv_p = Plan /\ err rcv_p = None /\ records rcv_p = []) /\
  retryWait (p_args snd_p) = 10000000000 /\
  retryWait (p_args rcv_p) = 10000000000 /\
  RulesFromConfig (KeepSender cfg) = inl (rules (p_args snd_p)) /\
  RulesFromConfig (KeepReceiver cfg) = inl (rules (p_args rcv_p)) /\
  (rules (p_args snd_p) = [] \/ exists n, In (KeepLastN n) (rules (p_args snd_p))).
Proof.
  unfold NewPrunerFactory.
  destruct (RulesFromConfig (KeepReceiver cfg)) as [rr|er]; [|discriminate].
  destruct (RulesFromConfig (KeepSender cfg)) as [rs|es]; [|discriminate].
  pose proof (checkContainsKeep1_None rs) as Hcheck.
  destruct (checkContainsKeep1 rs) as [e|]; [discriminate|].
  intros Hf. injection Hf as <-. cbn.
  repeat split; try reflexivity. exact (proj1 Hcheck eq_refl).
Qed.

Lemma pruners_of_factory_witness :
  let f := mkPrunerFactory [KeepOther "grid"; KeepLastN 3] [] 10000000000 in
  let snd_p := BuildSenderPruner f in
  let rcv_p := BuildReceiverPruner f in
  (state snd_p = Plan /\ err snd_p = None /\ records snd_p = []) /\
  (state rcv_p = Plan /\ err rcv_p = None /\ records rcv_p = []) /\
  retryWait (p_args snd_p) = 10000000000 /\
  retryWait (p_args rcv_p) = 10000000000 /\
  (inl [KeepOther "grid"; KeepLastN 3] : list KeepRule + error)
    = inl (rules (p_args snd_p)) /\
  (inl [] : list KeepRule + error) = inl (rules (p_args rcv_p)) /\
  (rules (p_args snd_p) = [] \/ exists n, In (KeepLastN n) (rules (p_args snd_p))).
Proof.
  apply (pruners_of_factory KeepRule (fun l => inl l)
           (mkPruningSenderReceiver [KeepOther "grid"; KeepLastN 3] [])
           (mkPrunerFactory [KeepOther "grid"; KeepLastN 3] [] 10000000000)).
  reflexivity.
Defined.

Section OnEnd.
Context {E : Type} `{Context E}.

(** X20.  The end of the context during a wait.  When [select] sees the
    context end with an error that is not retryable, such as
    [context.Canceled], the pruner stores the error and goes to [ErrPerm].
    When the error is retryable, as [context.DeadlineExceeded] is, whose type
    implements [net.Error], [onErr] finds the pruner in a wait state and
    panics. *)
Theorem doWait_context_done (goback : State) (a : args) (env env1 : E)
    (p : Pruner) (e : error) :
  state p = PlanWait \/ state p = ExecWait ->
  select_wait env (retryWait a) = (env1, ContextDone e) ->
  (shouldRetry (Some e) = false ->
   doWait goback a env p =
   Ret (env1, mkPruner (p_args p) ErrPerm (Some e) (prunePending p)
                       (pruneCompleted p))) /\
  (shouldRetry (Some e) = true ->
   doWait goback a env p = Panic "p.state") /\
  shouldRetry (Some context_Canceled) = false /\
  shouldRetry (Some context_DeadlineExceeded) = true.
Proof.
  intros Hstate Hsel. unfold doWait, onErr. rewrite Hsel.
  split; [|split; [|split; reflexivity]]; intros Hretry; rewrite Hretry;
    cbn [negb bind set_err set_state state p_args err prunePending pruneCompleted].
  - reflexivity.
  - destruct Hstate as [-> | ->]; reflexivity.
Qed.

End OnEnd.

Lemma doWait_context_done_witness :
  (shouldRetry (Some context_DeadlineExceeded) = false ->
   doWait Plan (p_args pruner_waiting) (mkEndedContext context_DeadlineExceeded)
          pruner_waiting =
   Ret (mkEndedContext context_DeadlineExceeded,
        mkPruner (p_args pruner_waiting) ErrPerm (Some context_DeadlineExceeded)
                 (prunePending pruner_waiting) (pruneCompleted pruner_waiting))) /\
  (shouldRetry (Some context_DeadlineExceeded) = true ->
   doWait Plan (p_args pruner_waiting) (mkEndedContext context_DeadlineExceeded)
          pruner_waiting = Panic "p.state") /\
  shouldRetry (Some context_Canceled) = false /\
  shouldRetry (Some context_DeadlineExceeded) = true.
Proof.
  apply (doWait_context_done Plan (p_args pruner_waiting)
           (mkEndedContext context_DeadlineExceeded)
           (mkEndedContext context_DeadlineExceeded)
           pruner_waiting context_DeadlineExceeded).
  - left. reflexivity.
  - reflexivity.
Defined.

Lemma onErr_lists (e : option error) (p p' : Pruner) :
  onErr e p = Ret p' ->
  prunePending p' = prunePending p /\ pruneCompleted p' = pruneCompleted p /\
  p_args p' = p_args p.
Proof.
  unfold onErr. destruct (negb (shouldRetry e)).
  - intros Hr. injection Hr as <-. repeat split.
  - cbn [state set_err]. destruct (state p); intros Hr; try discriminate;
      injection Hr as <-; repeat split.
Qed.

Lemma onErr_from_Exec (e : option error) (p p' : Pruner) :
  state p = Exec -> onErr e p = Ret p' ->
  state p' = ErrPerm \/ state p' = ExecWait.
Proof.
  unfold onErr. cbn [state set_err]. intros ->.
  destruct (negb (shouldRetry e)); intros Hr; injection Hr as <-; cbn; auto.
Qed.

Lemma onErr_from_ExecWait (e : option error) (p p' : Pruner) :
  state p = ExecWait -> onErr e p = Ret p' -> state p' = ErrPerm.
Proof.
  unfold onErr. cbn [state set_err]. intros ->.
  destruct (negb (shouldRetry e)); intros Hr; [|discriminate].
  injection Hr as <-. reflexivity.
Qed.

Section Machine.
Context {E : Type} `{Target E} `{History E} `{Context E}.
Variable CreationAsTime : FilesystemVersion -> time.Time + error.
Variable Filesystem_String : Filesystem -> string.
Variable RelName : FilesystemVersion -> string.
Variable PruneSnapshots : list snapshot -> list KeepRule -> list snapshot.

#[local] Abbreviation statePlan' := (statePlan CreationAsTime Filesystem_String RelName).
#[local] Abbreviation stateExec' := (stateExec PruneSnapshots).
#[local] Abbreviation statefunc' :=
  (statefunc CreationAsTime Filesystem_String RelName PruneSnapshots).
#[local] Abbreviation prune' :=
  (prune CreationAsTime Filesystem_String RelName PruneSnapshots).

(** X21.  The outcomes of [DestroySnapshots] in [stateExec], for a pruner in
    [Exec] with a pending record.  The request names the record's filesystem
    and the versions that the policy selects.  Without error, and with an
    error that is not retryable, the record moves to the end of the
    completed ones with the outcome in its [err], and state and [err] of
    the pruner stay as they are.  With a retryable error the record stays
    first in line, the pruner stores the error and goes to [ExecWait]. *)
Theorem stateExec_destroy (a : args) (env env1 : E) (p : Pruner) (pfs : fs)
    (rest : list fs) (outcome : option error) :
  state p = Exec -> prunePending p = pfs :: rest ->
  DestroySnapshots env
    (mkDestroyReq (path pfs)
       (map fsv (PruneSnapshots (snaps pfs) (rules a)))) = (env1, outcome) ->
  ((outcome = None \/ shouldRetry outcome = false) ->
   stateExec' a env p =
   Ret (env1, mkPruner (p_args p) Exec (err p) rest
                       (pruneCompleted p ++ [Update pfs outcome]))) /\
  ((outcome <> None /\ shouldRetry outcome = true) ->
   stateExec' a env p =
   Ret (env1, mkPruner (p_args p) ExecWait outcome (pfs :: rest)
                       (pruneCompleted p))).
Proof.
  intros Hstate Hpend Hdestroy. unfold stateExec.
  rewrite Hpend, Hstate. cbn [State_eqb negb Update path snaps].
  rewrite Hdestroy. split.
  - intros [-> | Hno].
    + rewrite ?Hpend. reflexivity.
    + destruct outcome as [e|]; [|rewrite ?Hpend; reflexivity].
      rewrite Hno, ?Hpend. reflexivity.
  - intros [Hsome Hretry]. destruct outcome as [e|]; [|contradiction].
    rewrite Hretry. unfold onErr. rewrite Hretry.
    unfold set_state, set_err.
    cbn [negb state bind p_args err prunePending pruneCompleted].
    rewrite Hstate.
    cbn [bind p_args err prunePending pruneCompleted state].
    rewrite ?Hpend. reflexivity.
Qed.

(** In the execution phase a round keeps the records and stays in the
    phase. *)
Lemma exec_round (s : args -> E -> Pruner -> go (E * Pruner))
    (a : args) (env env' : E) (p p' : Pruner) :
  exec_phase p ->
  statefunc' (state p) = Some s -> s a env p = Ret (env', p') ->
  exec_phase p' /\ map record_key (records p') = map record_key (records p).
Proof.
  intros Hphase Hs Hret. unfold exec_phase in Hphase.
  destruct Hphase as [Hst|[Hst|[Hst|[Hst _]]]]; rewrite Hst in Hs;
    cbn [statefunc] in Hs; try discriminate; injection Hs as <-.
  - unfold stateExec in Hret. destruct (prunePending p) as [|pfs rest] eqn:Hpend.
    + injection Hret as <- <-. unfold exec_phase, records.
      cbn [state set_state prunePending pruneCompleted]. rewrite Hpend. auto 6.
    + rewrite Hst in Hret. cbn [State_eqb negb] in Hret.
      destruct (DestroySnapshots env _) as [env1 [e|]].
      * destruct (shouldRetry (Some e)).
        -- destruct (onErr (Some e) p) as [p1| |] eqn:Hon; cbn [bind] in Hret;
             try discriminate. injection Hret as <- <-.
           destruct (onErr_lists _ _ _ Hon) as (Hp & Hc & _).
           destruct (onErr_from_Exec _ _ _ Hst Hon) as [Hs1|Hs1];
             unfold exec_phase, records; rewrite Hp, Hc, Hpend, Hs1;
             split; auto.
        -- injection Hret as <- <-. unfold exec_phase, records.
           cbn [state prunePending pruneCompleted tl]. split; [auto|].
           rewrite <- app_assoc, !map_app, ?Hpend. reflexivity.
      * injection Hret as <- <-. unfold exec_phase, records.
        cbn [state prunePending pruneCompleted tl]. split; [auto|].
        rewrite <- app_assoc, !map_app, ?Hpend. reflexivity.
  - unfold stateExecWait, doWait in Hret.
    destruct (select_wait env (retryWait a)) as [env1 [|e]].
    + injection Hret as <- <-. split; [left; reflexivity|reflexivity].
    + destruct (onErr (Some e) p) as [p1| |] eqn:Hon; cbn [bind] in Hret;
        try discriminate. injection Hret as <- <-.
      destruct (onErr_lists _ _ _ Hon) as (Hp & Hc & _).
      unfold records. rewrite Hp, Hc. split; [|reflexivity].
      unfold exec_phase. rewrite (onErr_from_ExecWait _ _ _ Hst Hon). auto.
Qed.

(** X22.  From [Exec] or [ExecWait] to the end of the loop, the pruner
    keeps its records: their filesystems and planned snapshots, completed
    ones first, stay the same list, so the execution only moves records from
    pending to completed.  The loop ends in [Done] or [ErrPerm], and in
    [Done] nothing is pending. *)
Theorem exec_keeps_records (a : args) (fuel : nat) :
  forall (env env' : E) (p p' : Pruner) (log : list (State * State)),
    state p = Exec \/ state p = ExecWait ->
    prune' fuel a env p = Ret (env', p', log) ->
    map record_key (records p') = map record_key (records p) /\
    ((state p' = Done /\ prunePending p' = []) \/ state p' = ErrPerm).
Proof.
  assert (Hgen : forall fuel (env env' : E) (p p' : Pruner) log,
            exec_phase p ->
            prune' fuel a env p = Ret (env', p', log) ->
            map record_key (records p') = map record_key (records p) /\
            exec_phase p' /\ statefunc' (state p') = None).
  { clear fuel. induction fuel as [|fuel IH];
      intros env env' p p' log Hphase Hrun; cbn [prune] in Hrun;
      destruct (statefunc' (state p)) as [s|] eqn:Hs; try discriminate;
      try (injection Hrun as <- <- <-; auto).
    destruct (s a env p) as [[env1 p1]| |] eqn:Hstep; cbn [bind] in Hrun;
      try discriminate.
    destruct (prune' fuel a env1 p1) as [[[env2 p2] log']| |] eqn:Hrest;
      cbn [bind] in Hrun; try discriminate.
    injection Hrun as <- <- <-.
    destruct (exec_round s a env env1 p p1 Hphase Hs Hstep) as [Hphase1 Hrec1].
    destruct (IH _ _ _ _ _ Hphase1 Hrest) as (Hrec2 & Hphase2 & Hend).
    split; [congruence|]. split; assumption. }
  intros env env' p p' log Hstate Hrun.
  destruct (Hgen fuel env env' p p' log) as (Hrec & Hphase & Hend);
    [unfold exec_phase; tauto|exact Hrun|].
  split; [exact Hrec|].
  destruct Hphase as [Hst|[Hst|[Hst|Hst]]]; try (rewrite Hst in Hend; discriminate);
    auto.
Qed.

(** X23.  When [DestroySnapshots] never fails, the loop started in [Exec]
    ends in [Done] after one round per pending record and one more: every
    pending record is completed in order, without error, and [err] of the
    pruner is untouched. *)
Theorem exec_completes (a : args) :
  (forall env req, snd (DestroySnapshots env req) = None) ->
  forall (pending : list fs) (env : E) (p : Pruner) (fuel : nat),
    state p = Exec -> prunePending p = pending ->
    (List.length pending < fuel)%nat ->
    exists env' log,
      prune' fuel a env p =
        Ret (env',
             mkPruner (p_args p) Done (err p) []
                      (pruneCompleted p ++ map (fun f => Update f None) pending),
             log) /\
      List.length log = Datatypes.S (List.length pending).
Proof.
  intros Hok. induction pending as [|pfs rest IH]; intros env p fuel Hstate Hpend Hfuel;
    (destruct fuel as [|fuel]; [cbn [List.length] in Hfuel; lia|]);
    cbn [prune]; rewrite Hstate; cbn [statefunc]; unfold stateExec;
    rewrite Hpend.
  - unfold set_state. rewrite Hpend. cbn [bind map]. rewrite app_nil_r.
    destruct fuel; cbn [prune state statefunc bind];
      eexists; eexists; (split; [reflexivity|reflexivity]).
  - rewrite Hstate. cbn [State_eqb negb Update path snaps].
    specialize (Hok env (mkDestroyReq (path pfs)
                           (map fsv (PruneSnapshots (snaps pfs) (rules a))))).
    destruct (DestroySnapshots env _) as [env1 outcome]. cbn [snd] in Hok.
    subst outcome. cbn [bind state tl prunePending].
    destruct (IH env1
                (mkPruner (p_args p) Exec (err p) rest
                   (pruneCompleted p ++ [Update (Update pfs None) None]))
                fuel) as (env' & log & Hrun & Hlen).
    + reflexivity.
    + reflexivity.
    + cbn [List.length] in Hfuel. lia.
    + rewrite ?Hpend, ?Hstate. cbn [tl]. rewrite Hrun. cbn [bind].
      eexists; eexists. split.
      * cbn [p_args err pruneCompleted map Update]. rewrite <- app_assoc.
        reflexivity.
      * cbn [List.length]. rewrite Hlen. reflexivity.
Qed.

#[local] Abbreviation plan_versions' :=
  (plan_versions CreationAsTime Filesystem_String RelName).

(** The loop over the versions when no creation date and no lookup
    fails. *)
Lemma plan_versions_ok (tfs : Filesystem) (tfsvs : list FilesystemVersion) :
  (forall v, In v tfsvs -> is_snapshot v = true ->
             exists t, CreationAsTime v = inl t) ->
  (forall env0 req,
     exists env1 res, SnapshotReplicationStatus env0 req = (env1, inl res)) ->
  forall (env : E) (pfs : fs),
    exists env' pfs',
      plan_versions' env tfs tfsvs pfs = (env', inl pfs') /\
      path pfs' = path pfs /\ fs_err pfs' = fs_err pfs /\
      map fsv (snaps pfs') = map fsv (snaps pfs) ++ filter is_snapshot tfsvs.
Proof.
  intros Hct Hhist.
  induction tfsvs as [|v rest IH]; intros env pfs; cbn [plan_versions filter].
  - exists env, pfs. rewrite app_nil_r. repeat split.
  - assert (IH' := IH (fun x Hin => Hct x (or_intror Hin))). clear IH.
    unfold is_snapshot at 1.
    destruct (replication.Type_ v =? replication.FilesystemVersion_Snapshot)
      eqn:Hsnap; cbn [negb]; [|apply IH'].
    destruct (Hct v (or_introl eq_refl) Hsnap) as [t Ht]. rewrite Ht.
    destruct (Hhist env (mkStatusReq (Path tfs) (replication.Name v)
                           SnapshotReplicationStatusReq_Get))
      as (env1 & res & Hres).
    rewrite Hres.
    destruct (IH' env1 (mkfs (path pfs) (snaps pfs ++ [plan_snapshot res t v])
                             (fs_err pfs)))
      as (env' & pfs' & Hrun & Hpath & Herr & Hsnaps).
    exists env', pfs'. split; [exact Hrun|]. cbn [path fs_err snaps] in *.
    split; [exact Hpath|]. split; [exact Herr|].
    rewrite Hsnaps, map_app. cbn [map fsv plan_snapshot].
    rewrite <- app_assoc. reflexivity.
Qed.

(** X25.  The record that [statePlan] builds for one filesystem, from the
    answers of the history.  When the creation date of every snapshot
    parses and no lookup in the history fails, the record has no error and
    its snapshots are the versions of type Snapshot, in the order listed:
    other versions are skipped.  When the lookup for a snapshot [v] fails
    with an error that is not retryable, after the versions before [v] have
    gone through without error, the loop ends there: the record carries
    that error and no snapshot. *)
Theorem plan_versions_record (tfs : Filesystem)
    (tfsvs : list FilesystemVersion) (env : E) :
  ((forall v, In v tfsvs -> is_snapshot v = true ->
              exists t, CreationAsTime v = inl t) ->
   (forall env0 req,
      exists env1 res, SnapshotReplicationStatus env0 req = (env1, inl res)) ->
   exists env' pfs',
     plan_versions' env tfs tfsvs (mkfs (Path tfs) [] None) = (env', inl pfs') /\
     path pfs' = Path tfs /\ fs_err pfs' = None /\
     map fsv (snaps pfs') = filter is_snapshot tfsvs) /\
  (forall vpre v vpost env1 pfs1 t env2 e,
     tfsvs = vpre ++ v :: vpost ->
     plan_versions' env tfs vpre (mkfs (Path tfs) [] None) = (env1, inl pfs1) ->
     fs_err pfs1 = None ->
     is_snapshot v = true -> CreationAsTime v = inl t ->
     SnapshotReplicationStatus env1
       (mkStatusReq (Path tfs) (replication.Name v)
                    SnapshotReplicationStatusReq_Get) = (env2, inr e) ->
     shouldRetry (Some e) = false ->
     plan_versions' env tfs tfsvs (mkfs (Path tfs) [] None)
     = (env2, inl (mkfs (Path tfs) [] (Some e)))).
Proof.
  split.
  - intros Hct Hhist.
    destruct (plan_versions_ok tfs tfsvs Hct Hhist env (mkfs (Path tfs) [] None))
      as (env' & pfs' & Hrun & Hpath & Herr & Hsnaps).
    exists env', pfs'. repeat split; assumption.
  - intros vpre v vpost env1 pfs1 t env2 e -> Hpre Hok Hsnap Hct Hstatus Hno.
    rewrite (plan_versions_reach CreationAsTime Filesystem_String RelName
               tfs vpre env env1 _ pfs1 (v :: vpost) Hpre Hok).
    cbn [plan_versions]. unfold is_snapshot in Hsnap. rewrite Hsnap.
    cbn [negb]. rewrite Hct, Hstatus, Hno.
    rewrite (proj1 (plan_versions_inv CreationAsTime Filesystem_String RelName
                      vpre _ _ _ _ _ Hpre eq_refl)).
    reflexivity.
Qed.

Lemma plan_filesystems_records (tfss : list Filesystem) :
  forall (env env' : E) (pfss : list fs),
    plan_filesystems CreationAsTime Filesystem_String RelName env tfss
      = (env', inl pfss) ->
    map path pfss = map Path tfss /\
    Forall (fun f =>
              Forall (fun sn => is_snapshot (fsv sn) = true) (snaps f) /\
              (has_err f = true -> snaps f = [])) pfss.
Proof.
  induction tfss as [|tfs rest IH]; intros env env' pfss Hrun;
    cbn [plan_filesystems] in Hrun.
  - injection Hrun as <- <-. split; [reflexivity|constructor].
  - destruct (ListFilesystemVersions env (Path tfs)) as [env1 [tfsvs|e]];
      [|discriminate].
    destruct (plan_versions CreationAsTime Filesystem_String RelName env1 tfs
                tfsvs (mkfs (Path tfs) [] None)) as [env2 [pfs|e]] eqn:Hv;
      [|discriminate].
    destruct (plan_filesystems CreationAsTime Filesystem_String RelName env2 rest)
      as [env3 [pfss'|e]] eqn:Hrest; [|discriminate].
    injection Hrun as <- <-.
    destruct (IH _ _ _ Hrest) as [Hpaths Hall].
    destruct (plan_versions_inv CreationAsTime Filesystem_String RelName
                tfsvs _ _ _ _ _ Hv eq_refl)
      as (Hpath & Hsnaps & Herr).
    cbn [map path snaps] in *. split; [congruence|].
    constructor; [|exact Hall]. split.
    + destruct (fs_err pfs) as [e|] eqn:Hfe.
      * rewrite Herr by discriminate. constructor.
      * specialize (Hsnaps eq_refl). cbn [app] in Hsnaps.
        apply Forall_forall. intros sn Hin.
        assert (Hin' : In (fsv sn) (filter is_snapshot tfsvs)).
        { rewrite <- Hsnaps. apply in_map. exact Hin. }
        apply filter_In in Hin'. exact (proj2 Hin').
    + unfold has_err. destruct (fs_err pfs); [|discriminate].
      intros _. apply Herr. discriminate.
Qed.

(** X24.  A plan that ends in [Exec] has listed the filesystems and built
    one record for each, in order.  The records with an error are appended
    to the completed ones and hold no snapshot, the others are appended to
    the pending ones; every snapshot in a record is a version of type
    Snapshot; [err] of the pruner is untouched. *)
Theorem statePlan_records (a : args) (env env' : E) (p p' : Pruner) :
  statePlan' a env p = Ret (env', p') -> state p' = Exec ->
  exists env1 tfss pfss,
    ListFilesystems env = (env1, inl tfss) /\
    map path pfss = map Path tfss /\
    prunePending p' = prunePending p ++ filter (fun f => negb (has_err f)) pfss /\
    pruneCompleted p' = pruneCompleted p ++ filter has_err pfss /\
    Forall (fun f =>
              Forall (fun sn => is_snapshot (fsv sn) = true) (snaps f) /\
              (has_err f = true -> snaps f = [])) pfss /\
    err p' = err p.
Proof.
  unfold statePlan. intros Hret Hstate.
  assert (Hno : forall e q env0,
            bind (onErr (Some e) p) (fun p0 => Ret (env0, p0)) = Ret (env', q) ->
            state q <> Exec).
  { intros e q env0 Hb.
    destruct (onErr (Some e) p) as [p1| |] eqn:Hon; cbn [bind] in Hb;
      try discriminate. injection Hb as _ <-.
    destruct (onErr_cases _ _ _ Hon) as [_ [[Hs _]|[[Hs|Hs] _]]];
      rewrite Hs; discriminate. }
  destruct (ListFilesystems env) as [env1 [tfss|e]] eqn:Hlist.
  2:{ exfalso. exact (Hno _ _ _ Hret Hstate). }
  destruct (plan_filesystems CreationAsTime Filesystem_String RelName env1 tfss)
    as [env2 [pfss|e]] eqn:Hplan.
  2:{ exfalso. exact (Hno _ _ _ Hret Hstate). }
  injection Hret as <- <-.
  destruct (plan_filesystems_records tfss _ _ _ Hplan) as [Hpaths Hall].
  destruct (plan_commit_lists pfss p) as [Hp Hc].
  exists env1, tfss, pfss. repeat split; try assumption.
  exact (proj1 (plan_commit_fields pfss p)).
Qed.

End Machine.

Lemma stateExec_destroy_witness :
  ((Some (errors_New "dataset is busy") = None \/
    shouldRetry (Some (errors_New "dataset is busy")) = false) ->
   stateExec keep_all (p_args pruner0) (mkFaulty (errors_New "dataset is busy"))
     (mkPruner (p_args pruner0) Exec None [mkfs "pool/fs" [] None] []) =
   Ret (mkFaulty (errors_New "dataset is busy"),
        mkPruner (p_args pruner0) Exec None []
          ([] ++ [Update (mkfs "pool/fs" [] None)
                    (Some (errors_New "dataset is busy"))]))) /\
  ((Some (errors_New "dataset is busy") <> None /\
    shouldRetry (Some (errors_New "dataset is busy")) = true) ->
   stateExec keep_all (p_args pruner0) (mkFaulty (errors_New "dataset is busy"))
     (mkPruner (p_args pruner0) Exec None [mkfs "pool/fs" [] None] []) =
   Ret (mkFaulty (errors_New "dataset is busy"),
        mkPruner (p_args pruner0) ExecWait (Some (errors_New "dataset is busy"))
          [mkfs "pool/fs" [] None] [])).
Proof.
  apply (stateExec_destroy keep_all (p_args pruner0)
           (mkFaulty (errors_New "dataset is busy"))
           (mkFaulty (errors_New "dataset is busy"))
           (mkPruner (p_args pruner0) Exec None [mkfs "pool/fs" [] None] [])
           (mkfs "pool/fs" [] None) []
           (Some (errors_New "dataset is busy"))); reflexivity.
Defined.

Lemma exec_keeps_records_witness :
  map record_key (records pruner_done) =
  map record_key
    (records
       (mkPruner (p_args pruner0) Exec (Some transient)
          [mkfs "pool/fs"
             [mksnapshot true (time.mkTime 63671227200 0 0) snap1] None] []))
  /\
  ((state pruner_done = Done /\ prunePending pruner_done = []) \/
   state pruner_done = ErrPerm).
Proof.
  apply (exec_keeps_records World_CreationAsTime Path at_name keep_all
           (p_args pruner0) 2 world_waiting world_done
           (mkPruner (p_args pruner0) Exec (Some transient)
              [mkfs "pool/fs"
                 [mksnapshot true (time.mkTime 63671227200 0 0) snap1] None] [])
           pruner_done [(Exec, Exec); (Exec, Done)]).
  - left. reflexivity.
  - vm_compute. reflexivity.
Defined.

Lemma World_destroy_ok (env : World) (req : DestroySnapshotsReq) :
  snd (DestroySnapshots env req) = None.
Proof. reflexivity. Defined.

Lemma exec_completes_witness :
  exists env' log,
    prune World_CreationAsTime Path at_name keep_all 2 (p_args pruner0) world0
      (mkPruner (p_args pruner0) Exec None [mkfs "pool/fs" [] None] []) =
      Ret (env',
           mkPruner (p_args pruner0) Done None []
             ([] ++ map (fun f => Update f None) [mkfs "pool/fs" [] None]),
           log) /\
    List.length log = 2%nat.
Proof.
  apply (exec_completes (E := World) World_CreationAsTime Path at_name keep_all
           (p_args pruner0) World_destroy_ok
           [mkfs "pool/fs" [] None] world0
           (mkPruner (p_args pruner0) Exec None [mkfs "pool/fs" [] None] []) 2).
  - reflexivity.
  - reflexivity.
  - cbn. lia.
Defined.

(** X25 on two worlds.  Where the history answers, the bookmark is skipped
    and the snapshot is planned; where it refuses the lookup for good, the
    record of the filesystem carries the error and no snapshot. *)
Example plan_skips_bookmark :
  plan_versions World_CreationAsTime Path at_name world0
    (mkFilesystem "pool/fs" EmptyString)
    [replication.mkFilesystemVersion replication.FilesystemVersion_Bookmark
       "mark" 2 2 "2018-08-30T12:00:00Z"; snap1]
    (mkfs "pool/fs" [] None)
  = (world0,
     inl (mkfs "pool/fs"
            [mksnapshot false (time.mkTime 63671227200 0 0) snap1] None)).
Proof. vm_compute. reflexivity. Qed.

Example plan_keeps_lookup_error :
  plan_versions World_CreationAsTime Path at_name world_broken
    (mkFilesystem "pool/fs" EmptyString)
    [replication.mkFilesystemVersion replication.FilesystemVersion_Bookmark
       "mark" 2 2 "2018-08-30T12:00:00Z"; snap1; snap1]
    (mkfs "pool/fs" [] None)
  = (world_broken, inl (mkfs "pool/fs" [] (Some denied))).
Proof. vm_compute. reflexivity. Qed.

Lemma statePlan_records_witness :
  exists env1 tfss pfss,
    ListFilesystems world0 = (env1, inl tfss) /\
    map path pfss = map Path tfss /\
    prunePending
      (mkPruner (p_args pruner0) Exec None
         [mkfs "pool/fs" [mksnapshot false (time.mkTime 63671227200 0 0) snap1] None]
         [])
      = prunePending pruner0 ++ filter (fun f => negb (has_err f)) pfss /\
    pruneCompleted
      (mkPruner (p_args pruner0) Exec None
         [mkfs "pool/fs" [mksnapshot false (time.mkTime 63671227200 0 0) snap1] None]
         [])
      = pruneCompleted pruner0 ++ filter has_err pfss /\
    Forall (fun f =>
              Forall (fun sn => is_snapshot (fsv sn) = true) (snaps f) /\
              (has_err f = true -> snaps f = [])) pfss /\
    err (mkPruner (p_args pruner0) Exec None
           [mkfs "pool/fs" [mksnapshot false (time.mkTime 63671227200 0 0) snap1]
                 None] [])
      = err pruner0.
Proof.
  apply (statePlan_records (E := World) World_CreationAsTime Path at_name
           (p_args pruner0) world0 world0 pruner0
           (mkPruner (p_args pruner0) Exec None
              [mkfs "pool/fs"
                 [mksnapshot false (time.mkTime 63671227200 0 0) snap1] None] [])).
  - vm_compute. reflexivity.
  - reflexivity.
Defined.

End pruner_more.

(** ** logging *)
Module logging_facts.
Import logging.

(** X26.  [parseLogFormat] accepts the strings [human], [logfmt] and
    [json], each with the formatter of that name, and nothing else: any
    other string and any value that is not a string is an error. *)
Theorem parseLogFormat_accepts (i : Dyn) (f : EntryFormatter) :
  parseLogFormat i = inl f <->
  (i = DString "human" /\ f = mkFormatter HumanFormatter 0) \/
  (i = DString "logfmt" /\ f = mkFormatter LogfmtFormatter 0) \/
  (i = DString "json" /\ f = mkFormatter JSONFormatter 0).
Proof.
  split.
  - destruct i as [s|t]; cbn [parseLogFormat]; [|discriminate].
    destruct (String.eqb_spec s "human") as [->|_];
      [intros Hf; injection Hf as <-; auto|].
    destruct (String.eqb_spec s "logfmt") as [->|_];
      [intros Hf; injection Hf as <-; auto|].
    destruct (String.eqb_spec s "json") as [->|_];
      [intros Hf; injection Hf as <-; auto|discriminate].
  - intros [[-> ->]|[[-> ->]|[-> ->]]]; reflexivity.
Qed.

Section WithEnvironment.

Variable logger_ParseLevel : string -> Z + error.
Variable logger_Warn : Z.
Variable MetadataAll MetadataNone MetadataTime MetadataColor : Z.
Variable stdout_IsTerminal : bool.
Variable Certificate CertPool TLSConfig : Type.
Variable tls_LoadX509KeyPair : string -> string -> Certificate + error.
Variable x509_SystemCertPool : option CertPool + error.
Variable tlsconf_ParseCAFile : string -> option CertPool + error.
Variable tlsconf_ClientAuthClient :
  string -> CertPool -> Certificate -> option TLSConfig + error.

#[local] Abbreviation parseOutlet' :=
  (parseOutlet logger_ParseLevel MetadataAll MetadataNone MetadataTime
     MetadataColor stdout_IsTerminal Certificate CertPool TLSConfig
     tls_LoadX509KeyPair x509_SystemCertPool tlsconf_ParseCAFile
     tlsconf_ClientAuthClient).
#[local] Abbreviation outlets_range' :=
  (outlets_range logger_ParseLevel MetadataAll MetadataNone MetadataTime
     MetadataColor stdout_IsTerminal Certificate CertPool TLSConfig
     tls_LoadX509KeyPair x509_SystemCertPool tlsconf_ParseCAFile
     tlsconf_ClientAuthClient).
#[local] Abbreviation OutletsFromConfig' :=
  (OutletsFromConfig logger_ParseLevel logger_Warn MetadataAll MetadataNone
     MetadataTime MetadataColor stdout_IsTerminal Certificate CertPool TLSConfig
     tls_LoadX509KeyPair x509_SystemCertPool tlsconf_ParseCAFile
     tlsconf_ClientAuthClient).
#[local] Abbreviation parses_to' :=
  (parses_to logger_ParseLevel MetadataAll MetadataNone MetadataTime
     MetadataColor stdout_IsTerminal Certificate CertPool TLSConfig
     tls_LoadX509KeyPair x509_SystemCertPool tlsconf_ParseCAFile
     tlsconf_ClientAuthClient).

Lemma parseCommon_cases (c : LoggingOutletCommon) :
  (exists e, parseCommon logger_ParseLevel c = (0, None, Some e)) \/
  (exists l f,
     parseCommon logger_ParseLevel c = (l, Some f, None) /\
     Level c <> EmptyString /\ Format c <> EmptyString /\
     logger_ParseLevel (Level c) = inl l /\
     parseLogFormat (DString (Format c)) = inl f).
Proof.
  unfold parseCommon.
  destruct (String.eqb_spec (Level c) EmptyString) as [Hl|Hl];
    [left; eexists; reflexivity|].
  destruct (String.eqb_spec (Format c) EmptyString) as [Hf|Hf];
    [left; eexists; reflexivity|].
  cbn [orb].
  destruct (logger_ParseLevel (Level c)) as [l|e]; [|left; eexists; reflexivity].
  destruct (parseLogFormat (DString (Format c))) as [f|e];
    [|left; eexists; reflexivity].
  right. exists l, f. repeat split; assumption.
Qed.

(** X27.  An entry that parses without error gives an outlet, never nil, of
    the type that the entry configures, at the level that [ParseLevel] reads
    from its non-empty [Level], with the formatter that its non-empty
    [Format] names.  A syslog outlet's formatter gets the flags
    [MetadataNone], a TCP outlet's [MetadataAll]. *)
Theorem parseOutlet_ok (le : LoggingOutletEnum) (o : option (Outlet TLSConfig))
    (l : Z) :
  parseOutlet' le = Ret (o, l, None) ->
  exists c f0,
    common_of le = Some c /\
    Level c <> EmptyString /\ Format c <> EmptyString /\
    logger_ParseLevel (Level c) = inl l /\
    parseLogFormat (DString (Format c)) = inl f0 /\
    match le with
    | RetStdout v =>
        exists fl, o = Some (WriterOutlet TLSConfig (mkFormatter (kind f0) fl))
    | RetTCP v =>
        exists t,
          o = Some (TCPOutlet TLSConfig (mkFormatter (kind f0) MetadataAll)
                              (Net v) (Address v) t (tcp_RetryInterval v))
    | RetSyslog v =>
        o = Some (SyslogOutlet TLSConfig (mkFormatter (kind f0) MetadataNone)
                               (syslog_RetryInterval v))
    | RetOther => False
    end.
Proof.
  destruct le as [v|v|v|]; cbn [parseOutlet common_of]; [| | |discriminate].
  - destruct (parseCommon_cases (stdout_common v))
      as [[e He]|(l0 & f & Hc & Hl & Hf & Hlev & Hfmt)]; rewrite ?He, ?Hc;
      [discriminate|].
    cbn [parseStdoutOutlet]. intros Hr. injection Hr as <- <-.
    exists (stdout_common v), f. repeat split; try assumption.
    eexists. reflexivity.
  - destruct (parseCommon_cases (tcp_common v))
      as [[e He]|(l0 & f & Hc & Hl & Hf & Hlev & Hfmt)]; rewrite ?He, ?Hc;
      [discriminate|].
    unfold parseTCPOutlet.
    destruct (match TLS v with
              | Some m => tcp_tls_config Certificate CertPool TLSConfig
                            tls_LoadX509KeyPair x509_SystemCertPool
                            tlsconf_ParseCAFile tlsconf_ClientAuthClient m
                            (Address v)
              | None => Ret (inl None)
              end) as [[t|e]| |]; cbn [bind]; try discriminate.
    intros Hr. injection Hr as <- <-.
    exists (tcp_common v), f. repeat split; try assumption.
    eexists. reflexivity.
  - destruct (parseCommon_cases (syslog_common v))
      as [[e He]|(l0 & f & Hc & Hl & Hf & Hlev & Hfmt)]; rewrite ?He, ?Hc;
      [discriminate|].
    cbn [parseSyslogOutlet]. intros Hr. injection Hr as <- <-.
    exists (syslog_common v), f. repeat split; assumption.
Qed.

(** X28.  An entry of a known type with an empty [Level] or an empty
    [Format] is refused before anything else is looked at. *)
Theorem parseOutlet_needs_level_and_format (le : LoggingOutletEnum)
    (c : LoggingOutletCommon) :
  common_of le = Some c ->
  Level c = EmptyString \/ Format c = EmptyString ->
  parseOutlet' le =
  Ret (None, 0, Some (errors_New "must specify 'level' and 'format' field")).
Proof.
  intros Hc Hempty.
  assert (Hp : parseCommon logger_ParseLevel c =
               (0, None, Some (errors_New "must specify 'level' and 'format' field"))).
  { unfold parseCommon. destruct Hempty as [-> | ->]; cbn [String.eqb orb].
    - reflexivity.
    - rewrite orb_true_r. reflexivity. }
  destruct le as [v|v|v|]; cbn [common_of] in Hc; try discriminate;
    injection Hc as <-; cbn [parseOutlet]; rewrite Hp; reflexivity.
Qed.

(** The loop over entries that all parse. *)
Lemma outlets_range_ok (in_ : list LoggingOutletEnum) :
  forall (parsed : Outlets TLSConfig) (lei sys std : Z) (acc : Outlets TLSConfig),
    Forall2 parses_to' in_ parsed ->
    outlets_range' in_ lei sys std acc =
    Ret (inl (sys + count TLSConfig (is_syslog TLSConfig) parsed,
              std + count TLSConfig (is_stdout TLSConfig) parsed,
              acc ++ parsed)).
Proof.
  induction in_ as [|le rest IH]; intros parsed lei sys std acc Hall;
    inversion Hall as [|le' ol rest' parsed' Hle Hrest]; subst.
  - cbn. rewrite !Z.add_0_r, app_nil_r. reflexivity.
  - cbn [outlets_range]. unfold parses_to in Hle. rewrite Hle. cbn [bind].
    rewrite (IH parsed' _ _ _ _ Hrest). destruct ol as [o l]. cbn [fst snd].
    rewrite <- app_assoc. cbn [app].
    unfold count, is_syslog, is_stdout. cbn [filter fst].
    destruct o as [[f|f n a t r|f r]|]; unfold len; cbn [List.length];
      do 2 apply f_equal; f_equal; f_equal; lia.
Qed.

Lemma outlets_range_inv (in_ : list LoggingOutletEnum) :
  forall (lei sys std sys' std' : Z) (acc outs : Outlets TLSConfig),
    outlets_range' in_ lei sys std acc = Ret (inl (sys', std', outs)) ->
    exists parsed, Forall2 parses_to' in_ parsed /\ outs = acc ++ parsed.
Proof.
  induction in_ as [|le rest IH]; intros lei sys std sys' std' acc outs Hrun;
    cbn [outlets_range] in Hrun.
  - injection Hrun as _ _ <-. exists []. split; [constructor|].
    rewrite app_nil_r. reflexivity.
  - destruct (parseOutlet' le) as [[[o l] [e|]]| |] eqn:Hle; cbn [bind] in Hrun;
      try discriminate.
    destruct (IH _ _ _ _ _ _ _ Hrun) as (parsed & Hall & ->).
    exists ((o, l) :: parsed). split.
    + constructor; [exact Hle|exact Hall].
    + rewrite <- app_assoc. reflexivity.
Qed.

(** X29.  For a configuration that is not empty, [OutletsFromConfig]
    returns outlets exactly when every entry parses without error and at
    most one of the outlets is a syslog outlet and at most one writes to
    standard output; the outlets are then those of the entries, in order,
    each with its level. *)
Theorem OutletsFromConfig_ok_iff (in_ : list LoggingOutletEnum)
    (outs : Outlets TLSConfig) :
  in_ <> [] ->
  (OutletsFromConfig' in_ = Ret (inl outs) <->
   Forall2 parses_to' in_ outs /\
   count TLSConfig (is_syslog TLSConfig) outs <= 1 /\
   count TLSConfig (is_stdout TLSConfig) outs <= 1).
Proof.
  intros Hne. unfold OutletsFromConfig.
  assert (Hlen : (len in_ =? 0) = false).
  { apply Z.eqb_neq. destruct in_; [contradiction|]. unfold len. cbn. lia. }
  rewrite Hlen. split.
  - intros Hrun.
    destruct (outlets_range' in_ 0 0 0 []) as [[[[sys std] outs']|e]| |] eqn:Hloop;
      cbn [bind] in Hrun; try discriminate.
    destruct (outlets_range_inv _ _ _ _ _ _ _ _ Hloop) as (parsed & Hall & ->).
    pose proof (outlets_range_ok in_ parsed 0 0 0 [] Hall) as Hok.
    rewrite Hloop in Hok. injection Hok as -> ->. cbn [app] in *.
    destruct (Z.gtb_spec (count TLSConfig (is_syslog TLSConfig) parsed) 1);
      [discriminate|].
    destruct (Z.gtb_spec (count TLSConfig (is_stdout TLSConfig) parsed) 1);
      [discriminate|].
    injection Hrun as <-. repeat split; [assumption|lia|lia].
  - intros (Hall & Hsys & Hstd).
    rewrite (outlets_range_ok in_ outs 0 0 0 [] Hall). cbn [bind app].
    rewrite !Z.add_0_l.
    destruct (Z.gtb_spec (count TLSConfig (is_syslog TLSConfig) outs) 1); [lia|].
    destruct (Z.gtb_spec (count TLSConfig (is_stdout TLSConfig) outs) 1); [lia|].
    reflexivity.
Qed.

Lemma outlets_range_fails (pre : list LoggingOutletEnum) :
  forall (parsed : Outlets TLSConfig) (le : LoggingOutletEnum)
         (post : list LoggingOutletEnum) (o : option (Outlet TLSConfig))
         (l : Z) (e : error) (lei sys std : Z) (acc : Outlets TLSConfig),
    Forall2 parses_to' pre parsed ->
    parseOutlet' le = Ret (o, l, Some e) ->
    outlets_range' (pre ++ le :: post) lei sys std acc =
    Ret (inr (pruner.errors_Wrap e
                ("cannot parse outlet #" ++ stream.fmt_v (lei + len pre)))).
Proof.
  induction pre as [|le0 pre IH]; intros parsed le post o l e lei sys std acc Hall Hle;
    inversion Hall as [|le' ol rest' parsed' Hle0 Hrest]; subst.
  - cbn [app outlets_range]. rewrite Hle. cbn [bind].
    unfold len. cbn [List.length]. rewrite Z.add_0_r. reflexivity.
  - cbn [app outlets_range]. unfold parses_to in Hle0. rewrite Hle0. cbn [bind].
    rewrite (IH parsed' le post o l e _ _ _ _ Hrest Hle).
    unfold len. cbn [List.length].
    replace (lei + 1 + Z.of_nat (List.length pre))
      with (lei + Z.of_nat (S (List.length pre))) by lia.
    reflexivity.
Qed.

(** X30.  The first entry that does not parse decides the result: the error
    is that entry's error, wrapped with the entry's index counted from 0,
    whatever follows it and however many outlets of a kind came before. *)
Theorem OutletsFromConfig_first_error (pre post : list LoggingOutletEnum)
    (parsed : Outlets TLSConfig) (le : LoggingOutletEnum)
    (o : option (Outlet TLSConfig)) (l : Z) (e : error) :
  Forall2 parses_to' pre parsed ->
  parseOutlet' le = Ret (o, l, Some e) ->
  OutletsFromConfig' (pre ++ le :: post) =
  Ret (inr (pruner.errors_Wrap e
              ("cannot parse outlet #" ++ stream.fmt_v (len pre)))).
Proof.
  intros Hall Hle. unfold OutletsFromConfig.
  assert (Hlen : (len (pre ++ le :: post) =? 0) = false).
  { apply Z.eqb_neq. unfold len. rewrite length_app. cbn. lia. }
  rewrite Hlen.
  rewrite (outlets_range_fails pre parsed le post o l e 0 0 0 [] Hall Hle).
  reflexivity.
Qed.

End WithEnvironment.

(** The examples run with two levels, the flags 7, 0, 1 and 2, a terminal
    on standard output and certificates without content. *)
#[local] Abbreviation parseOutlet0 :=
  (parseOutlet two_levels 7 0 1 2 true unit unit unit
     (fun _ _ => inl tt) (inl (Some tt)) (fun _ => inl (Some tt))
     (fun _ _ _ => inl (Some tt))).
#[local] Abbreviation OutletsFromConfig0 :=
  (OutletsFromConfig two_levels 2 7 0 1 2 true unit unit unit
     (fun _ _ => inl tt) (inl (Some tt)) (fun _ => inl (Some tt))
     (fun _ _ _ => inl (Some tt))).
#[local] Abbreviation parses_to0 :=
  (parses_to two_levels 7 0 1 2 true unit unit unit
     (fun _ _ => inl tt) (inl (Some tt)) (fun _ => inl (Some tt))
     (fun _ _ _ => inl (Some tt))).

Example default_outlet :
  OutletsFromConfig0 [] =
  Ret (inl [(Some (WriterOutlet unit (mkFormatter HumanFormatter 0)), 2)]).
Proof. reflexivity. Qed.

Example stdout_on_terminal_without_color :
  parseOutlet0 (RetStdout (mkStdoutConf (mkCommon "debug" "human") false false)) =
  Ret (Some (WriterOutlet unit (mkFormatter HumanFormatter 5)), 0, None).
Proof. reflexivity. Qed.

Lemma parseOutlet_ok_witness :
  exists c f0,
    common_of (RetSyslog (mkSyslogConf (mkCommon "warn" "json") 10)) = Some c /\
    Level c <> EmptyString /\ Format c <> EmptyString /\
    two_levels (Level c) = inl 2 /\
    parseLogFormat (DString (Format c)) = inl f0 /\
    Some (SyslogOutlet unit (mkFormatter JSONFormatter 0) 10) =
    Some (SyslogOutlet unit (mkFormatter (kind f0) 0) 10).
Proof.
  apply (parseOutlet_ok two_levels 7 0 1 2 true unit unit unit
           (fun _ _ => inl tt) (inl (Some tt)) (fun _ => inl (Some tt))
           (fun _ _ _ => inl (Some tt))
           (RetSyslog (mkSyslogConf (mkCommon "warn" "json") 10))
           (Some (SyslogOutlet unit (mkFormatter JSONFormatter 0) 10)) 2).
  reflexivity.
Defined.

Lemma parseOutlet_needs_level_and_format_witness :
  parseOutlet0 (RetTCP (mkTCPConf (mkCommon "warn" EmptyString) "host:514" "tcp" 10 None)) =
  Ret (None, 0, Some (errors_New "must specify 'level' and 'format' field")).
Proof.
  apply (parseOutlet_needs_level_and_format two_levels 7 0 1 2 true unit unit unit
           (fun _ _ => inl tt) (inl (Some tt)) (fun _ => inl (Some tt))
           (fun _ _ _ => inl (Some tt))
           (RetTCP (mkTCPConf (mkCommon "warn" EmptyString) "host:514" "tcp" 10 None))
           (mkCommon "warn" EmptyString)).
  - reflexivity.
  - right. reflexivity.
Defined.

Lemma OutletsFromConfig_ok_iff_witness :
  OutletsFromConfig0
    [RetStdout (mkStdoutConf (mkCommon "debug" "human") true true);
     RetSyslog (mkSyslogConf (mkCommon "warn" "json") 10)] =
    Ret (inl [(Some (WriterOutlet unit (mkFormatter HumanFormatter 7)), 0);
              (Some (SyslogOutlet unit (mkFormatter JSONFormatter 0) 10), 2)]) <->
  Forall2 parses_to0
    [RetStdout (mkStdoutConf (mkCommon "debug" "human") true true);
     RetSyslog (mkSyslogConf (mkCommon "warn" "json") 10)]
    [(Some (WriterOutlet unit (mkFormatter HumanFormatter 7)), 0);
     (Some (SyslogOutlet unit (mkFormatter JSONFormatter 0) 10), 2)] /\
  count unit (is_syslog unit)
    [(Some (WriterOutlet unit (mkFormatter HumanFormatter 7)), 0);
     (Some (SyslogOutlet unit (mkFormatter JSONFormatter 0) 10), 2)] <= 1 /\
  count unit (is_stdout unit)
    [(Some (WriterOutlet unit (mkFormatter HumanFormatter 7)), 0);
     (Some (SyslogOutlet unit (mkFormatter JSONFormatter 0) 10), 2)] <= 1.
Proof.
  apply (OutletsFromConfig_ok_iff two_levels 2 7 0 1 2 true unit unit unit
           (fun _ _ => inl tt) (inl (Some tt)) (fun _ => inl (Some tt))
           (fun _ _ _ => inl (Some tt))).
  discriminate.
Defined.

Example stdout_and_syslog_accepted :
  OutletsFromConfig0
    [RetStdout (mkStdoutConf (mkCommon "debug" "human") true true);
     RetSyslog (mkSyslogConf (mkCommon "warn" "json") 10)] =
  Ret (inl [(Some (WriterOutlet unit (mkFormatter HumanFormatter 7)), 0);
            (Some (SyslogOutlet unit (mkFormatter JSONFormatter 0) 10), 2)]).
Proof. reflexivity. Qed.

Example two_stdout_outlets_refused :
  OutletsFromConfig0
    [RetStdout (mkStdoutConf (mkCommon "debug" "human") true true);
     RetStdout (mkStdoutConf (mkCommon "warn" "json") true true)] =
  Ret (inr (errors_New "can only define one 'stdout' outlet")).
Proof. reflexivity. Qed.

Lemma OutletsFromConfig_first_error_witness :
  OutletsFromConfig0
    ([RetStdout (mkStdoutConf (mkCommon "debug" "human") true true)]
       ++ RetSyslog (mkSyslogConf (mkCommon "warn" "xml") 10)
       :: [RetStdout (mkStdoutConf (mkCommon "warn" "json") true true)]) =
  Ret (inr (pruner.errors_Wrap
              (pruner.errors_Wrap (errors_New "invalid log format: 'xml'")
                 "cannot parse 'formatter' field")
              ("cannot parse outlet #"
               ++ stream.fmt_v
                    (len [RetStdout (mkStdoutConf (mkCommon "debug" "human")
                                                  true true)])))).
Proof.
  apply (OutletsFromConfig_first_error two_levels 2 7 0 1 2 true unit unit unit
           (fun _ _ => inl tt) (inl (Some tt)) (fun _ => inl (Some tt))
           (fun _ _ _ => inl (Some tt))
           [RetStdout (mkStdoutConf (mkCommon "debug" "human") true true)]
           [RetStdout (mkStdoutConf (mkCommon "warn" "json") true true)]
           [(Some (WriterOutlet unit (mkFormatter HumanFormatter 7)), 0)]
           (RetSyslog (mkSyslogConf (mkCommon "warn" "xml") 10))
           None 0
           (pruner.errors_Wrap (errors_New "invalid log format: 'xml'")
              "cannot parse 'formatter' field")).
  - constructor; [reflexivity|constructor].
  - reflexivity.
Defined.

End logging_facts.
